(** * LockFreeMemoryPool: a shallow embedding and its verified properties

    The development follows [LockFreeMemoryPool.h] (the pool: slot array,
    claim / release protocol, construction boundary, scoped handle) and
    [LockFreeMemoryPoolStats.h] (the diagnostic snapshot).

    Modelling choices.
    - [size_t] values are integers in [Z] with the 64-bit wrap-around written
      out ([size_t_wrap]).
    - The vector of segments is a [list]; [segments[idx]] is stdpp's lookup
      and in-place update.
    - Every member function is a computation in a small state-and-outcome
      monad over a [World]: the pool, the schedule of spurious failures that
      [compare_exchange_weak] will suffer, and the trace of atomic accesses,
      constructor calls and destructor calls performed so far.
    - A [T*] is [nullptr], the address of a segment, written as its signed
      offset (in segments) from [&segments[0]], inside the array or outside
      of it, or an address inside a segment.
    - An operation without a defined result (a store or a destructor call
      through a pointer that is not the address of a segment of the array, a
      modulo by zero) ends in [Fault].
    - The operations of a client come one after the other ([run]); the last
      part of the development cuts [allocate_fast] and [deallocate_fast] at
      their atomic accesses and lets the steps of several threads
      interleave. *)

From Stdlib Require Import ZArith Bool Lia.
From Stdlib Require Import Floats.SpecFloat.
From stdpp Require Import base numbers list.

Local Open Scope Z_scope.

(** ** Machine integers *)

Definition SIZE_WIDTH : Z := 64.

(** Arithmetic on [size_t] is modulo [2^64]. *)
Definition size_t_wrap (z : Z) : Z := z mod 2 ^ SIZE_WIDTH.

(** No [std::vector] holds more than [PTRDIFF_MAX] elements. *)
Definition vector_max_size : Z := 2 ^ 63 - 1.

(** ** Atomic accesses and the trace *)

Inductive memory_order : Type :=
| memory_order_relaxed
| memory_order_consume
| memory_order_acquire
| memory_order_release
| memory_order_acq_rel
| memory_order_seq_cst.

(** One entry of the trace.  [EvCas idx s f swapped observed] is a
    [compare_exchange_weak] on [segments[idx].available] with success order
    [s] and failure order [f]; [swapped] tells whether it succeeded and
    [observed] is the value of [expected] after the call. *)
Inductive Event : Type :=
| EvLoadHint (mo : memory_order) (v : Z)
| EvStoreHint (mo : memory_order) (v : Z)
| EvCas (idx : Z) (mo_success mo_failure : memory_order) (swapped observed : bool)
| EvStoreFlag (idx : Z) (mo : memory_order) (v : bool)
| EvLoadFlag (idx : Z) (mo : memory_order) (v : bool)
| EvConstruct (idx : Z) (ok : bool)
| EvDestroy (idx : Z).

(** ** Pointers *)

(** [slot_ptr off] is the address of the segment [off] segments after
    [&segments[0]] (before it when [off] is negative): a slot of the pool when
    [0 <= off < segments.size()].  [inner_ptr off delta] is the address
    [delta] bytes into that segment, [delta] not 0 and less than the size of
    a segment: the address of no segment. *)
Inductive Ptr : Type :=
| nullptr
| slot_ptr (off : Z)
| inner_ptr (off delta : Z).

Definition is_null (p : Ptr) : bool :=
  match p with nullptr => true | _ => false end.

(** ** Outcomes *)

Inductive Exn : Type :=
| constructor_failure
| length_error
| bad_alloc.

(** How a call leaves: it returns, it throws, it faults (an operation
    without a defined result: a modulo by zero, an access outside the segment
    array, a destructor call where no object can be) or it aborts the process
    ([std::abort]). *)
Inductive Outcome (A : Type) : Type :=
| Returned (a : A)
| Thrown (e : Exn)
| Fault
| Aborted.

Arguments Returned {A} a.
Arguments Thrown {A} e.
Arguments Fault {A}.
Arguments Aborted {A}.

(** Control flow out of a loop body: go on with the next iteration, [break],
    or [return] from the enclosing function. *)
Inductive Control (A : Type) : Type :=
| Next
| Break
| Return (a : A).

Arguments Next {A}.
Arguments Break {A}.
Arguments Return {A} a.

(** ** The statistics record ([LockFreeMemoryPoolStats.h]) *)

Record PoolStats : Type := mkPoolStats {
  total_objects : Z;
  free_objects : Z;
  used_objects : Z;
  utilization_percent : spec_float
}.

(** IEEE 754 binary64, as [double]. *)
Definition double_prec : Z := 53.
Definition double_emax : Z := 1024.

(** [static_cast<double>(n)] for an unsigned integer [n]. *)
Definition double_of_size_t (n : Z) : spec_float :=
  binary_normalize double_prec double_emax n 0 false.

Definition double_div (x y : spec_float) : spec_float :=
  SFdiv double_prec double_emax x y.

Definition double_mul (x y : spec_float) : spec_float :=
  SFmul double_prec double_emax x y.

(** The literals [100.0] and [0.0]. *)
Definition double_100 : spec_float := double_of_size_t 100.
Definition double_0 : spec_float := S754_zero false.

(** The element type of the examples: an integer-like type whose
    constructor throws on the argument 666. *)
Definition ThrowingType_ctor (a : Z) : option Z :=
  if a =? 666 then None else Some a.

Section Pool.

(** The element type, the constructor arguments, and the constructor:
    [None] when it throws. *)
Variable T : Type.
Variable Args : Type.
Variable T_ctor : Args -> option T.

(** [NDEBUG]: [true] in a release build, where [SAFE_CALL] only evaluates
    its expression. *)
Variable NDEBUG : bool.

(** [sizeof(Segment)] in bytes, and the allocator: whether
    [::operator new(bytes)] finds the memory. *)
Variable sizeof_Segment : positive.
Variable operator_new : Z -> bool.

(** ** Data model *)

(** [memory] holds the object constructed in the raw storage, if any. *)
Record Segment : Type := mkSegment {
  memory : option T;
  available : bool
}.

Record LockFreeMemoryPool : Type := mkPool {
  segments : list Segment;
  search_start : Z
}.

(** [spurious]: the coming [compare_exchange_weak] calls that find the
    expected value; [true] makes the call fail spuriously.  Past the end of
    the schedule no call fails spuriously. *)
Record World : Type := mkWorld {
  pool : LockFreeMemoryPool;
  spurious : list bool;
  trace : list Event
}.

Definition M (A : Type) : Type := World -> Outcome A * World.

Definition ret {A} (a : A) : M A := fun w => (Returned a, w).

Definition bind {A B} (m : M A) (k : A -> M B) : M B :=
  fun w =>
    match m w with
    | (Returned a, w') => k a w'
    | (Thrown e, w') => (Thrown e, w')
    | (Fault, w') => (Fault, w')
    | (Aborted, w') => (Aborted, w')
    end.

Definition throw {A} (e : Exn) : M A := fun w => (Thrown e, w).
Definition fault {A} : M A := fun w => (Fault, w).
Definition abort {A} : M A := fun w => (Aborted, w).

(** [try { body } catch (...) { handler }]. *)
Definition try_catch {A} (body : M A) (handler : Exn -> M A) : M A :=
  fun w =>
    match body w with
    | (Thrown e, w') => handler e w'
    | r => r
    end.

Notation "x <- m ;; k" := (bind m (fun x => k))
  (at level 100, m at next level, right associativity).
Notation "m ;;; k" := (bind m (fun _ => k))
  (at level 100, right associativity).

Definition emit (e : Event) : M unit :=
  fun w => (Returned tt, mkWorld (pool w) (spurious w) (trace w ++ [e])).

Definition get_pool : M LockFreeMemoryPool := fun w => (Returned (pool w), w).

Definition put_pool (p : LockFreeMemoryPool) : M unit :=
  fun w => (Returned tt, mkWorld p (spurious w) (trace w)).

(** The next entry of the schedule of spurious failures. *)
Definition next_spurious : M bool :=
  fun w =>
    match spurious w with
    | [] => (Returned false, w)
    | b :: rest => (Returned b, mkWorld (pool w) rest (trace w))
    end.

(** ** Loops *)

(** [n] iterations of [body], on [i], [i + 1], ...; the loop ends early on
    [Break] and on [Return]. *)
Fixpoint for_count {A} (n : nat) (i : Z) (body : Z -> M (Control A)) : M (option A) :=
  match n with
  | O => ret None
  | S n' =>
      c <- body i ;;
      match c with
      | Next => for_count n' (i + 1) body
      | Break => ret None
      | Return a => ret (Some a)
      end
  end.

(** [for (i = lo; i < hi; ++i) body]. *)
Definition for_range {A} (lo hi : Z) (body : Z -> M (Control A)) : M (option A) :=
  for_count (Z.to_nat (hi - lo)) lo body.

(** ** Primitive operations on the pool *)

(** [segments.size()]. *)
Definition size (p : LockFreeMemoryPool) : Z := Z.of_nat (length (segments p)).

Definition set_available (b : bool) (s : Segment) : Segment :=
  mkSegment (memory s) b.

Definition set_memory (o : option T) (s : Segment) : Segment :=
  mkSegment o (available s).

(** [a % b] on [size_t]. *)
Definition umod (a b : Z) : M Z :=
  if b =? 0 then fault else ret (a mod b).

(** [search_start.load(mo)]. *)
Definition search_start_load (mo : memory_order) : M Z :=
  p <- get_pool ;;
  emit (EvLoadHint mo (search_start p)) ;;;
  ret (search_start p).

(** [search_start.store(v, mo)]. *)
Definition search_start_store (v : Z) (mo : memory_order) : M unit :=
  p <- get_pool ;;
  emit (EvStoreHint mo v) ;;;
  put_pool (mkPool (segments p) v).

(** [segments[idx].available.compare_exchange_weak(expected, desired, s, f)]:
    the result and the new value of [expected]. *)
Definition available_compare_exchange_weak
    (idx : Z) (expected desired : bool) (s f : memory_order) : M (bool * bool) :=
  p <- get_pool ;;
  match segments p !! Z.to_nat idx with
  | None => fault
  | Some seg =>
      if eqb (available seg) expected then
        fails <- next_spurious ;;
        if fails then
          emit (EvCas idx s f false expected) ;;;
          ret (false, expected)
        else
          emit (EvCas idx s f true expected) ;;;
          put_pool (mkPool (<[Z.to_nat idx := set_available desired seg]> (segments p))
                           (search_start p)) ;;;
          ret (true, expected)
      else
        emit (EvCas idx s f false (available seg)) ;;;
        ret (false, available seg)
  end.

(** [segments[idx].available.store(v, mo)].  The index is not checked: the
    store is issued whatever the index.  Past the end of the array it writes
    outside the vector, and has no defined result. *)
Definition available_store (idx : Z) (v : bool) (mo : memory_order) : M unit :=
  p <- get_pool ;;
  emit (EvStoreFlag idx mo v) ;;;
  match segments p !! Z.to_nat idx with
  | None => fault
  | Some _ =>
      put_pool (mkPool (alter (set_available v) (Z.to_nat idx) (segments p))
                       (search_start p))
  end.

(** [segments[idx].available.load(mo)]. *)
Definition available_load (idx : Z) (mo : memory_order) : M bool :=
  p <- get_pool ;;
  match segments p !! Z.to_nat idx with
  | None => fault
  | Some seg => emit (EvLoadFlag idx mo (available seg)) ;;; ret (available seg)
  end.

(** [new (ptr) T(args...)] on the storage of segment [idx]. *)
Definition placement_new (idx : Z) (args : Args) : M unit :=
  match T_ctor args with
  | None => emit (EvConstruct idx false) ;;; throw constructor_failure
  | Some v =>
      p <- get_pool ;;
      emit (EvConstruct idx true) ;;;
      put_pool (mkPool (alter (set_memory (Some v)) (Z.to_nat idx) (segments p))
                       (search_start p))
  end.

(** [block - &segments[0]], stored in a [size_t]. *)
Definition index_of (off : Z) : Z := size_t_wrap off.

(** [ptr->~T()]: the end of the object in the segment that [ptr] is the
    address of.  Through a pointer that is not the address of a segment of the
    array (outside of it, or into a segment) the call has no defined
    result.  In a segment of the array that holds no object there is no
    object to end, and the segment stays without one; what is stated of a
    release is stated of a slot that holds an object. *)
Definition destroy (ptr : Ptr) : M unit :=
  match ptr with
  | slot_ptr off =>
      p <- get_pool ;;
      emit (EvDestroy (index_of off)) ;;;
      match segments p !! Z.to_nat (index_of off) with
      | None => fault
      | Some _ =>
          put_pool (mkPool (alter (set_memory None) (Z.to_nat (index_of off))
                              (segments p))
                           (search_start p))
      end
  | _ => fault
  end.

(** ** The pool's member functions *)

Definition default_Segment : Segment := mkSegment None true.

(** [std::vector<Segment>::max_size()]. *)
Definition segments_max_size : Z := vector_max_size / Z.pos sizeof_Segment.

(** The constructor: [segments(pool_size)], then every flag is set.  The
    vector refuses a size above its [max_size()] with [std::length_error];
    for a size above 0 it asks the allocator for the memory of all segments,
    and [std::bad_alloc] leaves the constructor when there is none. *)
Definition LockFreeMemoryPool_ctor (pool_size : Z) : Outcome LockFreeMemoryPool :=
  if segments_max_size <? pool_size then Thrown length_error
  else if (0 <? pool_size) && negb (operator_new (pool_size * Z.pos sizeof_Segment))
  then Thrown bad_alloc
  else
    let segs := replicate (Z.to_nat pool_size) default_Segment in
    Returned
      (mkPool (foldl (fun acc i => alter (set_available true) i acc) segs
                     (seq 0 (length segs)))
              0).

Definition max_spurious_retries : Z := 3.

Definition allocate_fast (args : Args) : M Ptr :=
  p <- get_pool ;;
  let pool_size := size p in
  start_idx <- search_start_load memory_order_relaxed ;;
  found <- for_range 0 pool_size (fun attempts =>
    idx <- umod (size_t_wrap (start_idx + attempts)) pool_size ;;
    claimed <- for_range 0 max_spurious_retries (fun retry =>
      r <- available_compare_exchange_weak idx true false
             memory_order_acq_rel memory_order_relaxed ;;
      let '(swapped, expected) := r in
      if swapped then
        let ptr := slot_ptr idx in
        try_catch (placement_new idx args)
          (fun e => available_store idx true memory_order_release ;;; throw e) ;;;
        next <- umod (size_t_wrap (idx + 1)) pool_size ;;
        search_start_store next memory_order_relaxed ;;;
        ret (Return ptr)
      else if negb expected then ret Break
      else ret Next) ;;
    match claimed with
    | Some ptr => ret (Return ptr)
    | None => ret Next
    end) ;;
  match found with
  | Some ptr => ret ptr
  | None => ret nullptr
  end.

(** [block - &segments[0]], stored in a [size_t].  The difference of two
    [Segment*] is their distance in segments; it is defined for the address
    of a segment (the division of the byte distance by [sizeof(Segment)] is
    exact there, and compiled as such), not for an address inside one. *)
Definition segment_index (elem : Ptr) : M Z :=
  match elem with
  | slot_ptr off => ret (index_of off)
  | _ => fault
  end.

Definition deallocate_impl_safe (elem : Ptr) : M bool :=
  idx <- segment_index elem ;;
  available_store idx true memory_order_release ;;;
  ret true.

(** The macro [SAFE_CALL(expr, message)]. *)
Definition SAFE_CALL (expr : M bool) : M unit :=
  b <- expr ;;
  if NDEBUG then ret tt
  else if negb b then abort
  else ret tt.

Definition deallocate_fast (elem : Ptr) : M unit :=
  if is_null elem then ret tt
  else
    destroy elem ;;;
    SAFE_CALL (deallocate_impl_safe elem).

(** [PoolDeleter]: [pool] is the back-pointer; there is one pool in a
    [World], so the back-pointer is null or points to it. *)
Record PoolDeleter : Type := mkPoolDeleter {
  deleter_pool : bool
}.

Definition PoolDeleter_call (d : PoolDeleter) (ptr : Ptr) : M unit :=
  if negb (is_null ptr) && deleter_pool d then
    destroy ptr ;;;
    SAFE_CALL (deallocate_impl_safe ptr)
  else ret tt.

(** [std::unique_ptr<T, PoolDeleter>]. *)
Record unique_ptr_type : Type := mk_unique_ptr {
  get : Ptr;
  get_deleter : PoolDeleter
}.

(** The [unique_ptr] made from [nullptr]: its deleter is value-initialised. *)
Definition unique_ptr_null : unique_ptr_type :=
  mk_unique_ptr nullptr (mkPoolDeleter false).

(** The destructor of [unique_ptr]. *)
Definition unique_ptr_dtor (h : unique_ptr_type) : M unit :=
  match get h with
  | nullptr => ret tt
  | p => PoolDeleter_call (get_deleter h) p
  end.

Definition allocate_safe (args : Args) : M unique_ptr_type :=
  try_catch
    (ptr <- allocate_fast args ;;
     if is_null ptr then ret unique_ptr_null
     else ret (mk_unique_ptr ptr (mkPoolDeleter true)))
    (fun _ => ret unique_ptr_null).

Definition get_segments_for_stats (p : LockFreeMemoryPool) : list Segment :=
  segments p.

(** ** The snapshot ([LockFreeMemoryPoolStats.h]) *)

(** The range-for over the segments: [i] is the position of the head of
    [segs] in the array. *)
Fixpoint count_free (segs : list Segment) (i : Z) (free_count : Z) : M Z :=
  match segs with
  | [] => ret free_count
  | _ :: rest =>
      b <- available_load i memory_order_relaxed ;;
      count_free rest (i + 1) (if b then size_t_wrap (free_count + 1) else free_count)
  end.

Definition get_pool_stats_impl : M PoolStats :=
  p <- get_pool ;;
  let segs := get_segments_for_stats p in
  let total := Z.of_nat (length segs) in
  free_count <- count_free segs 0 0 ;;
  let used := size_t_wrap (total - free_count) in
  ret (mkPoolStats total free_count used
         (if 0 <? total
          then double_mul (double_div (double_of_size_t used) (double_of_size_t total))
                          double_100
          else double_0)).

Definition get_pool_stats : M PoolStats := get_pool_stats_impl.

(** ** Clients: sequences of operations on one pool *)

Inductive Op : Type :=
| OpAllocateFast (args : Args)
| OpAllocateSafe (args : Args)
| OpDeallocateFast (elem : Ptr)
| OpDropHandle (h : unique_ptr_type)
| OpStats.

Inductive Result : Type :=
| ResPtr (p : Ptr)
| ResHandle (h : unique_ptr_type)
| ResUnit
| ResStats (s : PoolStats).

Definition perform (o : Op) : M Result :=
  match o with
  | OpAllocateFast args => p <- allocate_fast args ;; ret (ResPtr p)
  | OpAllocateSafe args => h <- allocate_safe args ;; ret (ResHandle h)
  | OpDeallocateFast elem => deallocate_fast elem ;;; ret ResUnit
  | OpDropHandle h => unique_ptr_dtor h ;;; ret ResUnit
  | OpStats => s <- get_pool_stats ;; ret (ResStats s)
  end.

(** The caller goes on after every outcome (it catches what is thrown). *)
Fixpoint run (ops : list Op) (w : World) : list (Outcome Result) * World :=
  match ops with
  | [] => ([], w)
  | o :: rest =>
      let '(r, w1) := perform o w in
      let '(rs, w2) := run rest w1 in
      (r :: rs, w2)
  end.

(** A pool just constructed with [pool_size] slots, in a world with the
    given schedule of spurious failures. *)
Definition fresh_world (pool_size : Z) (schedule : list bool) : Outcome World :=
  match LockFreeMemoryPool_ctor pool_size with
  | Returned p => Returned (mkWorld p schedule [])
  | Thrown e => Thrown e
  | Fault => Fault
  | Aborted => Aborted
  end.

(** ** Observations used in the statements *)

Definition capacity (w : World) : Z := size (pool w).

(** The slot behind an index, if the index is inside the array.  Indices
    are [size_t] values: they are never negative. *)
Definition slot (p : LockFreeMemoryPool) (idx : Z) : option Segment :=
  segments p !! Z.to_nat idx.

Definition free_at (p : LockFreeMemoryPool) (idx : Z) : Prop :=
  available <$> slot p idx = Some true.

Definition occupied_at (p : LockFreeMemoryPool) (idx : Z) : Prop :=
  available <$> slot p idx = Some false.

(** The availability flags, in slot order. *)
Definition flags (p : LockFreeMemoryPool) : list bool :=
  available <$> segments p.

Definition count_true (l : list bool) : nat := length (List.filter id l).
Definition count_false (l : list bool) : nat := length (List.filter negb l).

Definition free_slots (p : LockFreeMemoryPool) : nat := count_true (flags p).
Definition occupied_slots (p : LockFreeMemoryPool) : nat := count_false (flags p).

(** What every constructed pool satisfies: the size is one a vector can
    have, and the hint is [0] or an index into the array. *)
Definition pool_wf (p : LockFreeMemoryPool) : Prop :=
  size p <= vector_max_size /\ 0 <= search_start p < Z.max 1 (size p).

(** The slot an operation hands to its caller. *)
Definition slot_handed (r : Outcome Result) : option Z :=
  match r with
  | Returned (ResPtr (slot_ptr i)) => Some i
  | Returned (ResHandle h) =>
      match get h with slot_ptr i => Some i | _ => None end
  | _ => None
  end.

(** The slot an operation gives back to the pool. *)
Definition slot_released (o : Op) : option Z :=
  match o with
  | OpDeallocateFast (slot_ptr off) => Some (index_of off)
  | OpDropHandle h =>
      match get h with
      | slot_ptr off => if deleter_pool (get_deleter h) then Some (index_of off) else None
      | _ => None
      end
  | _ => None
  end.

Definition is_allocation (o : Op) : bool :=
  match o with
  | OpAllocateFast _ | OpAllocateSafe _ => true
  | _ => false
  end.

(** A schedule under which no slot is given up: it never makes three
    compare-exchanges in a row fail spuriously. *)
Definition starts_two_failures (o : list bool) : bool :=
  match o with
  | true :: true :: _ => true
  | _ => false
  end.

Fixpoint cas_reliable (o : list bool) : bool :=
  match o with
  | [] => true
  | b :: rest => negb (b && starts_two_failures rest) && cas_reliable rest
  end.

(** ** The claim algorithm in the words of the specification *)

(** The [k]-th slot probed from the hint [start] in a pool of [n] slots. *)
Definition probe (start n k : Z) : Z := (start + k) mod n.

(** The compare-exchange of the claim: acquire-release on success, relaxed
    on failure. *)
Definition claim_cas (idx : Z) (swapped observed : bool) : Event :=
  EvCas idx memory_order_acq_rel memory_order_relaxed swapped observed.

(** [claim_scan p start k o evs r o']: probing the slots [probe k],
    [probe (k+1)], ... of [p] under the schedule [o] performs the
    compare-exchanges [evs], ends with the slot [r] claimed (or none) and
    leaves the schedule [o'].
    - a slot found occupied is passed after one attempt;
    - a free slot whose compare-exchange fails spuriously
      [max_spurious_retries] times is passed;
    - the first free slot whose compare-exchange succeeds is claimed;
    - after the last slot nothing is claimed. *)
Inductive claim_scan (p : LockFreeMemoryPool) (start : Z) :
    Z -> list bool -> list Event -> option Z -> list bool -> Prop :=
| scan_exhausted k o :
    k = size p ->
    claim_scan p start k o [] None o
| scan_occupied k o evs r o' :
    0 <= k < size p ->
    occupied_at p (probe start (size p) k) ->
    claim_scan p start (k + 1) o evs r o' ->
    claim_scan p start k o
      (claim_cas (probe start (size p) k) false false :: evs) r o'
| scan_given_up k o evs r o' :
    0 <= k < size p ->
    free_at p (probe start (size p) k) ->
    claim_scan p start (k + 1) o evs r o' ->
    claim_scan p start k
      (replicate (Z.to_nat max_spurious_retries) true ++ o)
      (replicate (Z.to_nat max_spurious_retries)
                 (claim_cas (probe start (size p) k) false true) ++ evs)
      r o'
| scan_claimed k m o :
    0 <= k < size p ->
    free_at p (probe start (size p) k) ->
    (m < Z.to_nat max_spurious_retries)%nat ->
    head o <> Some true ->
    claim_scan p start k
      (replicate m true ++ o)
      (replicate m (claim_cas (probe start (size p) k) false true)
         ++ [claim_cas (probe start (size p) k) true true])
      (Some (probe start (size p) k)) (tail o).

(** The pool after slot [i] was claimed, an object [v] constructed in it and
    the hint published. *)
Definition pool_after_claim (p : LockFreeMemoryPool) (i : Z) (v : T) : LockFreeMemoryPool :=
  mkPool (<[Z.to_nat i := mkSegment (Some v) false]> (segments p))
         ((i + 1) mod size p).

(** The number of compare-exchanges on slot [idx] in a trace. *)
Definition is_cas_on (idx : Z) (e : Event) : bool :=
  match e with
  | EvCas j _ _ _ _ => j =? idx
  | _ => false
  end.

Definition cas_attempts (idx : Z) (evs : list Event) : nat :=
  length (List.filter (is_cas_on idx) evs).

(** The accesses the memory-ordering contract allows. *)
Definition order_ok (e : Event) : bool :=
  match e with
  | EvLoadHint memory_order_relaxed _ => true
  | EvStoreHint memory_order_relaxed _ => true
  | EvCas _ memory_order_acq_rel memory_order_relaxed _ _ => true
  | EvStoreFlag _ memory_order_release true => true
  | EvLoadFlag _ memory_order_relaxed _ => true
  | EvConstruct _ _ => true
  | EvDestroy _ => true
  | _ => false
  end.

Definition is_destroy (e : Event) : bool :=
  match e with EvDestroy _ => true | _ => false end.

Definition is_indexing (e : Event) : bool :=
  match e with
  | EvCas _ _ _ _ _ | EvStoreFlag _ _ _ | EvLoadFlag _ _ _
  | EvConstruct _ _ | EvDestroy _ => true
  | _ => false
  end.

(** ** The pieces of [allocate_fast]

    The function is one nest of loops; the proofs go through its pieces:
    what follows a successful compare-exchange, the body of the retry
    loop, and the body of the probing loop.  [allocate_fast_pieces] puts
    them together again. *)

Definition finish_claim (args : Args) (pool_size idx : Z) : M (Control Ptr) :=
  try_catch (placement_new idx args)
    (fun e => available_store idx true memory_order_release ;;; throw e) ;;;
  next <- umod (size_t_wrap (idx + 1)) pool_size ;;
  search_start_store next memory_order_relaxed ;;;
  ret (Return (slot_ptr idx)).

Definition claim_attempt (args : Args) (pool_size idx : Z) (retry : Z) : M (Control Ptr) :=
  r <- available_compare_exchange_weak idx true false
         memory_order_acq_rel memory_order_relaxed ;;
  let '(swapped, expected) := r in
  if swapped then finish_claim args pool_size idx
  else if negb expected then ret Break
  else ret Next.

Definition probe_step (args : Args) (pool_size start_idx : Z) (attempts : Z) : M (Control Ptr) :=
  idx <- umod (size_t_wrap (start_idx + attempts)) pool_size ;;
  claimed <- for_range 0 max_spurious_retries (claim_attempt args pool_size idx) ;;
  match claimed with
  | Some ptr => ret (Return ptr)
  | None => ret Next
  end.

(** What an allocation that ended its scan with [res] leaves behind. *)
Definition scan_outcome (args : Args) (w : World) (evs : list Event)
    (res : option Z) (o' : list bool) : Outcome (option Ptr) * World :=
  match res with
  | None => (Returned None, mkWorld (pool w) o' (trace w ++ evs))
  | Some i =>
      match T_ctor args with
      | Some v =>
          (Returned (Some (slot_ptr i)),
           mkWorld (pool_after_claim (pool w) i v) o'
             (trace w ++ evs ++
                [EvConstruct i true;
                 EvStoreHint memory_order_relaxed ((i + 1) mod size (pool w))]))
      | None =>
          (Thrown constructor_failure,
           mkWorld (pool w) o'
             (trace w ++ evs ++
                [EvConstruct i false; EvStoreFlag i memory_order_release true]))
      end
  end.

(** The same, for the whole of [allocate_fast]. *)
Definition ptr_of (res : option Z) : Ptr :=
  match res with
  | Some i => slot_ptr i
  | None => nullptr
  end.

Definition allocation_outcome (args : Args) (w : World) (evs : list Event)
    (res : option Z) (o' : list bool) : Outcome Ptr * World :=
  match scan_outcome args w evs res o' with
  | (Returned _, w') => (Returned (ptr_of res), w')
  | (Thrown e, w') => (Thrown e, w')
  | (Fault, w') => (Fault, w')
  | (Aborted, w') => (Aborted, w')
  end.

(** ** Further notions used in the proofs and in the statements *)

(** The world once slot [idx] was claimed through a compare-exchange that
    came after [m] spurious failures. *)
Definition claimed_world (w : World) (idx : Z) (seg : Segment) (m : nat) (o : list bool) : World :=
  mkWorld (mkPool (<[Z.to_nat idx := set_available false seg]> (segments (pool w)))
                  (search_start (pool w)))
          o
          (trace w ++ replicate m (claim_cas idx false true) ++ [claim_cas idx true true]).

Definition as_loop_result {A} (c : Control A) : M (option A) :=
  match c with
  | Return a => ret (Some a)
  | _ => ret None
  end.

Definition hint_load (w : World) : Event :=
  EvLoadHint memory_order_relaxed (search_start (pool w)).

(** The pool after the object in slot [idx], a slot of the array, was
    destroyed and the slot set free. *)
Definition released_pool (p : LockFreeMemoryPool) (idx : Z) : LockFreeMemoryPool :=
  mkPool (alter (set_available true) (Z.to_nat idx)
            (alter (set_memory None) (Z.to_nat idx) (segments p)))
         (search_start p).

Definition release_store (idx : Z) : Event :=
  EvStoreFlag idx memory_order_release true.

Definition flag_loads (i : Z) (segs : list Segment) : list Event :=
  imap (fun j s => EvLoadFlag (i + Z.of_nat j) memory_order_relaxed (available s)) segs.

(** An operation leaves the pool as it is, or claims a slot that was free
    and hands it out, or releases the slot it was given. *)
Inductive effect (o : Op) (p : LockFreeMemoryPool) (r : Outcome Result)
    (p' : LockFreeMemoryPool) : Prop :=
| effect_none :
    p' = p -> slot_handed r = None -> effect o p r p'
| effect_claim i v :
    is_allocation o = true ->
    0 <= i < size p ->
    free_at p i ->
    p' = pool_after_claim p i v ->
    slot_handed r = Some i ->
    effect o p r p'
| effect_release idx :
    slot_released o = Some idx ->
    0 <= idx ->
    p' = released_pool p idx ->
    slot_handed r = None ->
    effect o p r p'.

(** An allocation whose constructor call does not throw. *)
Definition constructs (o : Op) : Prop :=
  match o with
  | OpAllocateFast args | OpAllocateSafe args => T_ctor args <> None
  | _ => False
  end.

(** The operation handed a slot to its caller. *)
Definition succeeded (r : Outcome Result) : bool :=
  match slot_handed r with Some _ => true | None => false end.

(** The operation reported exhaustion: a null pointer, an empty handle. *)
Definition exhausted (r : Outcome Result) : bool :=
  match r with
  | Returned (ResPtr p) => is_null p
  | Returned (ResHandle h) => is_null (get h)
  | _ => false
  end.

Definition count_succeeded (rs : list (Outcome Result)) : nat :=
  length (List.filter succeeded rs).

(** ** Interleavings

    [allocate_fast] and [deallocate_fast] once more, cut at their atomic
    accesses: a thread is at a program point and takes one step at a time,
    and the steps of several threads interleave.  [solo_allocate] shows that
    the steps of one thread alone add up to [allocate_fast]. *)

(** The program points of a thread.
    - [PcStart]: [allocate_fast] was called; the hint is loaded next.
    - [PcProbe args start_idx attempts retry]: at the head of the retry
      loop, with the loop counters as given.
    - [PcConstruct args idx]: the compare-exchange on [idx] succeeded; the
      constructor runs next.
    - [PcRestore idx e]: the constructor threw [e]; the slot is set free
      next, then [e] is thrown on.
    - [PcPublish idx]: the object is constructed; the hint is stored next.
    - [PcDone r]: [allocate_fast] left with the outcome [r].
    - [PcDestroy off], [PcFree off]: in [deallocate_fast] on a pointer that
      is not null, before the destructor call and before the store.
    - [PcIdle]: outside the pool. *)
Inductive Pc : Type :=
| PcIdle
| PcStart (args : Args)
| PcProbe (args : Args) (start_idx attempts retry : Z)
| PcConstruct (args : Args) (idx : Z)
| PcRestore (idx : Z) (e : Exn)
| PcPublish (idx : Z)
| PcDone (r : Outcome Ptr)
| PcDestroy (off : Z)
| PcFree (off : Z).

(** One step of a thread inside the pool. *)
Definition thread_step (pc : Pc) : M Pc :=
  match pc with
  | PcStart args =>
      start_idx <- search_start_load memory_order_relaxed ;;
      ret (PcProbe args start_idx 0 0)
  | PcProbe args start_idx attempts retry =>
      p <- get_pool ;;
      let pool_size := size p in
      if pool_size <=? attempts then ret (PcDone (Returned nullptr))
      else if max_spurious_retries <=? retry then
        ret (PcProbe args start_idx (attempts + 1) 0)
      else
        idx <- umod (size_t_wrap (start_idx + attempts)) pool_size ;;
        r <- available_compare_exchange_weak idx true false
               memory_order_acq_rel memory_order_relaxed ;;
        let '(swapped, expected) := r in
        if swapped then ret (PcConstruct args idx)
        else if negb expected then ret (PcProbe args start_idx (attempts + 1) 0)
        else ret (PcProbe args start_idx attempts (retry + 1))
  | PcConstruct args idx =>
      try_catch (placement_new idx args ;;; ret (PcPublish idx))
        (fun e => ret (PcRestore idx e))
  | PcRestore idx e =>
      available_store idx true memory_order_release ;;;
      ret (PcDone (Thrown e))
  | PcPublish idx =>
      p <- get_pool ;;
      next <- umod (size_t_wrap (idx + 1)) (size p) ;;
      search_start_store next memory_order_relaxed ;;;
      ret (PcDone (Returned (slot_ptr idx)))
  | PcDestroy off =>
      destroy (slot_ptr off) ;;;
      ret (PcFree off)
  | PcFree off =>
      SAFE_CALL (deallocate_impl_safe (slot_ptr off)) ;;;
      ret PcIdle
  | PcIdle => ret PcIdle
  | PcDone r => ret (PcDone r)
  end.

(** A thread that is inside the pool. *)
Definition running (pc : Pc) : bool :=
  match pc with
  | PcIdle | PcDone _ => false
  | _ => true
  end.

(** The steps of one thread on its own. *)
Inductive solo_steps : Pc -> World -> Pc -> World -> Prop :=
| solo_refl pc w : solo_steps pc w pc w
| solo_step pc w pc1 w1 pc2 w2 :
    thread_step pc w = (Returned pc1, w1) ->
    solo_steps pc1 w1 pc2 w2 ->
    solo_steps pc w pc2 w2.

(** The slot a thread holds: the one it has claimed and not yet set free,
    be it still inside [allocate_fast], back in the caller's hands, or in
    [deallocate_fast]. *)
Definition holds (pc : Pc) : option Z :=
  match pc with
  | PcConstruct _ idx | PcRestore idx _ | PcPublish idx => Some idx
  | PcDone (Returned (slot_ptr idx)) => Some idx
  | PcDestroy off | PcFree off => Some off
  | _ => None
  end.

(** The outcome of [allocate_fast] as a program point. *)
Definition done_of (r : Outcome (option Ptr)) (res : option Z) : Pc :=
  match r with
  | Returned _ => PcDone (Returned (ptr_of res))
  | Thrown e => PcDone (Thrown e)
  | Fault => PcDone Fault
  | Aborted => PcDone Aborted
  end.

(** The pool and the threads at work on it. *)
Record System : Type := mkSystem {
  world : World;
  threads : list Pc
}.

(** A step of the system: a thread inside the pool takes its next step; a
    thread outside calls [allocate_fast]; a thread that was handed a slot
    calls [deallocate_fast] on it. *)
Inductive sys_step (s : System) : System -> Prop :=
| sys_run t pc pc' w' :
    threads s !! t = Some pc ->
    running pc = true ->
    thread_step pc (world s) = (Returned pc', w') ->
    sys_step s (mkSystem w' (<[t := pc']> (threads s)))
| sys_allocate t pc args :
    threads s !! t = Some pc ->
    running pc = false ->
    holds pc = None ->
    sys_step s (mkSystem (world s) (<[t := PcStart args]> (threads s)))
| sys_deallocate t idx :
    threads s !! t = Some (PcDone (Returned (slot_ptr idx))) ->
    sys_step s (mkSystem (world s) (<[t := PcDestroy idx]> (threads s))).

Inductive sys_steps : System -> System -> Prop :=
| sys_steps_refl s : sys_steps s s
| sys_steps_step s1 s2 s3 :
    sys_steps s1 s2 -> sys_step s2 s3 -> sys_steps s1 s3.

(** Every slot held is a slot of the pool and is occupied, and no two
    threads hold the same slot. *)
Definition exclusive (s : System) : Prop :=
  pool_wf (pool (world s)) /\
  (forall t pc idx,
      threads s !! t = Some pc -> holds pc = Some idx ->
      0 <= idx < size (pool (world s)) /\ occupied_at (pool (world s)) idx) /\
  (forall t t' pc pc' idx,
      t <> t' ->
      threads s !! t = Some pc -> threads s !! t' = Some pc' ->
      holds pc = Some idx -> holds pc' <> Some idx).

(** Two pools with the same flags at slot [j]. *)
Definition same_flag (p p' : LockFreeMemoryPool) (j : Z) : Prop :=
  available <$> slot p' j = available <$> slot p j.

(** What one step of a thread does to the slots: it leaves every flag and
    what the thread holds as they are, or it claims a free slot, or it sets
    free the slot the thread holds. *)
Inductive step_effect (pc : Pc) (p : LockFreeMemoryPool) (pc' : Pc)
    (p' : LockFreeMemoryPool) : Prop :=
| step_keeps :
    holds pc' = holds pc ->
    (forall j, same_flag p p' j) ->
    step_effect pc p pc' p'
| step_claims i :
    holds pc = None ->
    holds pc' = Some i ->
    0 <= i < size p ->
    free_at p i ->
    occupied_at p' i ->
    (forall j, 0 <= j -> j <> i -> same_flag p p' j) ->
    step_effect pc p pc' p'
| step_frees i :
    holds pc = Some i ->
    holds pc' = None ->
    (forall j, 0 <= j -> j <> i -> same_flag p p' j) ->
    step_effect pc p pc' p'.

(** The system at the start: a pool and threads outside of it. *)
Definition initial (s : System) : Prop :=
  pool_wf (pool (world s)) /\ Forall (fun pc => pc = PcIdle) (threads s).

(** ** Notions for the further properties *)

(** An outcome an operation can have on a constructed pool: it returns, or
    [allocate_fast] lets through the failure of the constructor. *)
Definition outcome_of_op (o : Op) (r : Outcome Result) : Prop :=
  match r with
  | Returned _ => True
  | Thrown e =>
      e = constructor_failure /\
      exists args, o = OpAllocateFast args /\ T_ctor args = None
  | Fault | Aborted => False
  end.

Definition is_cas (e : Event) : bool :=
  match e with EvCas _ _ _ _ _ => true | _ => false end.

(** A pool whose slots below [k] are occupied and whose slots from [k] on
    are free, with the hint at slot [k]: what a new pool looks like after
    [k] allocations. *)
Definition filled_to (p : LockFreeMemoryPool) (k : Z) : Prop :=
  search_start p = k mod Z.max 1 (size p) /\
  (forall j, 0 <= j < k -> occupied_at p j) /\
  (forall j, k <= j < size p -> free_at p j).

(** The books of a client: the slots it was handed and has not released.
    A release strikes the slot off; a successful allocation enters it. *)
Definition held_after (held : list Z) (o : Op) (r : Outcome Result) : list Z :=
  match slot_released o with
  | Some i => List.filter (fun j => negb (j =? i)) held
  | None =>
      match slot_handed r with
      | Some i => i :: held
      | None => held
      end
  end.

Fixpoint held_by (held : list Z) (ops : list Op) (w : World) : list Z :=
  match ops with
  | [] => held
  | o :: rest =>
      let '(r, w1) := perform o w in
      held_by (held_after held o r) rest w1
  end.

(** A client that releases only slots it holds. *)
Fixpoint releases_held (held : list Z) (ops : list Op) (w : World) : bool :=
  match ops with
  | [] => true
  | o :: rest =>
      match slot_released o with
      | Some i => existsb (Z.eqb i) held
      | None => true
      end &&
      let '(r, w1) := perform o w in
      releases_held (held_after held o r) rest w1
  end.

(** The books agree with the pool: no slot is entered twice, every slot
    entered is occupied, and there are as many occupied slots as entries. *)
Definition books_ok (p : LockFreeMemoryPool) (held : list Z) : Prop :=
  NoDup held /\
  (forall i, In i held -> 0 <= i /\ occupied_at p i) /\
  occupied_slots p = length held.

(** A program point whose loop counter and slot index are those the code
    can have reached on a pool of [n] slots: [attempts] counts up from 0; a
    slot is constructed in, set free again and published only after its
    compare-exchange, which is on an index inside the array; and the pointer
    that is released is one that was handed out. *)
Definition in_bounds (n : Z) (pc : Pc) : Prop :=
  match pc with
  | PcProbe _ _ attempts _ => 0 <= attempts
  | PcConstruct _ idx | PcPublish idx | PcRestore idx _ => 0 <= idx < n
  | PcDestroy off | PcFree off => 0 <= off < n
  | _ => True
  end.

(** The program points of [allocate_fast], its return included. *)
Definition in_allocate (pc : Pc) : bool :=
  match pc with
  | PcIdle | PcDestroy _ | PcFree _ => false
  | _ => true
  end.

(** A bound on the steps a thread has left inside a pool of [n] slots. *)
Definition steps_left (n : Z) (pc : Pc) : Z :=
  match pc with
  | PcStart _ => 5 * Z.max 0 n + 8
  | PcProbe _ _ attempts retry =>
      3 + 5 * Z.max 0 (n - attempts) + Z.max 0 (4 - retry)
  | PcConstruct _ _ => 2
  | PcRestore _ _ | PcPublish _ => 1
  | PcDestroy _ => 2
  | PcFree _ => 1
  | PcIdle | PcDone _ => 0
  end.

(** [k] steps of one thread inside a pool of [n] slots, with the other
    threads at work in between: every step starts from a world of its own,
    of which only the number of slots is known. *)
Inductive own_steps (n : Z) : nat -> Pc -> Pc -> Prop :=
| own_steps_none pc : own_steps n 0 pc pc
| own_steps_next k pc w pc1 w1 pc2 :
    running pc = true ->
    size (pool w) = n ->
    thread_step pc w = (Returned pc1, w1) ->
    own_steps n k pc1 pc2 ->
    own_steps n (S k) pc pc2.

(** The steps of one thread through its call, with the other threads at
    work in between: [worlds] holds the world that the thread finds at each
    of its steps.  The thread is through when it is not [running] any
    more. *)
Fixpoint thread_run (worlds : list World) (pc : Pc) : Outcome Pc :=
  match worlds with
  | [] => Returned pc
  | w :: rest =>
      if running pc then
        match thread_step pc w with
        | (Returned pc', _) => thread_run rest pc'
        | (Thrown e, _) => Thrown e
        | (Fault, _) => Fault
        | (Aborted, _) => Aborted
        end
      else Returned pc
  end.

(** Every thread is at a program point the code can have reached. *)
Definition threads_in_bounds (s : System) : Prop :=
  pool_wf (pool (world s)) /\
  forall t pc, threads s !! t = Some pc -> in_bounds (size (pool (world s))) pc.

(** The flag of a slot tells whether the slot holds an object: a free
    slot holds none, an occupied slot holds one. *)
Definition flag_matches_object (seg : Segment) : Prop :=
  match memory seg with
  | None => available seg = true
  | Some _ => available seg = false
  end.

(** Every occupied slot is in the hands of a thread. *)
Definition accounted (s : System) : Prop :=
  forall i, 0 <= i < size (pool (world s)) ->
    occupied_at (pool (world s)) i ->
    exists t pc, threads s !! t = Some pc /\ holds pc = Some i.

(** A release that is given the address of a segment, or nothing to
    release: not a pointer into a segment. *)
Definition aims_at_segment (o : Op) : bool :=
  match o with
  | OpDeallocateFast (inner_ptr _ _) => false
  | OpDropHandle h =>
      match get h with
      | inner_ptr _ _ => negb (deleter_pool (get_deleter h))
      | _ => true
      end
  | _ => true
  end.

(** ** The life of a slot, read off the trace

    The accesses to slot [i] that change it: a successful compare-exchange
    on its flag, a store to its flag, a constructor call and a destructor
    call in its storage.  (A failed compare-exchange and a load change
    nothing.) *)
Definition writes_slot (i : Z) (e : Event) : bool :=
  match e with
  | EvCas j _ _ swapped _ => (j =? i) && swapped
  | EvStoreFlag j _ _ | EvConstruct j _ | EvDestroy j => j =? i
  | _ => false
  end.

(** Where slot [i] is in its life: free; claimed by a successful
    compare-exchange; holding the object that was constructed in it; with
    that object destroyed; with a construction that failed.  [PhBroken] is
    where any other order of the changes leads. *)
Inductive Phase : Type :=
| PhFree
| PhClaimed
| PhLive
| PhDestroyed
| PhFailed
| PhBroken.

(** The one order the contract allows: the claim, an acquire-release
    compare-exchange that finds the slot free; then the constructor call;
    then, if it succeeded, the destructor call; then the release store of
    free; then the next claim. *)
Definition phase_step (i : Z) (ph : Phase) (e : Event) : Phase :=
  if writes_slot i e then
    match ph, e with
    | PhFree, EvCas _ memory_order_acq_rel memory_order_relaxed true true => PhClaimed
    | PhClaimed, EvConstruct _ true => PhLive
    | PhClaimed, EvConstruct _ false => PhFailed
    | PhLive, EvDestroy _ => PhDestroyed
    | PhDestroyed, EvStoreFlag _ memory_order_release true => PhFree
    | PhFailed, EvStoreFlag _ memory_order_release true => PhFree
    | _, _ => PhBroken
    end
  else ph.

Definition phase_from (i : Z) (ph : Phase) (t : list Event) : Phase :=
  foldl (phase_step i) ph t.

Definition phase (i : Z) (t : list Event) : Phase := phase_from i PhFree t.

(** The phase of the slot a thread holds, by the program point of the
    thread. *)
Definition phase_of (pc : Pc) : Phase :=
  match pc with
  | PcConstruct _ _ => PhClaimed
  | PcRestore _ _ => PhFailed
  | PcPublish _ | PcDone (Returned (slot_ptr _)) | PcDestroy _ => PhLive
  | PcFree _ => PhDestroyed
  | _ => PhFree
  end.

(** The accesses of one step of a thread, from [pc] to [pc'] on the pool
    [p]. *)
Inductive step_events (p : LockFreeMemoryPool) (pc pc' : Pc) : list Event -> Prop :=
| ev_silent :
    holds pc' = holds pc -> phase_of pc' = phase_of pc ->
    step_events p pc pc' []
| ev_load_hint v :
    holds pc = None -> holds pc' = None ->
    step_events p pc pc' [EvLoadHint memory_order_relaxed v]
| ev_store_hint v :
    holds pc' = holds pc -> phase_of pc' = phase_of pc ->
    step_events p pc pc' [EvStoreHint memory_order_relaxed v]
| ev_cas_failed idx observed :
    holds pc = None -> holds pc' = None ->
    step_events p pc pc' [claim_cas idx false observed]
| ev_cas_claimed idx :
    holds pc = None -> holds pc' = Some idx -> phase_of pc' = PhClaimed ->
    free_at p idx ->
    step_events p pc pc' [claim_cas idx true true]
| ev_construct idx ok :
    holds pc = Some idx -> phase_of pc = PhClaimed ->
    holds pc' = Some idx ->
    phase_of pc' = (if ok : bool then PhLive else PhFailed) ->
    step_events p pc pc' [EvConstruct idx ok]
| ev_destroy idx :
    holds pc = Some idx -> phase_of pc = PhLive ->
    holds pc' = Some idx -> phase_of pc' = PhDestroyed ->
    step_events p pc pc' [EvDestroy idx]
| ev_release idx :
    holds pc = Some idx -> phase_of pc = PhDestroyed \/ phase_of pc = PhFailed ->
    holds pc' = None ->
    step_events p pc pc' [release_store idx].

(** The trace and the threads agree: a slot that a thread holds is in the
    phase of that thread's program point, and a slot that no thread holds is
    free. *)
Definition phases_agree (ths : list Pc) (t : list Event) : Prop :=
  (forall k pc i, ths !! k = Some pc -> holds pc = Some i -> phase i t = phase_of pc) /\
  (forall i, (forall k pc, ths !! k = Some pc -> holds pc <> Some i) ->
             phase i t = PhFree).

(** The accesses that end an allocation whose scan ended with [res]: none
    if no slot was claimed; the constructor call and the relaxed store of the
    hint; or the failed constructor call and the release store that sets the
    slot free again. *)
Definition allocation_tail (args : Args) (p : LockFreeMemoryPool) (res : option Z) : list Event :=
  match res with
  | None => []
  | Some i =>
      match T_ctor args with
      | Some _ => [EvConstruct i true;
                   EvStoreHint memory_order_relaxed ((i + 1) mod size p)]
      | None => [EvConstruct i false; EvStoreFlag i memory_order_release true]
      end
  end.

(** * Proofs *)

Lemma allocate_fast_pieces (args : Args) :
  allocate_fast args =
  (p <- get_pool ;;
   start_idx <- search_start_load memory_order_relaxed ;;
   found <- for_range 0 (size p) (probe_step args (size p) start_idx) ;;
   match found with
   | Some ptr => ret ptr
   | None => ret nullptr
   end).
Proof. reflexivity. Qed.

(** ** Arithmetic on indices *)

Lemma size_t_wrap_small (z : Z) : 0 <= z < 2 ^ 64 -> size_t_wrap z = z.
Proof. intros H. unfold size_t_wrap, SIZE_WIDTH. apply Z.mod_small. exact H. Qed.

Lemma size_t_wrap_range (z : Z) : 0 <= size_t_wrap z < 2 ^ 64.
Proof. unfold size_t_wrap, SIZE_WIDTH. apply Z.mod_pos_bound. lia. Qed.

Lemma index_of_nonneg (off : Z) : 0 <= index_of off.
Proof. unfold index_of. pose proof (size_t_wrap_range off). lia. Qed.

Lemma probe_range (start n k : Z) : 0 < n -> 0 <= probe start n k < n.
Proof. intros H. unfold probe. apply Z.mod_pos_bound. exact H. Qed.

Lemma probe_inj (start n j k : Z) :
  0 <= j < n -> 0 <= k < n ->
  probe start n j = probe start n k -> j = k.
Proof.
  intros Hj Hk Hm. unfold probe in Hm.
  destruct (Z.eq_dec j k) as [|Hne]; [assumption|exfalso].
  assert (Hd : (j - k) mod n = 0).
  { replace (j - k) with ((start + j) - (start + k)) by lia.
    rewrite Zminus_mod, Hm, Z.sub_diag. apply Z.mod_0_l. lia. }
  apply Z.mod_divide in Hd; [|lia]. destruct Hd as [q Hq].
  assert (q = 0) by nia. lia.
Qed.

Lemma slot_in_range (p : LockFreeMemoryPool) (idx : Z) :
  0 <= idx < size p -> is_Some (slot p idx).
Proof.
  intros H. unfold slot, size in *. apply lookup_lt_is_Some. lia.
Qed.

Lemma slot_Some_range (p : LockFreeMemoryPool) (idx : Z) (seg : Segment) :
  0 <= idx -> slot p idx = Some seg -> 0 <= idx < size p.
Proof.
  intros H0 H. unfold slot, size in *. apply lookup_lt_Some in H. lia.
Qed.

(** ** The compare-exchange *)

Lemma cas_on_occupied (w : World) (idx : Z) (seg : Segment) (s f : memory_order) :
  slot (pool w) idx = Some seg ->
  available seg = false ->
  available_compare_exchange_weak idx true false s f w =
  (Returned (false, false),
   mkWorld (pool w) (spurious w) (trace w ++ [EvCas idx s f false false])).
Proof.
  intros Hs Ha. unfold available_compare_exchange_weak, bind, get_pool.
  unfold slot in Hs. rewrite Hs, Ha. reflexivity.
Qed.

Lemma cas_spurious (w : World) (idx : Z) (seg : Segment) (s f : memory_order) (o : list bool) :
  slot (pool w) idx = Some seg ->
  available seg = true ->
  spurious w = true :: o ->
  available_compare_exchange_weak idx true false s f w =
  (Returned (false, true),
   mkWorld (pool w) o (trace w ++ [EvCas idx s f false true])).
Proof.
  intros Hs Ha Ho. unfold available_compare_exchange_weak, bind, get_pool.
  unfold slot in Hs. rewrite Hs, Ha. simpl. unfold next_spurious. rewrite Ho.
  reflexivity.
Qed.

Lemma cas_success (w : World) (idx : Z) (seg : Segment) (s f : memory_order) :
  slot (pool w) idx = Some seg ->
  available seg = true ->
  head (spurious w) <> Some true ->
  available_compare_exchange_weak idx true false s f w =
  (Returned (true, true),
   mkWorld (mkPool (<[Z.to_nat idx := set_available false seg]> (segments (pool w)))
                   (search_start (pool w)))
           (tail (spurious w)) (trace w ++ [EvCas idx s f true true])).
Proof.
  intros Hs Ha Ho. destruct w as [p o t]. simpl in *.
  unfold available_compare_exchange_weak, bind, get_pool.
  unfold slot in Hs. simpl. rewrite Hs, Ha. simpl. unfold next_spurious. simpl.
  destruct o as [|[|] o]; simpl in *; try reflexivity.
  exfalso. apply Ho. reflexivity.
Qed.

(** ** After a successful compare-exchange *)

Lemma finish_claim_constructed (args : Args) (pool_size idx : Z) (w : World) (v : T) :
  T_ctor args = Some v ->
  pool_size <> 0 ->
  finish_claim args pool_size idx w =
  (Returned (Return (slot_ptr idx)),
   mkWorld (mkPool (alter (set_memory (Some v)) (Z.to_nat idx) (segments (pool w)))
                   (size_t_wrap (idx + 1) mod pool_size))
           (spurious w)
           (trace w ++ [EvConstruct idx true;
                        EvStoreHint memory_order_relaxed
                          (size_t_wrap (idx + 1) mod pool_size)])).
Proof.
  intros Hc Hn. destruct w as [p o t].
  unfold finish_claim, bind, try_catch, placement_new. rewrite Hc.
  unfold bind, get_pool, emit, put_pool, umod. simpl.
  destruct (pool_size =? 0) eqn:E; [lia|].
  unfold ret, search_start_store, bind, get_pool, emit, put_pool. simpl.
  rewrite <- app_assoc. reflexivity.
Qed.

Lemma finish_claim_throws (args : Args) (pool_size idx : Z) (w : World) :
  T_ctor args = None ->
  is_Some (segments (pool w) !! Z.to_nat idx) ->
  finish_claim args pool_size idx w =
  (Thrown constructor_failure,
   mkWorld (mkPool (alter (set_available true) (Z.to_nat idx) (segments (pool w)))
                   (search_start (pool w)))
           (spurious w)
           (trace w ++ [EvConstruct idx false;
                        EvStoreFlag idx memory_order_release true])).
Proof.
  intros Hc [seg Hseg]. destruct w as [p o t]. simpl in Hseg.
  unfold finish_claim, bind, try_catch, placement_new. rewrite Hc.
  unfold bind, emit, throw, available_store, bind, get_pool, emit, put_pool. simpl.
  rewrite Hseg. simpl. rewrite <- app_assoc. reflexivity.
Qed.

Lemma finish_claim_returns (args : Args) (pool_size idx : Z) (w w' : World)
    (c : Control Ptr) :
  finish_claim args pool_size idx w = (Returned c, w') -> c = Return (slot_ptr idx).
Proof.
  destruct w as [p o t].
  unfold finish_claim, bind, try_catch, placement_new.
  destruct (T_ctor args); unfold bind, get_pool, emit, put_pool, umod; simpl.
  - destruct (pool_size =? 0); simpl.
    + discriminate.
    + unfold ret, search_start_store, bind, get_pool, emit, put_pool. simpl.
      congruence.
  - unfold throw, available_store, bind, get_pool, emit, put_pool, fault. simpl.
    destruct (segments p !! Z.to_nat idx); simpl; discriminate.
Qed.

Lemma alter_after_insert {A} (f : A -> A) (l : list A) (i : nat) (x : A) :
  alter f i (<[i := x]> l) = <[i := f x]> l.
Proof.
  revert i. induction l as [|a l IH]; intros [|i]; simpl; try reflexivity.
  f_equal. apply IH.
Qed.

(** ** The retry loop on one slot *)

Lemma retry_loop_occupied (args : Args) (pool_size idx : Z) (w : World) (seg : Segment)
    (n : nat) (i : Z) :
  slot (pool w) idx = Some seg ->
  available seg = false ->
  for_count (S n) i (claim_attempt args pool_size idx) w =
  (Returned None,
   mkWorld (pool w) (spurious w) (trace w ++ [claim_cas idx false false])).
Proof.
  intros Hs Ha. simpl. unfold bind at 1. unfold claim_attempt at 1. unfold bind at 1.
  rewrite (cas_on_occupied _ _ _ _ _ Hs Ha). reflexivity.
Qed.

Lemma retry_loop_free (args : Args) (pool_size idx : Z) (seg : Segment) (n : nat) :
  forall (w : World) (i : Z),
  slot (pool w) idx = Some seg ->
  available seg = true ->
  (exists o',
      spurious w = replicate n true ++ o' /\
      for_count n i (claim_attempt args pool_size idx) w =
      (Returned None,
       mkWorld (pool w) o' (trace w ++ replicate n (claim_cas idx false true))))
  \/
  (exists m o',
      (m < n)%nat /\
      spurious w = replicate m true ++ o' /\
      head o' <> Some true /\
      for_count n i (claim_attempt args pool_size idx) w =
      bind (finish_claim args pool_size idx) as_loop_result
           (claimed_world w idx seg m (tail o'))).
Proof.
  induction n as [|n IH]; intros w i Hs Ha.
  - left. exists (spurious w). split; [reflexivity|].
    simpl. unfold ret. destruct w as [p o t]. simpl. rewrite app_nil_r. reflexivity.
  - destruct (spurious w) as [|b o] eqn:Ho.
    + right. exists 0%nat, []. split; [lia|]. split; [reflexivity|]. split; [discriminate|].
      simpl. unfold bind at 1. unfold claim_attempt at 1. unfold bind at 1.
      rewrite (cas_success _ _ _ _ _ Hs Ha) by (rewrite Ho; discriminate).
      rewrite Ho. unfold bind, claimed_world. simpl.
      destruct (finish_claim _ _ _ _) as [[c| | |] w'] eqn:Hf; try reflexivity.
      apply finish_claim_returns in Hf. subst c. reflexivity.
    + destruct b.
      * set (w1 := mkWorld (pool w) o (trace w ++ [claim_cas idx false true])).
        assert (Hstep : for_count (S n) i (claim_attempt args pool_size idx) w =
                        for_count n (i + 1) (claim_attempt args pool_size idx) w1).
        { simpl. unfold bind at 1. unfold claim_attempt at 1. unfold bind at 1.
          rewrite (cas_spurious _ _ _ _ _ _ Hs Ha Ho). reflexivity. }
        rewrite Hstep.
        destruct (IH w1 (i + 1) Hs Ha) as [[o' [Ho' Hr]] | [m [o' [Hm [Ho' [Hh Hr]]]]]].
        -- left. exists o'. simpl in Ho'. split; [simpl; congruence|].
           rewrite Hr. subst w1. simpl. rewrite <- app_assoc. reflexivity.
        -- right. exists (S m), o'. simpl in Ho'.
           split; [lia|]. split; [simpl; congruence|]. split; [exact Hh|].
           rewrite Hr. subst w1. unfold claimed_world. simpl.
           rewrite <- app_assoc. reflexivity.
      * right. exists 0%nat, (false :: o).
        split; [lia|]. split; [reflexivity|]. split; [discriminate|].
        simpl. unfold bind at 1. unfold claim_attempt at 1. unfold bind at 1.
        rewrite (cas_success _ _ _ _ _ Hs Ha) by (rewrite Ho; discriminate).
        rewrite Ho. unfold bind, claimed_world. simpl.
        destruct (finish_claim _ _ _ _) as [[c| | |] w'] eqn:Hf; try reflexivity.
        apply finish_claim_returns in Hf. subst c. reflexivity.
Qed.

(** ** The monad, step by step *)

Lemma bind_returned {A B} (m : M A) (k : A -> M B) (w w' : World) (a : A) :
  m w = (Returned a, w') -> bind m k w = k a w'.
Proof. intros H. unfold bind. rewrite H. reflexivity. Qed.

Lemma bind_thrown {A B} (m : M A) (k : A -> M B) (w w' : World) (e : Exn) :
  m w = (Thrown e, w') -> bind m k w = (Thrown e, w').
Proof. intros H. unfold bind. rewrite H. reflexivity. Qed.

Lemma world_eta (w : World) : mkWorld (pool w) (spurious w) (trace w) = w.
Proof. destruct w. reflexivity. Qed.

Lemma pool_eta (p : LockFreeMemoryPool) : mkPool (segments p) (search_start p) = p.
Proof. destruct p. reflexivity. Qed.

(** ** The probing loop *)

Lemma probe_step_unfold (args : Args) (pool_size start_idx k : Z) (w : World) :
  pool_size <> 0 ->
  probe_step args pool_size start_idx k w =
  bind (for_count 3 0
          (claim_attempt args pool_size (size_t_wrap (start_idx + k) mod pool_size)))
       (fun claimed => match claimed with
                       | Some ptr => ret (Return ptr)
                       | None => ret Next
                       end) w.
Proof.
  intros Hn. unfold probe_step, umod.
  destruct (pool_size =? 0) eqn:E; [lia|]. reflexivity.
Qed.

Lemma scan_outcome_shift (args : Args) (w w1 : World) (pre evs : list Event)
    (res : option Z) (o' : list bool) :
  pool w1 = pool w ->
  trace w1 = trace w ++ pre ->
  scan_outcome args w1 evs res o' = scan_outcome args w (pre ++ evs) res o'.
Proof.
  intros Hp Ht. unfold scan_outcome. rewrite Hp, Ht.
  destruct res; [destruct (T_ctor args)|]; rewrite <- ?app_assoc; reflexivity.
Qed.

Lemma probe_wrap (p : LockFreeMemoryPool) (k : Z) :
  pool_wf p -> 0 <= k < size p ->
  size_t_wrap (search_start p + k) mod size p = probe (search_start p) (size p) k.
Proof.
  intros [Hmax Hh] Hk. unfold probe. rewrite size_t_wrap_small; [reflexivity|].
  unfold vector_max_size in Hmax. lia.
Qed.

Lemma next_hint_wrap (p : LockFreeMemoryPool) (idx : Z) :
  pool_wf p -> 0 <= idx < size p ->
  size_t_wrap (idx + 1) mod size p = (idx + 1) mod size p.
Proof.
  intros [Hmax Hh] Hk. rewrite size_t_wrap_small; [reflexivity|].
  unfold vector_max_size in Hmax. lia.
Qed.

Lemma probe_loop (args : Args) (p0 : LockFreeMemoryPool) :
  pool_wf p0 ->
  0 < size p0 ->
  forall (r : nat) (k : Z) (w : World),
  pool w = p0 ->
  0 <= k ->
  k + Z.of_nat r = size p0 ->
  exists evs res o',
    claim_scan p0 (search_start p0) k (spurious w) evs res o' /\
    for_count r k (probe_step args (size p0) (search_start p0)) w =
    scan_outcome args w evs res o'.
Proof.
  intros Hwf Hpos. induction r as [|r IH]; intros k w Hp Hk Hkr.
  - exists [], None, (spurious w). split.
    + apply scan_exhausted. lia.
    + simpl. unfold ret, scan_outcome. rewrite app_nil_r, world_eta. reflexivity.
  - assert (Hin : 0 <= k < size p0) by lia.
    assert (Hn : size p0 <> 0) by lia.
    set (idx := probe (search_start p0) (size p0) k).
    assert (Hidx : 0 <= idx < size p0) by (apply probe_range; exact Hpos).
    destruct (slot_in_range p0 idx Hidx) as [seg Hseg].
    assert (Hstep : probe_step args (size p0) (search_start p0) k w =
                    bind (for_count 3 0 (claim_attempt args (size p0) idx))
                         (fun claimed => match claimed with
                                         | Some ptr => ret (Return ptr)
                                         | None => ret Next
                                         end) w).
    { rewrite probe_step_unfold by exact Hn. rewrite probe_wrap by assumption.
      reflexivity. }
    assert (Hsw : slot (pool w) idx = Some seg) by (rewrite Hp; exact Hseg).
    destruct (available seg) eqn:Ha.
    + destruct (retry_loop_free args (size p0) idx seg 3 w 0 Hsw Ha)
        as [[o1 [Ho1 Hr]] | [m [o1 [Hm [Ho1 [Hh Hr]]]]]].
      * (* given up after three spurious failures *)
        set (w1 := mkWorld (pool w) o1
                     (trace w ++ replicate 3 (claim_cas idx false true))) in *.
        destruct (IH (k + 1) w1) as [evs [res [o' [Hscan Hrun]]]];
          [exact Hp | lia | lia |].
        exists (replicate 3 (claim_cas idx false true) ++ evs), res, o'. split.
        -- rewrite Ho1. apply scan_given_up; try assumption.
           unfold free_at. fold idx. rewrite Hseg. simpl. rewrite Ha. reflexivity.
        -- change (for_count (S r) k (probe_step args (size p0) (search_start p0)) w)
             with (bind (probe_step args (size p0) (search_start p0) k)
                     (fun c => match c with
                               | Next => for_count r (k + 1)
                                           (probe_step args (size p0) (search_start p0))
                               | Break => ret None
                               | Return a => ret (Some a)
                               end) w).
           assert (Hps : probe_step args (size p0) (search_start p0) k w =
                         (Returned Next, w1)).
           { rewrite Hstep. unfold bind. rewrite Hr. reflexivity. }
           rewrite (bind_returned _ _ _ _ _ Hps).
           rewrite Hrun. apply scan_outcome_shift; reflexivity.
      * (* claimed *)
        exists (replicate m (claim_cas idx false true) ++ [claim_cas idx true true]),
               (Some idx), (tail o1). split.
        -- rewrite Ho1. apply scan_claimed; try assumption.
           unfold free_at. fold idx. rewrite Hseg. simpl. rewrite Ha. reflexivity.
        -- change (for_count (S r) k (probe_step args (size p0) (search_start p0)) w)
             with (bind (probe_step args (size p0) (search_start p0) k)
                     (fun c => match c with
                               | Next => for_count r (k + 1)
                                           (probe_step args (size p0) (search_start p0))
                               | Break => ret None
                               | Return a => ret (Some a)
                               end) w).
           unfold scan_outcome. destruct (T_ctor args) as [v|] eqn:Hc.
           ++ pose proof (finish_claim_constructed args (size p0) idx
                            (claimed_world w idx seg m (tail o1)) v Hc Hn) as Hf.
              match type of Hf with _ = (_, ?w2) =>
                assert (Hps : probe_step args (size p0) (search_start p0) k w =
                              (Returned (Return (slot_ptr idx)), w2))
              end.
              { rewrite Hstep. unfold bind at 1. rewrite Hr. unfold bind.
                rewrite Hf. reflexivity. }
              rewrite (bind_returned _ _ _ _ _ Hps).
              unfold ret, claimed_world, pool_after_claim. simpl.
              rewrite alter_after_insert. rewrite Hp.
              rewrite next_hint_wrap by assumption.
              unfold set_memory, set_available. simpl.
              rewrite <- app_assoc. reflexivity.
           ++ assert (Hcl : is_Some (segments (pool (claimed_world w idx seg m (tail o1)))
                                       !! Z.to_nat idx)).
              { unfold claimed_world. simpl. eexists.
                apply list_lookup_insert_eq. eapply lookup_lt_Some.
                unfold slot in Hsw. exact Hsw. }
              pose proof (finish_claim_throws args (size p0) idx
                            (claimed_world w idx seg m (tail o1)) Hc Hcl) as Hf.
              match type of Hf with _ = (_, ?w2) =>
                assert (Hps : probe_step args (size p0) (search_start p0) k w =
                              (Thrown constructor_failure, w2))
              end.
              { rewrite Hstep. unfold bind at 1. rewrite Hr. unfold bind.
                rewrite Hf. reflexivity. }
              rewrite (bind_thrown _ _ _ _ _ Hps).
              unfold claimed_world. simpl. rewrite alter_after_insert.
              assert (Hseg' : set_available true (set_available false seg) = seg).
              { destruct seg. simpl in Ha. subst. reflexivity. }
              rewrite Hseg'. rewrite list_insert_id by (rewrite Hp; exact Hseg).
              rewrite pool_eta. rewrite <- app_assoc. reflexivity.
    + (* occupied: one attempt, then the next slot *)
      set (w1 := mkWorld (pool w) (spurious w) (trace w ++ [claim_cas idx false false])).
      destruct (IH (k + 1) w1) as [evs [res [o' [Hscan Hrun]]]];
        [exact Hp | lia | lia |].
      exists (claim_cas idx false false :: evs), res, o'. split.
      * apply scan_occupied; try assumption.
        unfold occupied_at. fold idx. rewrite Hseg. simpl. rewrite Ha. reflexivity.
      * change (for_count (S r) k (probe_step args (size p0) (search_start p0)) w)
          with (bind (probe_step args (size p0) (search_start p0) k)
                  (fun c => match c with
                            | Next => for_count r (k + 1)
                                        (probe_step args (size p0) (search_start p0))
                            | Break => ret None
                            | Return a => ret (Some a)
                            end) w).
        assert (Hps : probe_step args (size p0) (search_start p0) k w =
                      (Returned Next, w1)).
        { rewrite Hstep. unfold bind.
          rewrite (retry_loop_occupied args (size p0) idx w seg 2 0 Hsw Ha).
          reflexivity. }
        rewrite (bind_returned _ _ _ _ _ Hps).
        rewrite Hrun.
        apply (scan_outcome_shift args w w1 [claim_cas idx false false]); reflexivity.
Qed.

(** ** The whole of [allocate_fast] *)

Lemma allocate_fast_scan (args : Args) (w : World) :
  pool_wf (pool w) ->
  0 < capacity w ->
  exists evs res o',
    claim_scan (pool w) (search_start (pool w)) 0 (spurious w) evs res o' /\
    allocate_fast args w = allocation_outcome args w (hint_load w :: evs) res o'.
Proof.
  intros Hwf Hpos. unfold capacity in Hpos.
  set (w1 := mkWorld (pool w) (spurious w) (trace w ++ [hint_load w])).
  destruct (probe_loop args (pool w) Hwf Hpos (Z.to_nat (size (pool w))) 0 w1)
    as [evs [res [o' [Hscan Hrun]]]]; [reflexivity | lia | lia |].
  exists evs, res, o'. split; [exact Hscan|].
  rewrite allocate_fast_pieces.
  unfold bind at 1. unfold get_pool at 1.
  unfold bind at 1.
  assert (Hload : search_start_load memory_order_relaxed w =
                  (Returned (search_start (pool w)), w1)) by reflexivity.
  rewrite Hload. unfold bind at 1. unfold for_range.
  replace (size (pool w) - 0) with (size (pool w)) by lia.
  rewrite Hrun.
  unfold allocation_outcome.
  rewrite (scan_outcome_shift args w w1 [hint_load w] evs res o') by reflexivity.
  simpl. destruct (scan_outcome args w (hint_load w :: evs) res o') as [[[p|]| | |] w2] eqn:Hso;
    unfold scan_outcome in Hso; destruct res as [i|]; try destruct (T_ctor args);
    inversion Hso; subst; reflexivity.
Qed.

Lemma allocate_fast_empty (args : Args) (w : World) :
  capacity w = 0 ->
  allocate_fast args w =
  (Returned nullptr, mkWorld (pool w) (spurious w) (trace w ++ [hint_load w])).
Proof.
  intros H0. rewrite allocate_fast_pieces. unfold capacity in H0.
  unfold bind at 1. unfold get_pool at 1. unfold bind at 1.
  assert (Hload : search_start_load memory_order_relaxed w =
                  (Returned (search_start (pool w)),
                   mkWorld (pool w) (spurious w) (trace w ++ [hint_load w])))
    by reflexivity.
  rewrite Hload. unfold for_range. rewrite H0. reflexivity.
Qed.

(** ** What a scan tells *)

(** Induction on a scan: all slots probed; an occupied slot passed; a free
    slot given up; a free slot claimed. *)
Ltac scan_induction :=
  induction 1 as [k o Hk | k o evs r o' Hk Hocc Hs IH | k o evs r o' Hk Hfree Hs IH
                 | k m o Hk Hfree Hm Hh].

Lemma scan_claimed_free (p : LockFreeMemoryPool) (start k : Z) (o o' : list bool)
    (evs : list Event) (res : option Z) :
  claim_scan p start k o evs res o' ->
  forall i, res = Some i ->
  exists j, k <= j < size p /\ i = probe start (size p) j /\ free_at p i.
Proof.
  scan_induction; intros i Hi.
  - discriminate.
  - destruct (IH i Hi) as [j [Hj [Hij Hf]]]. exists j. split; [lia | auto].
  - destruct (IH i Hi) as [j [Hj [Hij Hf]]]. exists j. split; [lia | auto].
  - inversion Hi; subst. exists k. split; [lia | auto].
Qed.

Lemma scan_start_nonneg (p : LockFreeMemoryPool) (start k : Z) (o o' : list bool)
    (evs : list Event) (res : option Z) :
  claim_scan p start k o evs res o' -> k <= size p.
Proof. induction 1; lia. Qed.

Lemma cas_reliable_tail (b : bool) (o : list bool) :
  cas_reliable (b :: o) = true -> cas_reliable o = true.
Proof. simpl. intros H. apply andb_true_iff in H. tauto. Qed.

Lemma cas_reliable_app_true (m : nat) (o : list bool) :
  cas_reliable (replicate m true ++ o) = true -> cas_reliable o = true.
Proof.
  induction m as [|m IH]; simpl; [tauto|].
  intros H. apply andb_true_iff in H. tauto.
Qed.

Lemma cas_reliable_tl (o : list bool) :
  cas_reliable o = true -> cas_reliable (tail o) = true.
Proof. destruct o as [|b o]; [tauto | apply cas_reliable_tail]. Qed.

(** Under a reliable schedule a scan passes occupied slots only. *)
Lemma scan_reliable (p : LockFreeMemoryPool) (start k : Z) (o o' : list bool)
    (evs : list Event) (res : option Z) :
  claim_scan p start k o evs res o' ->
  cas_reliable o = true ->
  cas_reliable o' = true /\
  (res = None -> forall j, k <= j < size p -> occupied_at p (probe start (size p) j)).
Proof.
  scan_induction; intros Hrel.
  - split; [exact Hrel|]. intros _ j Hj. lia.
  - destruct (IH Hrel) as [Hrel' Hall]. split; [exact Hrel'|].
    intros Hr j Hj. destruct (Z.eq_dec j k) as [->|Hne]; [exact Hocc|].
    apply Hall; [exact Hr | lia].
  - exfalso. simpl in Hrel. discriminate.
  - split; [|discriminate].
    apply cas_reliable_tl. eapply cas_reliable_app_true. exact Hrel.
Qed.

(** A scan over occupied slots claims nothing and uses none of the schedule. *)
Lemma scan_all_occupied (p : LockFreeMemoryPool) (start k : Z) (o o' : list bool)
    (evs : list Event) (res : option Z) :
  claim_scan p start k o evs res o' ->
  (forall j, k <= j < size p -> occupied_at p (probe start (size p) j)) ->
  res = None /\ o' = o.
Proof.
  scan_induction; intros Hall.
  - split; reflexivity.
  - apply IH. intros j Hj. apply Hall. lia.
  - exfalso. specialize (Hall k ltac:(lia)). unfold free_at, occupied_at in *. congruence.
  - exfalso. specialize (Hall k ltac:(lia)). unfold free_at, occupied_at in *. congruence.
Qed.

(** Every access of a scan is a compare-exchange with the orders of the
    claim. *)
Lemma scan_orders (p : LockFreeMemoryPool) (start k : Z) (o o' : list bool)
    (evs : list Event) (res : option Z) :
  claim_scan p start k o evs res o' -> forallb order_ok evs = true.
Proof.
  scan_induction.
  - reflexivity.
  - simpl. exact IH.
  - rewrite forallb_app, IH. reflexivity.
  - rewrite forallb_app. simpl. rewrite andb_true_r.
    induction m as [|m IHm]; [reflexivity|]. simpl. apply IHm. lia.
Qed.

(** ** The outcomes of an allocation, in short *)

Lemma allocate_fast_cases (args : Args) (w : World) :
  pool_wf (pool w) ->
  (exists o' t', allocate_fast args w = (Returned nullptr, mkWorld (pool w) o' t'))
  \/ (exists o' t',
        T_ctor args = None /\
        allocate_fast args w = (Thrown constructor_failure, mkWorld (pool w) o' t'))
  \/ (exists i v o' t',
        T_ctor args = Some v /\
        0 <= i < size (pool w) /\
        free_at (pool w) i /\
        allocate_fast args w =
        (Returned (slot_ptr i), mkWorld (pool_after_claim (pool w) i v) o' t')).
Proof.
  intros Hwf.
  destruct (Z.eq_dec (capacity w) 0) as [H0|Hn].
  - left. rewrite allocate_fast_empty by exact H0. eauto.
  - assert (Hpos : 0 < capacity w) by (unfold capacity, size in *; lia).
    destruct (allocate_fast_scan args w Hwf Hpos) as [evs [res [o' [Hscan Ha]]]].
    rewrite Ha. unfold allocation_outcome, scan_outcome.
    destruct res as [i|].
    + destruct (scan_claimed_free _ _ _ _ _ _ _ Hscan i eq_refl) as [j [Hj [Hij Hf]]].
      assert (Hi : 0 <= i < size (pool w)) by (subst i; apply probe_range; exact Hpos).
      destruct (T_ctor args) as [v|] eqn:Hc.
      * right. right. exists i, v. eauto 10.
      * right. left. eauto.
    + left. eauto.
Qed.

Lemma allocate_safe_of_fast (args : Args) (w : World) :
  allocate_safe args w =
  match allocate_fast args w with
  | (Returned p, w') =>
      (Returned (if is_null p then unique_ptr_null
                 else mk_unique_ptr p (mkPoolDeleter true)), w')
  | (Thrown _, w') => (Returned unique_ptr_null, w')
  | (Fault, w') => (Fault, w')
  | (Aborted, w') => (Aborted, w')
  end.
Proof.
  unfold allocate_safe, try_catch, bind.
  destruct (allocate_fast args w) as [[p| | |] w']; try reflexivity.
  destruct p; reflexivity.
Qed.

(** ** Release *)

Lemma in_array (p : LockFreeMemoryPool) (idx : Z) :
  0 <= idx < size p -> is_Some (segments p !! Z.to_nat idx).
Proof. intros H. apply lookup_lt_is_Some. unfold size in H. lia. Qed.

Lemma past_array (p : LockFreeMemoryPool) (idx : Z) :
  size p <= idx -> segments p !! Z.to_nat idx = None.
Proof. intros H. apply lookup_ge_None_2. unfold size in H. lia. Qed.

Lemma deallocate_impl_safe_eq (off : Z) (w : World) :
  is_Some (segments (pool w) !! Z.to_nat (index_of off)) ->
  deallocate_impl_safe (slot_ptr off) w =
  (Returned true,
   mkWorld (mkPool (alter (set_available true) (Z.to_nat (index_of off))
                      (segments (pool w)))
                   (search_start (pool w)))
           (spurious w) (trace w ++ [release_store (index_of off)])).
Proof.
  intros [seg Hseg].
  unfold deallocate_impl_safe, segment_index, available_store, bind, ret, get_pool,
    emit, put_pool.
  simpl. rewrite Hseg. reflexivity.
Qed.

Lemma deallocate_impl_safe_wild (off : Z) (w : World) :
  segments (pool w) !! Z.to_nat (index_of off) = None ->
  deallocate_impl_safe (slot_ptr off) w =
  (Fault,
   mkWorld (pool w) (spurious w) (trace w ++ [release_store (index_of off)])).
Proof.
  intros Hnone.
  unfold deallocate_impl_safe, segment_index, available_store, bind, ret, get_pool,
    emit, put_pool.
  simpl. rewrite Hnone. reflexivity.
Qed.

Lemma SAFE_CALL_deallocate (off : Z) (w : World) :
  is_Some (segments (pool w) !! Z.to_nat (index_of off)) ->
  SAFE_CALL (deallocate_impl_safe (slot_ptr off)) w =
  (Returned tt, snd (deallocate_impl_safe (slot_ptr off) w)).
Proof.
  intros Hin. unfold SAFE_CALL, bind. rewrite deallocate_impl_safe_eq by exact Hin.
  destruct NDEBUG; reflexivity.
Qed.

Lemma destroy_eq (off : Z) (w : World) :
  is_Some (segments (pool w) !! Z.to_nat (index_of off)) ->
  destroy (slot_ptr off) w =
  (Returned tt,
   mkWorld (mkPool (alter (set_memory None) (Z.to_nat (index_of off))
                      (segments (pool w)))
                   (search_start (pool w)))
           (spurious w) (trace w ++ [EvDestroy (index_of off)])).
Proof.
  intros [seg Hseg]. unfold destroy, bind, get_pool, emit, put_pool. simpl.
  rewrite Hseg. reflexivity.
Qed.

Lemma destroy_wild (off : Z) (w : World) :
  segments (pool w) !! Z.to_nat (index_of off) = None ->
  destroy (slot_ptr off) w =
  (Fault, mkWorld (pool w) (spurious w) (trace w ++ [EvDestroy (index_of off)])).
Proof.
  intros Hnone. unfold destroy, bind, get_pool, emit, put_pool. simpl.
  rewrite Hnone. reflexivity.
Qed.

(** The release of a slot of the pool. *)
Lemma deallocate_fast_slot (off : Z) (w : World) :
  is_Some (segments (pool w) !! Z.to_nat (index_of off)) ->
  deallocate_fast (slot_ptr off) w =
  (Returned tt,
   mkWorld (released_pool (pool w) (index_of off)) (spurious w)
           (trace w ++ [EvDestroy (index_of off); release_store (index_of off)])).
Proof.
  intros Hin. unfold deallocate_fast. cbn [is_null]. unfold bind at 1.
  rewrite destroy_eq by exact Hin.
  assert (Hin' : is_Some
            (segments (pool (mkWorld
               (mkPool (alter (set_memory None) (Z.to_nat (index_of off))
                          (segments (pool w)))
                       (search_start (pool w)))
               (spurious w) (trace w ++ [EvDestroy (index_of off)])))
             !! Z.to_nat (index_of off))).
  { simpl. apply lookup_lt_is_Some. rewrite length_alter.
    apply lookup_lt_is_Some. exact Hin. }
  rewrite SAFE_CALL_deallocate by exact Hin'.
  rewrite deallocate_impl_safe_eq by exact Hin'.
  simpl. rewrite <- app_assoc. reflexivity.
Qed.

(** The release of an address outside the array, and of an address inside a
    segment: no defined result, and the pool as it was. *)
Lemma deallocate_fast_wild (off : Z) (w : World) :
  segments (pool w) !! Z.to_nat (index_of off) = None ->
  deallocate_fast (slot_ptr off) w =
  (Fault, mkWorld (pool w) (spurious w) (trace w ++ [EvDestroy (index_of off)])).
Proof.
  intros Hnone. unfold deallocate_fast. cbn [is_null]. unfold bind.
  rewrite destroy_wild by exact Hnone. reflexivity.
Qed.

Lemma deallocate_fast_inner (off delta : Z) (w : World) :
  deallocate_fast (inner_ptr off delta) w = (Fault, w).
Proof. reflexivity. Qed.

Lemma PoolDeleter_call_slot (off : Z) (w : World) :
  PoolDeleter_call (mkPoolDeleter true) (slot_ptr off) w =
  deallocate_fast (slot_ptr off) w.
Proof. reflexivity. Qed.

Lemma unique_ptr_dtor_eq (h : unique_ptr_type) (w : World) :
  unique_ptr_dtor h w =
  if deleter_pool (get_deleter h) then deallocate_fast (get h) w
  else (Returned tt, w).
Proof. destruct h as [[|off|off delta] [[|]]]; reflexivity. Qed.

Lemma unique_ptr_dtor_cases (h : unique_ptr_type) (w : World) :
  (forall idx, slot_released (OpDropHandle h) = Some idx ->
     is_Some (segments (pool w) !! Z.to_nat idx)) ->
  (forall off delta, get h = inner_ptr off delta -> deleter_pool (get_deleter h) = false) ->
  unique_ptr_dtor h w =
  match slot_released (OpDropHandle h) with
  | Some idx =>
      (Returned tt,
       mkWorld (released_pool (pool w) idx) (spurious w)
               (trace w ++ [EvDestroy idx; release_store idx]))
  | None => (Returned tt, w)
  end.
Proof.
  intros Hin Hinner. destruct h as [[|off|off delta] [[|]]]; try reflexivity.
  - simpl in *. apply deallocate_fast_slot. apply Hin. reflexivity.
  - specialize (Hinner off delta eq_refl). discriminate.
Qed.

(** What a release does to the pool: it sets the slot free that the pointer
    is the address of, or it leaves the pool as it was (the null pointer, a
    deleter without a pool, or a pointer to no slot of the pool, with no
    defined result). *)
Lemma release_cases (o : Op) (w : World) :
  is_allocation o = false ->
  o <> OpStats ->
  (exists idx,
      slot_released o = Some idx /\
      0 <= idx < size (pool w) /\
      perform o w =
      (Returned ResUnit,
       mkWorld (released_pool (pool w) idx) (spurious w)
               (trace w ++ [EvDestroy idx; release_store idx])))
  \/
  (pool (snd (perform o w)) = pool w /\
   spurious (snd (perform o w)) = spurious w /\
   (fst (perform o w) = Returned ResUnit \/ fst (perform o w) = Fault) /\
   (forall idx, slot_released o = Some idx -> size (pool w) <= idx)).
Proof.
  intros Hal Hst.
  assert (Hd : forall elem,
            (exists idx,
                elem = slot_ptr idx /\ 0 <= index_of idx < size (pool w) /\
                deallocate_fast elem w =
                (Returned tt,
                 mkWorld (released_pool (pool w) (index_of idx)) (spurious w)
                   (trace w ++ [EvDestroy (index_of idx); release_store (index_of idx)])))
            \/
            (pool (snd (deallocate_fast elem w)) = pool w /\
             spurious (snd (deallocate_fast elem w)) = spurious w /\
             (fst (deallocate_fast elem w) = Returned tt \/
              fst (deallocate_fast elem w) = Fault) /\
             (forall off, elem = slot_ptr off -> size (pool w) <= index_of off))).
  { intros [|off|off delta].
    - right. repeat split; try (left; reflexivity). intros; discriminate.
    - destruct (Z_lt_le_dec (index_of off) (size (pool w))) as [Hlt|Hge].
      + left. exists off. split; [reflexivity|].
        pose proof (index_of_nonneg off). split; [lia|].
        apply deallocate_fast_slot. apply in_array. lia.
      + right. rewrite deallocate_fast_wild by (apply past_array; exact Hge).
        simpl. repeat split; try (right; reflexivity).
        intros off' Ho. inversion Ho; subst. exact Hge.
    - right. rewrite deallocate_fast_inner.
      repeat split; try (right; reflexivity). intros; discriminate. }
  destruct o as [args | args | elem | h |]; try discriminate; try congruence.
  - destruct (Hd elem) as [[idx [-> [Hi Hr]]] | [Hp [Hs [Hr Hout]]]].
    + left. exists (index_of idx). split; [reflexivity|]. split; [exact Hi|].
      unfold perform, bind. rewrite Hr. reflexivity.
    + right. unfold perform, bind.
      destruct (deallocate_fast elem w) as [[[]| | |] w'] eqn:He; simpl in *;
        try (destruct Hr; discriminate);
        (split; [exact Hp|]); (split; [exact Hs|]);
        (split; [auto|]);
        intros idx Hidx; destruct elem as [|off|off delta]; try discriminate;
        inversion Hidx; subst; apply Hout; reflexivity.
  - unfold perform, bind. rewrite unique_ptr_dtor_eq.
    destruct h as [ptr [[|]]]; simpl.
    + destruct (Hd ptr) as [[idx [-> [Hi Hr]]] | [Hp [Hs [Hr Hout]]]].
      * left. exists (index_of idx). split; [reflexivity|]. split; [exact Hi|].
        rewrite Hr. reflexivity.
      * right.
        destruct (deallocate_fast ptr w) as [[[]| | |] w'] eqn:He; simpl in *;
          try (destruct Hr; discriminate);
          (split; [exact Hp|]); (split; [exact Hs|]);
          (split; [auto|]);
          intros idx Hidx; destruct ptr as [|off|off delta]; try discriminate;
          inversion Hidx; subst; apply Hout; reflexivity.
    + right. repeat split; try (left; reflexivity).
      intros idx Hidx. destruct ptr; discriminate.
Qed.

(** ** The snapshot *)

Lemma count_true_cons (b : bool) (l : list bool) :
  count_true (b :: l) = ((if b then 1 else 0) + count_true l)%nat.
Proof. unfold count_true. destruct b; reflexivity. Qed.

Lemma count_false_cons (b : bool) (l : list bool) :
  count_false (b :: l) = ((if b then 0 else 1) + count_false l)%nat.
Proof. unfold count_false. destruct b; reflexivity. Qed.

Lemma count_true_le (l : list bool) : (count_true l <= length l)%nat.
Proof.
  induction l as [|b l IH]; [reflexivity|].
  rewrite count_true_cons. destruct b; simpl; lia.
Qed.

Lemma count_true_false (l : list bool) :
  (count_true l + count_false l = length l)%nat.
Proof.
  induction l as [|b l IH]; [reflexivity|].
  rewrite count_true_cons, count_false_cons. destruct b; simpl; lia.
Qed.

Lemma count_free_loop (segs : list Segment) :
  forall (i c : Z) (w : World),
  0 <= i ->
  drop (Z.to_nat i) (segments (pool w)) = segs ->
  0 <= c ->
  c + Z.of_nat (length segs) < 2 ^ 64 ->
  count_free segs i c w =
  (Returned (c + Z.of_nat (count_true (available <$> segs))),
   mkWorld (pool w) (spurious w) (trace w ++ flag_loads i segs)).
Proof.
  induction segs as [|s rest IH]; intros i c w Hi Hd Hc Hb.
  - simpl. unfold ret, flag_loads. simpl. rewrite app_nil_r, world_eta.
    rewrite Z.add_0_r. reflexivity.
  - assert (Hs : segments (pool w) !! Z.to_nat i = Some s).
    { rewrite <- (Nat.add_0_r (Z.to_nat i)). rewrite <- lookup_drop. rewrite Hd.
      reflexivity. }
    simpl length in Hb. pose proof (size_t_wrap_range (c + 1)) as Hw.
    simpl count_free. unfold bind at 1.
    assert (Hl : available_load i memory_order_relaxed w =
                 (Returned (available s),
                  mkWorld (pool w) (spurious w)
                    (trace w ++ [EvLoadFlag i memory_order_relaxed (available s)]))).
    { unfold available_load, bind, get_pool. rewrite Hs. reflexivity. }
    rewrite Hl.
    rewrite IH.
    + f_equal.
      * f_equal. rewrite fmap_cons, count_true_cons.
        destruct (available s).
        -- rewrite size_t_wrap_small by lia. lia.
        -- lia.
      * simpl. f_equal. rewrite <- app_assoc. f_equal. unfold flag_loads. simpl.
        f_equal; [f_equal; lia|].
        apply imap_ext. intros j x _. simpl. f_equal. lia.
    + lia.
    + simpl. replace (Z.to_nat (i + 1)) with (S (Z.to_nat i)) by lia.
      pose proof (drop_S _ _ _ Hs) as Hds. rewrite Hd in Hds. congruence.
    + destruct (available s); [rewrite size_t_wrap_small; lia | lia].
    + destruct (available s); [rewrite size_t_wrap_small; lia | lia].
Qed.

Lemma get_pool_stats_impl_eq (w : World) :
  size (pool w) < 2 ^ 64 ->
  get_pool_stats_impl w =
  (Returned
     (let total := size (pool w) in
      let free := Z.of_nat (free_slots (pool w)) in
      mkPoolStats total free (total - free)
        (if 0 <? total
         then double_mul (double_div (double_of_size_t (total - free))
                                     (double_of_size_t total)) double_100
         else double_0)),
   mkWorld (pool w) (spurious w) (trace w ++ flag_loads 0 (segments (pool w)))).
Proof.
  intros Hb. unfold get_pool_stats_impl. unfold bind at 1. unfold get_pool at 1.
  unfold get_segments_for_stats. unfold bind.
  rewrite (count_free_loop (segments (pool w)) 0 0 w); [| lia | reflexivity | lia |
    unfold size in Hb; lia].
  unfold ret. simpl.
  assert (Hle : (free_slots (pool w) <= length (segments (pool w)))%nat).
  { unfold free_slots, flags. etransitivity; [apply count_true_le|].
    rewrite length_fmap. reflexivity. }
  unfold free_slots, flags in *. unfold size in *.
  rewrite size_t_wrap_small by lia. reflexivity.
Qed.

(** ** How an operation changes the pool *)

Lemma size_after_claim (p : LockFreeMemoryPool) (i : Z) (v : T) :
  size (pool_after_claim p i v) = size p.
Proof. unfold size, pool_after_claim. simpl. rewrite length_insert. reflexivity. Qed.

Lemma size_released (p : LockFreeMemoryPool) (idx : Z) :
  size (released_pool p idx) = size p.
Proof. unfold size, released_pool. simpl. rewrite !length_alter. reflexivity. Qed.

Lemma wf_after_claim (p : LockFreeMemoryPool) (i : Z) (v : T) :
  pool_wf p -> 0 < size p -> pool_wf (pool_after_claim p i v).
Proof.
  intros [Hmax Hh] Hpos. unfold pool_wf. rewrite size_after_claim.
  split; [exact Hmax|]. unfold pool_after_claim. simpl.
  pose proof (Z.mod_pos_bound (i + 1) (size p) Hpos). lia.
Qed.

Lemma wf_released (p : LockFreeMemoryPool) (idx : Z) :
  pool_wf p -> pool_wf (released_pool p idx).
Proof.
  intros [Hmax Hh]. unfold pool_wf. rewrite size_released. split; assumption.
Qed.

Lemma slot_after_claim_other (p : LockFreeMemoryPool) (i j : Z) (v : T) :
  0 <= i -> 0 <= j -> i <> j ->
  slot (pool_after_claim p i v) j = slot p j.
Proof.
  intros Hi Hj Hne. unfold slot, pool_after_claim. simpl.
  apply list_lookup_insert_ne. lia.
Qed.

Lemma slot_after_claim_same (p : LockFreeMemoryPool) (i : Z) (v : T) :
  0 <= i < size p ->
  slot (pool_after_claim p i v) i = Some (mkSegment (Some v) false).
Proof.
  intros Hi. unfold slot, pool_after_claim. simpl.
  apply list_lookup_insert_eq. unfold size in Hi. lia.
Qed.

Lemma slot_released_other (p : LockFreeMemoryPool) (idx j : Z) :
  0 <= idx -> 0 <= j -> idx <> j ->
  slot (released_pool p idx) j = slot p j.
Proof.
  intros Hi Hj Hne. unfold slot, released_pool. simpl.
  rewrite !list_lookup_alter_ne by lia. reflexivity.
Qed.

Lemma perform_effect (o : Op) (w : World) :
  pool_wf (pool w) ->
  effect o (pool w) (fst (perform o w)) (pool (snd (perform o w))).
Proof.
  intros Hwf. destruct o as [args | args | elem | h |].
  - (* allocate_fast *)
    unfold perform, bind.
    destruct (allocate_fast_cases args w Hwf)
      as [[o' [t' Ha]] | [[o' [t' [Hc Ha]]] | [i [v [o' [t' [Hc [Hi [Hf Ha]]]]]]]]];
      rewrite Ha; simpl.
    + apply effect_none; reflexivity.
    + apply effect_none; reflexivity.
    + apply (effect_claim _ _ _ _ i v); auto.
  - (* allocate_safe *)
    unfold perform, bind. rewrite allocate_safe_of_fast.
    destruct (allocate_fast_cases args w Hwf)
      as [[o' [t' Ha]] | [[o' [t' [Hc Ha]]] | [i [v [o' [t' [Hc [Hi [Hf Ha]]]]]]]]];
      rewrite Ha; simpl.
    + apply effect_none; reflexivity.
    + apply effect_none; reflexivity.
    + apply (effect_claim _ _ _ _ i v); auto.
  - (* deallocate_fast *)
    destruct (release_cases (OpDeallocateFast elem) w eq_refl ltac:(discriminate))
      as [[idx [Hr [Hi He]]] | [Hp [_ [Hr _]]]].
    + rewrite He. simpl.
      apply (effect_release _ _ _ _ idx); [exact Hr | lia | reflexivity | reflexivity].
    + apply effect_none; [exact Hp|]. destruct Hr as [-> | ->]; reflexivity.
  - (* the handle goes out of scope *)
    destruct (release_cases (OpDropHandle h) w eq_refl ltac:(discriminate))
      as [[idx [Hr [Hi He]]] | [Hp [_ [Hr _]]]].
    + rewrite He. simpl.
      apply (effect_release _ _ _ _ idx); [exact Hr | lia | reflexivity | reflexivity].
    + apply effect_none; [exact Hp|]. destruct Hr as [-> | ->]; reflexivity.
  - (* the snapshot *)
    unfold perform, bind, get_pool_stats.
    rewrite get_pool_stats_impl_eq.
    + apply effect_none; reflexivity.
    + destruct Hwf as [Hmax _]. unfold vector_max_size in Hmax. lia.
Qed.

Lemma effect_wf (o : Op) (p p' : LockFreeMemoryPool) (r : Outcome Result) :
  effect o p r p' -> pool_wf p -> pool_wf p'.
Proof.
  intros [-> _ | i v _ Hi _ -> _ | idx _ _ -> _] Hwf.
  - exact Hwf.
  - apply wf_after_claim; [exact Hwf | lia].
  - apply wf_released. exact Hwf.
Qed.

Lemma effect_size (o : Op) (p p' : LockFreeMemoryPool) (r : Outcome Result) :
  effect o p r p' -> size p' = size p.
Proof.
  intros [-> _ | i v _ Hi _ -> _ | idx _ _ -> _].
  - reflexivity.
  - apply size_after_claim.
  - apply size_released.
Qed.

(** A slot that is occupied stays so, and is handed to nobody, through
    every operation that does not release it. *)
Lemma effect_occupied (o : Op) (p p' : LockFreeMemoryPool) (r : Outcome Result) (i : Z) :
  effect o p r p' ->
  0 <= i ->
  occupied_at p i ->
  slot_released o <> Some i ->
  occupied_at p' i /\ slot_handed r <> Some i.
Proof.
  intros [-> Hh | j v _ Hj Hf -> Hh | idx Hr Hidx -> Hh] Hi Hocc Hrel.
  - split; [exact Hocc | congruence].
  - assert (Hne : j <> i).
    { intros ->. unfold free_at, occupied_at in *. congruence. }
    split; [|congruence].
    unfold occupied_at. rewrite slot_after_claim_other by lia. exact Hocc.
  - assert (Hne : idx <> i) by congruence.
    split; [|congruence].
    unfold occupied_at. rewrite slot_released_other by lia. exact Hocc.
Qed.

(** The slot an allocation hands out is occupied afterwards. *)
Lemma effect_handed (o : Op) (p p' : LockFreeMemoryPool) (r : Outcome Result) (i : Z) :
  effect o p r p' ->
  slot_handed r = Some i ->
  0 <= i < size p /\ free_at p i /\ occupied_at p' i.
Proof.
  intros [-> Hh | j v _ Hj Hf -> Hh | idx Hr Hidx -> Hh] Hi; try congruence.
  assert (j = i) by congruence. subst j.
  split; [exact Hj|]. split; [exact Hf|].
  unfold occupied_at. rewrite slot_after_claim_same by exact Hj. reflexivity.
Qed.

(** ** Sequences of operations *)

Lemma run_cons (o : Op) (ops : list Op) (w : World) :
  run (o :: ops) w =
  (fst (perform o w) :: fst (run ops (snd (perform o w))),
   snd (run ops (snd (perform o w)))).
Proof.
  simpl. destruct (perform o w) as [r w1]. simpl.
  destruct (run ops w1) as [rs w2]. reflexivity.
Qed.

Lemma run_wf (ops : list Op) :
  forall w, pool_wf (pool w) -> pool_wf (pool (snd (run ops w))).
Proof.
  induction ops as [|o ops IH]; intros w Hwf; [exact Hwf|].
  rewrite run_cons. simpl. apply IH.
  eapply effect_wf; [apply perform_effect|]; exact Hwf.
Qed.

Lemma run_capacity (ops : list Op) :
  forall w, pool_wf (pool w) -> capacity (snd (run ops w)) = capacity w.
Proof.
  induction ops as [|o ops IH]; intros w Hwf; [reflexivity|].
  rewrite run_cons. simpl. rewrite IH.
  - unfold capacity. eapply effect_size. apply perform_effect. exact Hwf.
  - eapply effect_wf; [apply perform_effect|]; exact Hwf.
Qed.

Lemma occupied_le_size (p : LockFreeMemoryPool) :
  Z.of_nat (occupied_slots p) <= size p.
Proof.
  unfold occupied_slots, size, flags.
  pose proof (count_true_false (available <$> segments p)) as H.
  rewrite length_fmap in H. lia.
Qed.

Lemma run_occupied (ops : list Op) (i : Z) :
  forall w,
  pool_wf (pool w) ->
  0 <= i ->
  occupied_at (pool w) i ->
  Forall (fun o => slot_released o <> Some i) ops ->
  Forall (fun r => slot_handed r <> Some i) (fst (run ops w)) /\
  occupied_at (pool (snd (run ops w))) i.
Proof.
  induction ops as [|o ops IH]; intros w Hwf Hi Hocc Hall.
  - split; [constructor | exact Hocc].
  - rewrite run_cons. simpl.
    apply Forall_cons in Hall. destruct Hall as [Ho Hall].
    pose proof (perform_effect o w Hwf) as He.
    destruct (effect_occupied _ _ _ _ i He Hi Hocc Ho) as [Hocc' Hh].
    destruct (IH (snd (perform o w))) as [Hrs Hfin]; auto.
    { eapply effect_wf; eassumption. }
Qed.

(** ** Counting slots *)

Lemma flags_lookup (p : LockFreeMemoryPool) (i : Z) :
  flags p !! Z.to_nat i = available <$> slot p i.
Proof. unfold flags, slot. apply list_lookup_fmap. Qed.

Lemma flags_after_claim (p : LockFreeMemoryPool) (i : Z) (v : T) :
  flags (pool_after_claim p i v) = <[Z.to_nat i := false]> (flags p).
Proof. unfold flags, pool_after_claim. simpl. apply list_fmap_insert. Qed.

Lemma count_insert_false (l : list bool) (i : nat) :
  l !! i = Some true ->
  count_false (<[i := false]> l) = S (count_false l) /\
  S (count_true (<[i := false]> l)) = count_true l.
Proof.
  revert i. induction l as [|b l IH]; intros [|i] H; simpl in H; try discriminate.
  - inversion H; subst. simpl. rewrite !count_false_cons, !count_true_cons. lia.
  - destruct (IH i H) as [H1 H2]. simpl.
    rewrite !count_false_cons, !count_true_cons. lia.
Qed.

Lemma count_true_zero (l : list bool) (i : nat) :
  count_true l = 0%nat -> (i < length l)%nat -> l !! i = Some false.
Proof.
  revert i. induction l as [|b l IH]; intros i H Hi; simpl in Hi; [lia|].
  rewrite count_true_cons in H. destruct b; [simpl in H; lia|].
  destruct i as [|i]; [reflexivity|]. simpl. apply IH; [exact H | lia].
Qed.

Lemma count_true_pos (l : list bool) :
  (0 < count_true l)%nat -> exists i, l !! i = Some true.
Proof.
  induction l as [|b l IH]; intros H.
  - unfold count_true in H. simpl in H. lia.
  - destruct b; [exists 0%nat; reflexivity|].
    rewrite count_true_cons in H. destruct IH as [i Hi]; [exact H|].
    exists (S i). exact Hi.
Qed.

Lemma free_slots_after_claim (p : LockFreeMemoryPool) (i : Z) (v : T) :
  free_at p i ->
  occupied_slots (pool_after_claim p i v) = S (occupied_slots p) /\
  S (free_slots (pool_after_claim p i v)) = free_slots p.
Proof.
  intros Hf. unfold occupied_slots, free_slots. rewrite flags_after_claim.
  apply count_insert_false. rewrite flags_lookup. exact Hf.
Qed.

Lemma all_occupied (p : LockFreeMemoryPool) (idx : Z) :
  free_slots p = 0%nat -> 0 <= idx < size p -> occupied_at p idx.
Proof.
  intros H0 Hi. unfold occupied_at. rewrite <- flags_lookup.
  apply count_true_zero; [exact H0|].
  unfold flags. rewrite length_fmap. unfold size in Hi. lia.
Qed.

Lemma some_free (p : LockFreeMemoryPool) :
  (0 < free_slots p)%nat -> exists idx, 0 <= idx < size p /\ free_at p idx.
Proof.
  intros H. destruct (count_true_pos _ H) as [i Hi].
  exists (Z.of_nat i). unfold free_at. rewrite <- flags_lookup, Nat2Z.id.
  split; [|exact Hi].
  apply lookup_lt_Some in Hi. unfold flags in Hi. rewrite length_fmap in Hi.
  unfold size. lia.
Qed.

(** Every slot is one of the [size p] slots probed from the hint. *)
Lemma probe_covers (start n idx : Z) :
  0 <= idx < n -> exists j, 0 <= j < n /\ idx = probe start n j.
Proof.
  intros Hi. exists ((idx - start) mod n). split.
  - apply Z.mod_pos_bound. lia.
  - unfold probe. rewrite Zplus_mod_idemp_r.
    replace (start + (idx - start)) with idx by lia.
    symmetry. apply Z.mod_small. exact Hi.
Qed.

(** ** A pool just constructed *)

Lemma foldl_alter_id {A} (f : A -> A) (idxs : list nat) :
  forall l : list A, (forall x, x ∈ l -> f x = x) ->
  foldl (fun acc i => alter f i acc) l idxs = l.
Proof.
  induction idxs as [|i idxs IH]; intros l Hf; [reflexivity|].
  simpl. assert (Ha : alter f i l = l).
  { apply list_eq. intros j. destruct (decide (i = j)) as [->|Hne].
    - rewrite list_lookup_alter_eq. destruct (l !! j) as [x|] eqn:Hx; [|reflexivity].
      simpl. f_equal. apply Hf. eapply list_elem_of_lookup_2. exact Hx.
    - apply list_lookup_alter_ne. exact Hne. }
  rewrite Ha. apply IH. exact Hf.
Qed.

Lemma segments_max_size_range : 0 <= segments_max_size <= vector_max_size.
Proof.
  unfold segments_max_size, vector_max_size. split.
  - apply Z.div_pos; lia.
  - apply Z.div_le_upper_bound; [lia|]. nia.
Qed.

(** The three ways the constructor ends. *)
Lemma LockFreeMemoryPool_ctor_cases (pool_size : Z) :
  0 <= pool_size ->
  (segments_max_size < pool_size /\
   LockFreeMemoryPool_ctor pool_size = Thrown length_error)
  \/ (0 < pool_size <= segments_max_size /\
      operator_new (pool_size * Z.pos sizeof_Segment) = false /\
      LockFreeMemoryPool_ctor pool_size = Thrown bad_alloc)
  \/ (pool_size <= segments_max_size /\
      (pool_size = 0 \/ operator_new (pool_size * Z.pos sizeof_Segment) = true) /\
      LockFreeMemoryPool_ctor pool_size =
      Returned (mkPool (replicate (Z.to_nat pool_size) default_Segment) 0)).
Proof.
  intros H0. unfold LockFreeMemoryPool_ctor.
  destruct (segments_max_size <? pool_size) eqn:E.
  { left. apply Z.ltb_lt in E. split; [exact E | reflexivity]. }
  apply Z.ltb_ge in E. right.
  assert (Hret : forall segs : list Segment,
            segs = replicate (Z.to_nat pool_size) default_Segment ->
            foldl (fun acc i => alter (set_available true) i acc) segs
                  (seq 0 (length segs)) = segs).
  { intros segs ->. apply foldl_alter_id.
    intros x Hx. apply elem_of_replicate in Hx. destruct Hx as [-> _]. reflexivity. }
  destruct (0 <? pool_size) eqn:E0; simpl.
  - apply Z.ltb_lt in E0.
    destruct (operator_new (pool_size * Z.pos sizeof_Segment)) eqn:En; simpl.
    + right. split; [exact E|]. split; [right; reflexivity|].
      rewrite Hret by reflexivity. reflexivity.
    + left. repeat split; try assumption; lia.
  - apply Z.ltb_ge in E0. right. split; [exact E|]. split; [left; lia|].
    rewrite Hret by reflexivity. reflexivity.
Qed.

Lemma LockFreeMemoryPool_ctor_eq (pool_size : Z) :
  0 <= pool_size <= segments_max_size ->
  pool_size = 0 \/ operator_new (pool_size * Z.pos sizeof_Segment) = true ->
  LockFreeMemoryPool_ctor pool_size =
  Returned (mkPool (replicate (Z.to_nat pool_size) default_Segment) 0).
Proof.
  intros H Hnew.
  destruct (LockFreeMemoryPool_ctor_cases pool_size ltac:(lia))
    as [[Hgt _] | [[Hpos [Hno _]] | [_ [_ Hc]]]]; [lia | | exact Hc].
  destruct Hnew as [-> | Hyes]; [lia | congruence].
Qed.

Lemma LockFreeMemoryPool_ctor_inv (pool_size : Z) (p : LockFreeMemoryPool) :
  0 <= pool_size ->
  LockFreeMemoryPool_ctor pool_size = Returned p ->
  p = mkPool (replicate (Z.to_nat pool_size) default_Segment) 0 /\
  pool_size <= segments_max_size.
Proof.
  intros H0 H.
  destruct (LockFreeMemoryPool_ctor_cases pool_size H0)
    as [[_ Hc] | [[_ [_ Hc]] | [Hle [_ Hc]]]]; rewrite Hc in H; try discriminate.
  inversion H. auto.
Qed.

Lemma fresh_world_eq (pool_size : Z) (schedule : list bool) :
  0 <= pool_size <= segments_max_size ->
  pool_size = 0 \/ operator_new (pool_size * Z.pos sizeof_Segment) = true ->
  fresh_world pool_size schedule =
  Returned (mkWorld (mkPool (replicate (Z.to_nat pool_size) default_Segment) 0)
                    schedule []).
Proof.
  intros H Hnew. unfold fresh_world.
  rewrite LockFreeMemoryPool_ctor_eq by assumption. reflexivity.
Qed.

Lemma fresh_world_inv (pool_size : Z) (schedule : list bool) (w : World) :
  0 <= pool_size ->
  fresh_world pool_size schedule = Returned w ->
  w = mkWorld (mkPool (replicate (Z.to_nat pool_size) default_Segment) 0) schedule []
  /\ pool_size <= vector_max_size.
Proof.
  intros H0 H. unfold fresh_world in H.
  destruct (LockFreeMemoryPool_ctor pool_size) as [p| | |] eqn:Hc; try discriminate.
  destruct (LockFreeMemoryPool_ctor_inv pool_size p H0 Hc) as [-> Hle].
  inversion H. split; [reflexivity|].
  pose proof segments_max_size_range. lia.
Qed.

Lemma count_replicate_true (n : nat) :
  count_true (replicate n true) = n /\ count_false (replicate n true) = 0%nat.
Proof.
  induction n as [|n [IH1 IH2]]; [split; reflexivity|]. simpl.
  rewrite count_true_cons, count_false_cons. lia.
Qed.

Lemma fresh_pool_facts (n : nat) :
  let p := mkPool (replicate n default_Segment) 0 in
  size p = Z.of_nat n /\ free_slots p = n /\ occupied_slots p = 0%nat /\
  (Z.of_nat n <= vector_max_size -> pool_wf p).
Proof.
  simpl. unfold size, free_slots, occupied_slots, flags, pool_wf. simpl.
  rewrite fmap_replicate, length_replicate. simpl.
  destruct (count_replicate_true n) as [H1 H2]. rewrite H1, H2.
  repeat split; try reflexivity; unfold size; simpl; rewrite ?length_replicate; lia.
Qed.

(** ** Allocation under a reliable schedule, and on a full pool *)

Lemma allocate_fast_reliable (args : Args) (v : T) (w : World) :
  pool_wf (pool w) ->
  T_ctor args = Some v ->
  cas_reliable (spurious w) = true ->
  (0 < free_slots (pool w))%nat ->
  exists i o' t',
    0 <= i < size (pool w) /\
    free_at (pool w) i /\
    cas_reliable o' = true /\
    allocate_fast args w =
    (Returned (slot_ptr i), mkWorld (pool_after_claim (pool w) i v) o' t').
Proof.
  intros Hwf Hc Hrel Hfree.
  destruct (some_free _ Hfree) as [idx [Hidx Hf]].
  assert (Hpos : 0 < capacity w) by (unfold capacity; lia).
  destruct (allocate_fast_scan args w Hwf Hpos) as [evs [res [o' [Hscan Ha]]]].
  destruct (scan_reliable _ _ _ _ _ _ _ Hscan Hrel) as [Hrel' Hnone].
  destruct res as [i|].
  - destruct (scan_claimed_free _ _ _ _ _ _ _ Hscan i eq_refl) as [j [Hj [Hij Hfi]]].
    exists i, o'. eexists. split; [subst i; apply probe_range; exact Hpos|].
    split; [exact Hfi|]. split; [exact Hrel'|].
    rewrite Ha. unfold allocation_outcome, scan_outcome. rewrite Hc. reflexivity.
  - exfalso.
    destruct (probe_covers (search_start (pool w)) (size (pool w)) idx Hidx)
      as [j [Hj Hij]].
    specialize (Hnone eq_refl j Hj). rewrite <- Hij in Hnone.
    unfold free_at, occupied_at in *. congruence.
Qed.

Lemma allocate_fast_full (args : Args) (w : World) :
  pool_wf (pool w) ->
  free_slots (pool w) = 0%nat ->
  exists t',
    allocate_fast args w = (Returned nullptr, mkWorld (pool w) (spurious w) t').
Proof.
  intros Hwf H0.
  destruct (Z.eq_dec (capacity w) 0) as [Hc|Hn].
  - rewrite allocate_fast_empty by exact Hc. eauto.
  - assert (Hpos : 0 < capacity w) by (unfold capacity, size in *; lia).
    destruct (allocate_fast_scan args w Hwf Hpos) as [evs [res [o' [Hscan Ha]]]].
    destruct (scan_all_occupied _ _ _ _ _ _ _ Hscan) as [-> ->].
    + intros j Hj. apply all_occupied; [exact H0|]. apply probe_range. exact Hpos.
    + rewrite Ha. unfold allocation_outcome, scan_outcome. eauto.
Qed.

Lemma alloc_op_succeeds (o : Op) (w : World) :
  pool_wf (pool w) ->
  constructs o ->
  cas_reliable (spurious w) = true ->
  (0 < free_slots (pool w))%nat ->
  succeeded (fst (perform o w)) = true /\
  S (free_slots (pool (snd (perform o w)))) = free_slots (pool w) /\
  cas_reliable (spurious (snd (perform o w))) = true.
Proof.
  intros Hwf Hc Hrel Hfree.
  destruct o as [args | args | | |]; simpl in Hc; try contradiction;
    destruct (T_ctor args) as [v|] eqn:Hv; try congruence;
    destruct (allocate_fast_reliable args v w Hwf Hv Hrel Hfree)
      as [i [o' [t' [Hi [Hf [Hrel' Ha]]]]]];
    unfold perform, bind; rewrite ?allocate_safe_of_fast; rewrite Ha; simpl;
    (split; [reflexivity|]); (split; [|exact Hrel']);
    apply free_slots_after_claim; exact Hf.
Qed.

Lemma alloc_op_exhausted (o : Op) (w : World) :
  pool_wf (pool w) ->
  is_allocation o = true ->
  free_slots (pool w) = 0%nat ->
  exhausted (fst (perform o w)) = true.
Proof.
  intros Hwf Ho H0.
  destruct o as [args | args | | |]; simpl in Ho; try discriminate;
    destruct (allocate_fast_full args w Hwf H0) as [t' Ha];
    unfold perform, bind; rewrite ?allocate_safe_of_fast; rewrite Ha; reflexivity.
Qed.

Lemma constructs_is_allocation (o : Op) : constructs o -> is_allocation o = true.
Proof. destruct o; simpl; tauto. Qed.

(** As long as slots are free, allocations under a reliable schedule
    succeed one after the other. *)
Lemma run_allocations_succeed (ops : list Op) :
  forall w,
  pool_wf (pool w) ->
  Forall constructs ops ->
  cas_reliable (spurious w) = true ->
  (length ops <= free_slots (pool w))%nat ->
  Forall (fun r => succeeded r = true) (fst (run ops w)) /\
  (free_slots (pool (snd (run ops w))) + length ops = free_slots (pool w))%nat /\
  cas_reliable (spurious (snd (run ops w))) = true.
Proof.
  induction ops as [|o ops IH]; intros w Hwf Hall Hrel Hlen.
  - simpl. repeat split; [constructor | lia | exact Hrel].
  - apply Forall_cons in Hall. destruct Hall as [Ho Hall]. simpl in Hlen.
    destruct (alloc_op_succeeds o w Hwf Ho Hrel) as [Hs [Hf Hrel1]]; [lia|].
    rewrite run_cons. simpl.
    destruct (IH (snd (perform o w))) as [Hrs [Hfree Hrel2]]; auto.
    + eapply effect_wf; [apply perform_effect|]; exact Hwf.
    + lia.
    + repeat split; [constructor; assumption | lia | exact Hrel2].
Qed.

(** Without a release in between, every success occupies one slot more. *)
Lemma run_allocations_count (ops : list Op) :
  forall w,
  pool_wf (pool w) ->
  Forall (fun o => is_allocation o = true) ops ->
  (occupied_slots (pool (snd (run ops w))) =
   occupied_slots (pool w) + count_succeeded (fst (run ops w)))%nat.
Proof.
  induction ops as [|o ops IH]; intros w Hwf Hall.
  - simpl. unfold count_succeeded. simpl. lia.
  - apply Forall_cons in Hall. destruct Hall as [Ho Hall].
    rewrite run_cons. simpl.
    pose proof (perform_effect o w Hwf) as He.
    rewrite IH; [| eapply effect_wf; eassumption | exact Hall].
    unfold count_succeeded. simpl. unfold succeeded at 2.
    destruct He as [-> Hh | i v _ Hi Hf -> Hh | idx Hr _ _ _].
    + rewrite Hh. lia.
    + rewrite Hh. simpl. destruct (free_slots_after_claim (pool w) i v Hf) as [-> _]. lia.
    + destruct o; simpl in Ho, Hr; discriminate.
Qed.

Lemma run_app (ops1 ops2 : list Op) :
  forall w,
  run (ops1 ++ ops2) w =
  (fst (run ops1 w) ++ fst (run ops2 (snd (run ops1 w))),
   snd (run ops2 (snd (run ops1 w)))).
Proof.
  induction ops1 as [|o ops1 IH]; intros w.
  - simpl. destruct (run ops2 w). reflexivity.
  - rewrite <- app_comm_cons. rewrite !run_cons. rewrite IH. reflexivity.
Qed.

Lemma run_length (ops : list Op) :
  forall w, length (fst (run ops w)) = length ops.
Proof.
  induction ops as [|o ops IH]; intros w; [reflexivity|].
  rewrite run_cons. simpl. rewrite IH. reflexivity.
Qed.

(** Under a reliable schedule the slot claimed is the first free one in
    probing order. *)
Lemma scan_reliable_first (p : LockFreeMemoryPool) (start k : Z) (o o' : list bool)
    (evs : list Event) (res : option Z) :
  claim_scan p start k o evs res o' ->
  cas_reliable o = true ->
  forall i, res = Some i ->
  exists k', k <= k' < size p /\ i = probe start (size p) k' /\
             forall j, k <= j < k' -> occupied_at p (probe start (size p) j).
Proof.
  scan_induction; intros Hrel i Hi.
  - discriminate.
  - destruct (IH Hrel i Hi) as [k' [Hk' [Hik Hall]]].
    exists k'. split; [lia|]. split; [exact Hik|].
    intros j Hj. destruct (Z.eq_dec j k) as [->|Hne]; [exact Hocc|].
    apply Hall. lia.
  - exfalso. simpl in Hrel. discriminate.
  - inversion Hi; subst. exists k. split; [lia|]. split; [reflexivity|].
    intros j Hj. lia.
Qed.

(** A scan that claims a slot ends with the successful compare-exchange on
    it. *)
Lemma scan_last_cas (p : LockFreeMemoryPool) (start k : Z) (o o' : list bool)
    (evs : list Event) (res : option Z) :
  claim_scan p start k o evs res o' ->
  forall i, res = Some i -> exists pre, evs = pre ++ [claim_cas i true true].
Proof.
  scan_induction; intros i Hi.
  - discriminate.
  - destruct (IH i Hi) as [pre ->]. eexists (_ :: pre). reflexivity.
  - destruct (IH i Hi) as [pre ->]. eexists (_ ++ pre). rewrite <- app_assoc. reflexivity.
  - inversion Hi; subst. eexists. reflexivity.
Qed.

(** With a free slot and a reliable schedule the scan claims a slot. *)
Lemma scan_finds (args : Args) (w : World) :
  pool_wf (pool w) ->
  cas_reliable (spurious w) = true ->
  (0 < free_slots (pool w))%nat ->
  exists evs i o',
    claim_scan (pool w) (search_start (pool w)) 0 (spurious w) evs (Some i) o' /\
    cas_reliable o' = true /\
    allocate_fast args w = allocation_outcome args w (hint_load w :: evs) (Some i) o'.
Proof.
  intros Hwf Hrel Hfree.
  destruct (some_free _ Hfree) as [idx [Hidx Hf]].
  assert (Hpos : 0 < capacity w) by (unfold capacity; lia).
  destruct (allocate_fast_scan args w Hwf Hpos) as [evs [res [o' [Hscan Ha]]]].
  destruct (scan_reliable _ _ _ _ _ _ _ Hscan Hrel) as [Hrel' Hnone].
  destruct res as [i|].
  - exists evs, i, o'. auto.
  - exfalso.
    destruct (probe_covers (search_start (pool w)) (size (pool w)) idx Hidx)
      as [j [Hj Hij]].
    specialize (Hnone eq_refl j Hj). rewrite <- Hij in Hnone.
    unfold free_at, occupied_at in *. congruence.
Qed.

(** * The properties of the specification *)

(** C1 (claim algorithm).  On a pool of capacity at least 1, an
    allocation whose constructor call succeeds loads the hint as [start] and
    scans the slots [(start + k) mod n] for [k = 0, 1, ...] in this order, as
    [claim_scan] tells: it passes the slots found occupied and the free slots
    given up after [max_spurious_retries] spurious failures, and claims the
    first slot whose compare-exchange succeeds.  If a slot [i] is claimed,
    [i] was free, the object is constructed in it, the hint
    [(i + 1) mod n] is published and the pointer to slot [i] is returned;
    under a schedule without three spurious failures in a row every slot
    probed before [i] was occupied.  If the scan ends after [n] slots with
    nothing claimed, the pool is unchanged and [nullptr] is returned. *)
Theorem allocate_fast_claim (args : Args) (v : T) (w : World) :
  pool_wf (pool w) ->
  1 <= capacity w ->
  T_ctor args = Some v ->
  let p := pool w in
  let start := search_start p in
  let n := size p in
  exists evs res o',
    claim_scan p start 0 (spurious w) evs res o' /\
    match res with
    | Some i =>
        (exists k, 0 <= k < n /\ i = (start + k) mod n /\
                   (cas_reliable (spurious w) = true ->
                    forall j, 0 <= j < k -> occupied_at p ((start + j) mod n))) /\
        free_at p i /\
        allocate_fast args w =
        (Returned (slot_ptr i),
         mkWorld (mkPool (<[Z.to_nat i := mkSegment (Some v) false]> (segments p))
                         ((i + 1) mod n))
                 o'
                 (trace w ++ EvLoadHint memory_order_relaxed start :: evs ++
                    [EvConstruct i true;
                     EvStoreHint memory_order_relaxed ((i + 1) mod n)]))
    | None =>
        (cas_reliable (spurious w) = true ->
         forall k, 0 <= k < n -> occupied_at p ((start + k) mod n)) /\
        allocate_fast args w =
        (Returned nullptr,
         mkWorld p o' (trace w ++ EvLoadHint memory_order_relaxed start :: evs))
    end.
Proof.
  intros Hwf Hcap Hc p start n.
  assert (Hpos : 0 < capacity w) by lia.
  destruct (allocate_fast_scan args w Hwf Hpos) as [evs [res [o' [Hscan Ha]]]].
  exists evs, res, o'. split; [exact Hscan|].
  unfold allocation_outcome, scan_outcome in Ha. rewrite Hc in Ha.
  destruct res as [i|].
  - destruct (scan_claimed_free _ _ _ _ _ _ _ Hscan i eq_refl) as [k [Hk [Hik Hf]]].
    split; [|split; [exact Hf | exact Ha]].
    exists k. split; [exact Hk|]. split; [exact Hik|].
    intros Hrel j Hj.
    destruct (scan_reliable_first _ _ _ _ _ _ _ Hscan Hrel i eq_refl)
      as [k' [Hk' [Hik' Hall]]].
    assert (k' = k).
    { apply (probe_inj (search_start (pool w)) (size (pool w)));
        [lia | lia | congruence]. }
    subst k'. apply Hall. lia.
  - split; [|exact Ha].
    intros Hrel k Hk.
    destruct (scan_reliable _ _ _ _ _ _ _ Hscan Hrel) as [_ Hall].
    apply (Hall eq_refl k). exact Hk.
Qed.

(** C2 (capacity bound, with the provisos that make the count exact).
    On a pool constructed with [n] slots, after every finite sequence of
    operations the capacity is still [n] and at most [n] slots are
    occupied; a sequence of allocations hands out at most [n] slots; and
    [n + 1] allocations in a row whose constructor calls succeed, under a
    schedule that never makes three compare-exchanges in a row fail
    spuriously, give [n] successes followed by one exhaustion. *)
Theorem capacity_bound (n : Z) (schedule : list bool) (w0 : World) :
  0 <= n ->
  fresh_world n schedule = Returned w0 ->
  (forall ops,
      capacity (snd (run ops w0)) = n /\
      Z.of_nat (occupied_slots (pool (snd (run ops w0)))) <= n) /\
  (forall ops,
      Forall (fun o => is_allocation o = true) ops ->
      Z.of_nat (count_succeeded (fst (run ops w0))) <= n) /\
  (forall ops,
      Z.of_nat (length ops) = n + 1 ->
      Forall constructs ops ->
      cas_reliable schedule = true ->
      exists rs r,
        fst (run ops w0) = rs ++ [r] /\
        Z.of_nat (length rs) = n /\
        Forall (fun r => succeeded r = true) rs /\
        exhausted r = true).
Proof.
  intros Hn Hfresh.
  destruct (fresh_world_inv n schedule w0 Hn Hfresh) as [-> Hmax].
  destruct (fresh_pool_facts (Z.to_nat n)) as [Hsize [Hfree [Hocc Hwf]]].
  simpl in Hsize, Hfree, Hocc, Hwf.
  set (w0 := mkWorld (mkPool (replicate (Z.to_nat n) default_Segment) 0) schedule []).
  assert (Hwf0 : pool_wf (pool w0)) by (apply Hwf; lia).
  assert (Hcap0 : capacity w0 = n) by (unfold capacity; simpl; rewrite Hsize; lia).
  split; [|split].
  - intros ops.
    pose proof (run_capacity ops w0 Hwf0) as Hc. rewrite Hcap0 in Hc.
    split; [exact Hc|].
    pose proof (occupied_le_size (pool (snd (run ops w0)))) as Hle.
    unfold capacity in Hc. lia.
  - intros ops Hall.
    pose proof (run_allocations_count ops w0 Hwf0 Hall) as Hcount.
    pose proof (occupied_le_size (pool (snd (run ops w0)))) as Hle.
    pose proof (run_capacity ops w0 Hwf0) as Hc. unfold capacity in Hc.
    simpl in Hcount. rewrite Hocc in Hcount.
    simpl in Hc. rewrite Hsize in Hc. lia.
  - intros ops Hlen Hall Hrel.
    destruct (exists_last (l := ops)) as [ops1 [o ->]].
    { intros ->. simpl in Hlen. lia. }
    rewrite length_app in Hlen. simpl in Hlen.
    apply Forall_app in Hall. destruct Hall as [Hall1 Hlast].
    apply Forall_cons in Hlast. destruct Hlast as [Hlast _].
    destruct (run_allocations_succeed ops1 w0 Hwf0 Hall1 Hrel) as [Hs [Hf Hrel1]].
    { simpl. rewrite Hfree. lia. }
    rewrite run_app. simpl fst.
    exists (fst (run ops1 w0)), (fst (perform o (snd (run ops1 w0)))).
    split; [|split; [|split]].
    + f_equal. simpl. destruct (perform o (snd (run ops1 w0))); reflexivity.
    + rewrite run_length. lia.
    + exact Hs.
    + apply alloc_op_exhausted.
      * apply run_wf. exact Hwf0.
      * apply constructs_is_allocation. exact Hlast.
      * simpl in Hf. rewrite Hfree in Hf. lia.
Qed.

(** C3 (no aliasing).  A slot handed out was free when the operation
    began, and once an operation has handed out slot [i], no operation hands
    out slot [i] again for as long as no operation releases it: in every
    sequence [mid] of operations that follows and that gives slot [i] back
    neither through [deallocate_fast] nor through the drop of a handle, no
    result is the address of slot [i], and slot [i] is still occupied at the
    end. *)
Theorem no_aliasing (w : World) (a : Op) (mid : list Op) (i : Z) :
  pool_wf (pool w) ->
  slot_handed (fst (perform a w)) = Some i ->
  Forall (fun o => slot_released o <> Some i) mid ->
  free_at (pool w) i /\
  Forall (fun r => slot_handed r <> Some i) (fst (run mid (snd (perform a w)))) /\
  occupied_at (pool (snd (run mid (snd (perform a w))))) i.
Proof.
  intros Hwf Ha Hmid.
  pose proof (perform_effect a w Hwf) as He.
  destruct (effect_handed _ _ _ _ i He Ha) as [Hi [Hfree Hocc]].
  split; [exact Hfree|].
  apply run_occupied; try assumption; [|lia].
  eapply effect_wf; eassumption.
Qed.


(** C5 (null release).  [deallocate_fast(nullptr)] returns normally and
    leaves the world as it is: every slot and its flag, the hint, the
    capacity, and the trace (no destructor call, no store); an allocation
    after it behaves as it would have without it. *)
Theorem deallocate_fast_null (w : World) :
  deallocate_fast nullptr w = (Returned tt, w) /\
  (let w' := snd (deallocate_fast nullptr w) in
   segments (pool w') = segments (pool w) /\
   flags (pool w') = flags (pool w) /\
   search_start (pool w') = search_start (pool w) /\
   capacity w' = capacity w /\
   trace w' = trace w /\
   List.filter is_destroy (trace w') = List.filter is_destroy (trace w)) /\
  (forall args,
      allocate_fast args (snd (deallocate_fast nullptr w)) = allocate_fast args w /\
      allocate_safe args (snd (deallocate_fast nullptr w)) = allocate_safe args w).
Proof. repeat split. Qed.

(** C6 (snapshot).  The snapshot of a pool reports [total] = the
    capacity, [free] = the number of slots whose flag is set, [used] =
    [total - free], so that [free + used = total], and the utilisation
    [used / total * 100] in [double] arithmetic, [0.0] when [total = 0]; it
    leaves the pool as it is. *)
Theorem get_pool_stats_impl_correct (w : World) :
  size (pool w) <= vector_max_size ->
  exists s w',
    get_pool_stats_impl w = (Returned s, w') /\
    pool w' = pool w /\
    total_objects s = capacity w /\
    free_objects s = Z.of_nat (free_slots (pool w)) /\
    used_objects s = total_objects s - free_objects s /\
    free_objects s + used_objects s = total_objects s /\
    0 <= used_objects s /\
    utilization_percent s =
      (if total_objects s =? 0 then double_0
       else double_mul (double_div (double_of_size_t (used_objects s))
                                   (double_of_size_t (total_objects s)))
                       double_100).
Proof.
  intros Hmax. unfold vector_max_size in Hmax.
  rewrite get_pool_stats_impl_eq by lia.
  eexists _, _. split; [reflexivity|]. simpl.
  assert (Hle : (free_slots (pool w) <= length (segments (pool w)))%nat).
  { unfold free_slots, flags. etransitivity; [apply count_true_le|].
    rewrite length_fmap. reflexivity. }
  unfold capacity, size in *.
  repeat split; try lia.
  destruct (length (segments (pool w))) as [|m]; reflexivity.
Qed.

(** ** The attempts on one slot *)

Lemma cas_attempts_app (idx : Z) (a b : list Event) :
  cas_attempts idx (a ++ b) = (cas_attempts idx a + cas_attempts idx b)%nat.
Proof. unfold cas_attempts. rewrite List.filter_app, length_app. reflexivity. Qed.

Lemma cas_attempts_replicate (idx j : Z) (m : nat) (sw ob : bool) :
  cas_attempts idx (replicate m (claim_cas j sw ob)) =
  if j =? idx then m else 0%nat.
Proof.
  unfold cas_attempts. induction m as [|m IH]; simpl.
  - destruct (j =? idx); reflexivity.
  - destruct (j =? idx); simpl; rewrite IH; reflexivity.
Qed.

(** A scan from step [k] makes no attempt on the slots probed before. *)
Lemma scan_attempts_later (p : LockFreeMemoryPool) (start k : Z) (o o' : list bool)
    (evs : list Event) (res : option Z) :
  claim_scan p start k o evs res o' ->
  forall j, 0 <= j < k ->
  cas_attempts (probe start (size p) j) evs = 0%nat.
Proof.
  scan_induction; intros j Hj.
  - reflexivity.
  - change (claim_cas (probe start (size p) k) false false :: evs)
      with (replicate 1 (claim_cas (probe start (size p) k) false false) ++ evs).
    rewrite cas_attempts_app, cas_attempts_replicate, IH by lia.
    destruct (probe start (size p) k =? probe start (size p) j) eqn:E; [|reflexivity].
    apply Z.eqb_eq in E. apply probe_inj in E; lia.
  - rewrite cas_attempts_app, cas_attempts_replicate, IH by lia.
    destruct (probe start (size p) k =? probe start (size p) j) eqn:E; [|reflexivity].
    apply Z.eqb_eq in E. apply probe_inj in E; lia.
  - change [claim_cas (probe start (size p) k) true true]
      with (replicate 1 (claim_cas (probe start (size p) k) true true)).
    rewrite cas_attempts_app, !cas_attempts_replicate.
    destruct (probe start (size p) k =? probe start (size p) j) eqn:E; [|reflexivity].
    apply Z.eqb_eq in E. apply probe_inj in E; lia.
Qed.

(** In a scan no slot sees more than [max_spurious_retries] attempts, and
    an occupied slot no more than one. *)
Lemma scan_attempts (p : LockFreeMemoryPool) (start k : Z) (o o' : list bool)
    (evs : list Event) (res : option Z) :
  claim_scan p start k o evs res o' ->
  0 <= k ->
  forall idx,
  (cas_attempts idx evs <= Z.to_nat max_spurious_retries)%nat /\
  (occupied_at p idx -> (cas_attempts idx evs <= 1)%nat).
Proof.
  scan_induction; intros Hk0 idx.
  - unfold cas_attempts. simpl. split; intros; lia.
  - change (claim_cas (probe start (size p) k) false false :: evs)
      with (replicate 1 (claim_cas (probe start (size p) k) false false) ++ evs).
    rewrite cas_attempts_app, cas_attempts_replicate.
    destruct (probe start (size p) k =? idx) eqn:E.
    + apply Z.eqb_eq in E. subst idx.
      rewrite (scan_attempts_later _ _ _ _ _ _ _ Hs k) by lia.
      unfold max_spurious_retries. split; intros; lia.
    + destruct (IH ltac:(lia) idx) as [H3 H1]. split; [lia|]. intros Ho.
      specialize (H1 Ho). lia.
  - rewrite cas_attempts_app, cas_attempts_replicate.
    destruct (probe start (size p) k =? idx) eqn:E.
    + apply Z.eqb_eq in E. subst idx.
      rewrite (scan_attempts_later _ _ _ _ _ _ _ Hs k) by lia.
      split; [lia|]. intros Ho. exfalso.
      unfold free_at, occupied_at in *. congruence.
    + destruct (IH ltac:(lia) idx) as [H3 H1]. split; [lia|]. intros Ho.
      specialize (H1 Ho). lia.
  - change [claim_cas (probe start (size p) k) true true]
      with (replicate 1 (claim_cas (probe start (size p) k) true true)).
    rewrite cas_attempts_app, !cas_attempts_replicate.
    destruct (probe start (size p) k =? idx) eqn:E.
    + apply Z.eqb_eq in E. subst idx. split; [lia|]. intros Ho. exfalso.
      unfold free_at, occupied_at in *. congruence.
    + split; intros; lia.
Qed.

Lemma allocate_fast_attempts (args : Args) (w : World) :
  pool_wf (pool w) ->
  exists new,
    trace (snd (allocate_fast args w)) = trace w ++ new /\
    forall idx,
      (cas_attempts idx new <= Z.to_nat max_spurious_retries)%nat /\
      (occupied_at (pool w) idx -> (cas_attempts idx new <= 1)%nat).
Proof.
  intros Hwf.
  destruct (Z.eq_dec (capacity w) 0) as [H0|Hn0].
  - rewrite allocate_fast_empty by exact H0. simpl.
    exists [hint_load w]. split; [reflexivity|].
    intros idx. unfold cas_attempts. simpl. split; intros; lia.
  - assert (Hpos : 0 < capacity w) by (unfold capacity, size in *; lia).
    destruct (allocate_fast_scan args w Hwf Hpos) as [evs [res [o' [Hscan Ha]]]].
    pose proof (scan_attempts _ _ _ _ _ _ _ Hscan ltac:(lia)) as Hatt.
    rewrite Ha. unfold allocation_outcome, scan_outcome.
    destruct res as [i|]; [destruct (T_ctor args) as [v|]|]; simpl;
      eexists; (split; [reflexivity|]); intros idx;
      match goal with
      | |- context [cas_attempts idx ?l] =>
          assert (Heq : cas_attempts idx l = cas_attempts idx evs)
            by (unfold cas_attempts, hint_load; simpl;
                rewrite ?List.filter_app; simpl; rewrite ?app_nil_r; reflexivity)
      end;
      rewrite Heq; apply Hatt.
Qed.

(** ** The leading spurious failures of a schedule *)

Lemma leading_failures_le (a b : nat) (x y : list bool) :
  replicate a true ++ x = replicate b true ++ y ->
  head x <> Some true ->
  (b <= a)%nat.
Proof.
  revert b. induction a as [|a IH]; intros b H Hx.
  - destruct b as [|b]; [lia|]. simpl in H. subst x. simpl in Hx. congruence.
  - destruct b as [|b]; [lia|]. simpl in H. inversion H as [H'].
    specialize (IH b H' Hx). lia.
Qed.

Lemma leading_failures_unique (a b : nat) (x y : list bool) :
  replicate a true ++ x = replicate b true ++ y ->
  head x <> Some true ->
  head y <> Some true ->
  a = b /\ x = y.
Proof.
  intros H Hx Hy.
  pose proof (leading_failures_le a b x y H Hx).
  pose proof (leading_failures_le b a y x (eq_sym H) Hy).
  assert (a = b) by lia. subst b. split; [reflexivity|].
  eapply app_inv_head. exact H.
Qed.

(** ** The scan, step by step *)

(** A scan that reaches step [k]: what came before is compare-exchanges on
    the slots probed before [k]. *)
Lemma scan_split (p : LockFreeMemoryPool) (start j : Z) (o o' : list bool)
    (evs : list Event) (res : option Z) :
  claim_scan p start j o evs res o' ->
  forall k, j <= k <= size p ->
  (exists i, j <= i < k /\ res = Some (probe start (size p) i)) \/
  (exists pre ok evk,
     evs = pre ++ evk /\
     (forall e, e ∈ pre ->
        exists i swapped observed,
          j <= i < k /\ e = claim_cas (probe start (size p) i) swapped observed) /\
     claim_scan p start k ok evk res o').
Proof.
  intros Hscan.
  induction Hscan as [j o Hj | j o evs r o' Hj Hocc Hscan IH
                     | j o evs r o' Hj Hfree Hscan IH | j m o Hj Hfree Hm Hh];
    intros k Hk.
  - right. exists [], o, []. split; [reflexivity|]. split.
    + intros e He. inversion He.
    + apply scan_exhausted. lia.
  - destruct (Z.eq_dec j k) as [->|Hne].
    + right. exists [], o, (claim_cas (probe start (size p) k) false false :: evs).
      split; [reflexivity|]. split; [intros e He; inversion He|].
      apply scan_occupied; assumption.
    + destruct (IH k ltac:(lia)) as [[i [Hi Hr]] | [pre [ok [evk [He [Hpre Hs]]]]]].
      * left. exists i. split; [lia | exact Hr].
      * right. exists (claim_cas (probe start (size p) j) false false :: pre), ok, evk.
        split; [rewrite He; reflexivity|]. split; [|exact Hs].
        intros e Hin. apply elem_of_cons in Hin. destruct Hin as [->|Hin].
        -- exists j, false, false. split; [lia | reflexivity].
        -- destruct (Hpre e Hin) as [i [sw [ob [Hi Hee]]]].
           exists i, sw, ob. split; [lia | exact Hee].
  - destruct (Z.eq_dec j k) as [->|Hne].
    + right. eexists [], _, _. split; [reflexivity|].
      split; [intros e He; inversion He|].
      apply scan_given_up; eassumption.
    + destruct (IH k ltac:(lia)) as [[i [Hi Hr]] | [pre [ok [evk [He [Hpre Hs]]]]]].
      * left. exists i. split; [lia | exact Hr].
      * right.
        exists (replicate (Z.to_nat max_spurious_retries)
                  (claim_cas (probe start (size p) j) false true) ++ pre), ok, evk.
        split; [rewrite He, app_assoc; reflexivity|]. split; [|exact Hs].
        intros e Hin. apply elem_of_app in Hin. destruct Hin as [Hin|Hin].
        -- apply elem_of_replicate in Hin. destruct Hin as [-> _].
           exists j, false, true. split; [lia | reflexivity].
        -- destruct (Hpre e Hin) as [i [sw [ob [Hi Hee]]]].
           exists i, sw, ob. split; [lia | exact Hee].
  - destruct (Z.eq_dec j k) as [->|Hne].
    + right. eexists [], _, _. split; [reflexivity|].
      split; [intros e He; inversion He|].
      apply scan_claimed; assumption.
    + left. exists j. split; [lia | reflexivity].
Qed.

Lemma free_occupied_absurd (p : LockFreeMemoryPool) (idx : Z) :
  free_at p idx -> occupied_at p idx -> False.
Proof. unfold free_at, occupied_at. congruence. Qed.

(** The step of a scan on an occupied slot. *)
Lemma scan_inv_occupied (p : LockFreeMemoryPool) (start k : Z) (o o' : list bool)
    (evs : list Event) (res : option Z) :
  claim_scan p start k o evs res o' ->
  0 <= k < size p ->
  occupied_at p (probe start (size p) k) ->
  exists rest,
    evs = claim_cas (probe start (size p) k) false false :: rest /\
    claim_scan p start (k + 1) o rest res o'.
Proof.
  intros Hscan Hk Hocc.
  destruct Hscan as [j o0 Hj | j o0 evs0 r0 o0' Hj Hocc0 Hs
                    | j o0 evs0 r0 o0' Hj Hf Hs | j m o0 Hj Hf Hm Hh].
  - lia.
  - eexists. split; [reflexivity | assumption].
  - exfalso. eapply free_occupied_absurd; eassumption.
  - exfalso. eapply free_occupied_absurd; eassumption.
Qed.

(** The step of a scan on a free slot whose compare-exchange fails spuriously
    three times. *)
Lemma scan_inv_given_up (p : LockFreeMemoryPool) (start k : Z) (o o' : list bool)
    (evs : list Event) (res : option Z) :
  claim_scan p start k ([true; true; true] ++ o) evs res o' ->
  0 <= k < size p ->
  free_at p (probe start (size p) k) ->
  exists rest,
    evs = [claim_cas (probe start (size p) k) false true;
           claim_cas (probe start (size p) k) false true;
           claim_cas (probe start (size p) k) false true] ++ rest /\
    claim_scan p start (k + 1) o rest res o'.
Proof.
  intros Hscan Hk Hfree.
  remember ([true; true; true] ++ o) as oo eqn:Hoo.
  destruct Hscan as [j o0 Hj | j o0 evs0 r0 o0' Hj Hocc Hs
                    | j o0 evs0 r0 o0' Hj Hf Hs | j m o0 Hj Hf Hm Hh].
  - lia.
  - exfalso. eapply free_occupied_absurd; eassumption.
  - simpl in Hoo. inversion Hoo; subst.
    eexists. split; [reflexivity | assumption].
  - exfalso.
    pose proof (leading_failures_le m 3 o0 o Hoo Hh).
    unfold max_spurious_retries in Hm. lia.
Qed.

(** The step of a scan on a free slot whose compare-exchange succeeds after
    [m < 3] spurious failures. *)
Lemma scan_inv_claimed (p : LockFreeMemoryPool) (start k : Z) (m : nat)
    (o o' : list bool) (evs : list Event) (res : option Z) :
  claim_scan p start k (replicate m true ++ o) evs res o' ->
  0 <= k < size p ->
  free_at p (probe start (size p) k) ->
  (m < 3)%nat ->
  head o <> Some true ->
  evs = replicate m (claim_cas (probe start (size p) k) false true) ++
        [claim_cas (probe start (size p) k) true true] /\
  res = Some (probe start (size p) k) /\
  o' = tail o.
Proof.
  intros Hscan Hk Hfree Hm Hh.
  remember (replicate m true ++ o) as oo eqn:Hoo.
  destruct Hscan as [j o0 Hj | j o0 evs0 r0 o0' Hj Hocc Hs
                    | j o0 evs0 r0 o0' Hj Hf Hs | j m0 o0 Hj Hf Hm0 Hh0].
  - lia.
  - exfalso. eapply free_occupied_absurd; eassumption.
  - exfalso.
    pose proof (leading_failures_le m 3 o o0 (eq_sym Hoo) Hh).
    lia.
  - destruct (leading_failures_unique m0 m o0 o Hoo Hh0 Hh) as [-> ->].
    repeat split; reflexivity.
Qed.

(** C7 (bounded retry).  The cap on the attempts on one slot is the
    constant [max_spurious_retries = 3].  [allocate_fast] is the load of the
    hint followed by the loop of [probe_step] over the steps [0 .. n-1], and
    on the slot [idx] probed at step [k]:
    - if [idx] is occupied, there is one compare-exchange on it and the loop
      goes on with the next slot;
    - if [idx] is free and the compare-exchange fails spuriously three
      times, these three attempts are all there is on [idx] and the loop goes
      on with the next slot, the pool unchanged;
    - if [idx] is free and the compare-exchange succeeds after [m < 3]
      spurious failures, the slot is claimed (after [m + 1] attempts on it)
      and the allocation is finished on it.
    The same of a whole call of [allocate_fast]: it ends as its scan ends,
    and either the scan claims a slot before step [k], or its
    compare-exchanges are those on the slots probed before [k] followed by
    those from step [k] on, which begin, on [idx], with one failed attempt if
    [idx] is occupied, with three failed attempts if it is free and three
    spurious failures are due (the scan then goes on at step [k + 1]), and
    are [m] failed attempts and the successful one, which ends the scan with
    [idx] claimed, if [m < 3] spurious failures are due.
    In the whole of an allocation no slot sees more than three
    compare-exchanges, and an occupied slot no more than one. *)
Theorem spurious_retry_cap (args : Args) (w : World) (k : Z) :
  pool_wf (pool w) ->
  0 <= k < capacity w ->
  let p := pool w in
  let n := size p in
  let idx := probe (search_start p) n k in
  max_spurious_retries = 3 /\
  allocate_fast args =
  (p <- get_pool ;;
   start_idx <- search_start_load memory_order_relaxed ;;
   found <- for_range 0 (size p) (probe_step args (size p) start_idx) ;;
   match found with
   | Some ptr => ret ptr
   | None => ret nullptr
   end) /\
  (occupied_at p idx ->
   probe_step args n (search_start p) k w =
   (Returned Next,
    mkWorld p (spurious w) (trace w ++ [claim_cas idx false false]))) /\
  (free_at p idx ->
   forall o', spurious w = [true; true; true] ++ o' ->
   probe_step args n (search_start p) k w =
   (Returned Next,
    mkWorld p o' (trace w ++ [claim_cas idx false true; claim_cas idx false true;
                              claim_cas idx false true]))) /\
  (free_at p idx ->
   forall m o' seg,
   (m < 3)%nat ->
   slot p idx = Some seg ->
   spurious w = replicate m true ++ o' ->
   head o' <> Some true ->
   probe_step args n (search_start p) k w =
   finish_claim args n idx
     (mkWorld (mkPool (<[Z.to_nat idx := set_available false seg]> (segments p))
                      (search_start p))
              (tail o')
              (trace w ++ replicate m (claim_cas idx false true) ++
                 [claim_cas idx true true]))) /\
  (exists evs res o',
     claim_scan p (search_start p) 0 (spurious w) evs res o' /\
     allocate_fast args w =
     allocation_outcome args w
       (EvLoadHint memory_order_relaxed (search_start p) :: evs) res o' /\
     ((exists j, 0 <= j < k /\ res = Some (probe (search_start p) n j)) \/
      (exists pre ok evk,
         evs = pre ++ evk /\
         (forall e, e ∈ pre ->
            exists j swapped observed,
              0 <= j < k /\
              e = claim_cas (probe (search_start p) n j) swapped observed) /\
         claim_scan p (search_start p) k ok evk res o' /\
         (occupied_at p idx ->
          exists rest,
            evk = claim_cas idx false false :: rest /\
            claim_scan p (search_start p) (k + 1) ok rest res o') /\
         (free_at p idx ->
          forall o2, ok = [true; true; true] ++ o2 ->
          exists rest,
            evk = [claim_cas idx false true; claim_cas idx false true;
                   claim_cas idx false true] ++ rest /\
            claim_scan p (search_start p) (k + 1) o2 rest res o') /\
         (free_at p idx ->
          forall m o2,
          (m < 3)%nat ->
          ok = replicate m true ++ o2 ->
          head o2 <> Some true ->
          evk = replicate m (claim_cas idx false true) ++ [claim_cas idx true true] /\
          res = Some idx /\
          o' = tail o2)))) /\
  (exists new,
     trace (snd (allocate_fast args w)) = trace w ++ new /\
     forall j,
       (cas_attempts j new <= 3)%nat /\
       (occupied_at p j -> (cas_attempts j new <= 1)%nat)).
Proof.
  intros Hwf Hk p n idx. unfold capacity in Hk. fold p n in Hk.
  assert (Hn : n <> 0) by lia.
  assert (Hidx : 0 <= idx < n) by (apply probe_range; lia).
  destruct (slot_in_range p idx Hidx) as [seg Hseg].
  assert (Hstep : probe_step args n (search_start p) k w =
                  bind (for_count 3 0 (claim_attempt args n idx))
                       (fun claimed => match claimed with
                                       | Some ptr => ret (Return ptr)
                                       | None => ret Next
                                       end) w).
  { rewrite probe_step_unfold by exact Hn. unfold n, p. rewrite probe_wrap; auto. }
  split; [reflexivity|]. split; [reflexivity|].
  split; [|split; [|split; [|split]]].
  - intros Hocc. unfold occupied_at in Hocc. rewrite Hseg in Hocc. simpl in Hocc.
    rewrite Hstep. unfold bind.
    rewrite (retry_loop_occupied args n idx w seg 2 0 Hseg); [reflexivity|congruence].
  - intros Hfree o' Ho. unfold free_at in Hfree. rewrite Hseg in Hfree. simpl in Hfree.
    assert (Ha : available seg = true) by congruence.
    rewrite Hstep. unfold bind.
    destruct (retry_loop_free args n idx seg 3 w 0 Hseg Ha)
      as [[o1 [Ho1 Hr]] | [m [o1 [Hm [Ho1 [Hh Hr]]]]]].
    + rewrite Hr. rewrite Ho in Ho1. simpl in Ho1. inversion Ho1; subst. reflexivity.
    + exfalso. rewrite Ho in Ho1.
      pose proof (leading_failures_le m 3 o1 o' (eq_sym Ho1) Hh). lia.
  - intros Hfree m o' seg' Hm Hseg' Ho Hh.
    unfold free_at in Hfree. rewrite Hseg in Hfree. simpl in Hfree.
    assert (Ha : available seg = true) by congruence.
    assert (seg' = seg) by congruence. subst seg'.
    rewrite Hstep. unfold bind at 1.
    destruct (retry_loop_free args n idx seg 3 w 0 Hseg Ha)
      as [[o1 [Ho1 Hr]] | [m1 [o1 [Hm1 [Ho1 [Hh1 Hr]]]]]].
    + exfalso. rewrite Ho in Ho1.
      pose proof (leading_failures_le m 3 o' o1 Ho1 Hh). lia.
    + rewrite Ho in Ho1.
      destruct (leading_failures_unique m m1 o' o1 Ho1 Hh Hh1) as [<- <-].
      rewrite Hr. unfold bind, claimed_world. fold p.
      destruct (finish_claim _ _ _ _) as [[c| | |] w'] eqn:Hf; try reflexivity.
      apply finish_claim_returns in Hf. subst c. reflexivity.
  - destruct (allocate_fast_scan args w Hwf ltac:(unfold capacity; fold p n; lia))
      as [evs [res [o' [Hscan Ha]]]].
    exists evs, res, o'. split; [exact Hscan|]. split; [exact Ha|].
    destruct (scan_split _ _ _ _ _ _ _ Hscan k ltac:(fold p n; lia))
      as [Hbefore | [pre [ok [evk [He [Hpre Hs]]]]]]; [left; exact Hbefore|].
    right. exists pre, ok, evk. split; [exact He|]. split; [exact Hpre|].
    split; [exact Hs|]. split; [|split].
    + intros Hocc. exact (scan_inv_occupied _ _ _ _ _ _ _ Hs Hk Hocc).
    + intros Hfree o2 Ho. subst ok.
      exact (scan_inv_given_up _ _ _ _ _ _ _ Hs Hk Hfree).
    + intros Hfree m o2 Hm Ho Hh. subst ok.
      exact (scan_inv_claimed _ _ _ _ _ _ _ _ Hs Hk Hfree Hm Hh).
  - exact (allocate_fast_attempts args w Hwf).
Qed.

(** ** The trace of an allocation *)

Lemma allocate_fast_trace (args : Args) (w : World) :
  pool_wf (pool w) ->
  exists new,
    trace (snd (allocate_fast args w)) = trace w ++ new /\
    forallb order_ok new = true /\
    (forall i, fst (allocate_fast args w) = Returned (slot_ptr i) ->
       exists pre h,
         new = pre ++ [claim_cas i true true; EvConstruct i true;
                       EvStoreHint memory_order_relaxed h]) /\
    (forall e, fst (allocate_fast args w) = Thrown e ->
       exists pre i,
         new = pre ++ [claim_cas i true true; EvConstruct i false; release_store i]).
Proof.
  intros Hwf.
  destruct (Z.eq_dec (capacity w) 0) as [H0|Hn0].
  - rewrite allocate_fast_empty by exact H0. simpl.
    exists [hint_load w]. repeat split; try reflexivity; intros; discriminate.
  - assert (Hpos : 0 < capacity w) by (unfold capacity, size in *; lia).
    destruct (allocate_fast_scan args w Hwf Hpos) as [evs [res [o' [Hscan Ha]]]].
    pose proof (scan_orders _ _ _ _ _ _ _ Hscan) as Hord.
    rewrite Ha. unfold allocation_outcome, scan_outcome.
    destruct res as [i|].
    + destruct (scan_last_cas _ _ _ _ _ _ _ Hscan i eq_refl) as [pre Hpre].
      destruct (T_ctor args) as [v|]; simpl; eexists; (split; [reflexivity|]).
      * split; [simpl; rewrite forallb_app, Hord; reflexivity|].
        split; [|intros; discriminate].
        intros j Hj. inversion Hj; subst j. exists (hint_load w :: pre). eexists.
        rewrite Hpre. simpl. rewrite <- !app_assoc. reflexivity.
      * split; [simpl; rewrite forallb_app, Hord; reflexivity|].
        split; [intros; discriminate|].
        intros e _. exists (hint_load w :: pre), i.
        rewrite Hpre. simpl. rewrite <- !app_assoc. reflexivity.
    + simpl. eexists. split; [reflexivity|].
      split; [simpl; exact Hord|]. split; intros; discriminate.
Qed.

Lemma flag_loads_ok (segs : list Segment) (i : Z) :
  forallb order_ok (flag_loads i segs) = true.
Proof.
  revert i. induction segs as [|s segs IH]; intros i; [reflexivity|].
  unfold flag_loads. simpl. apply (IH (i + 1)) || idtac.
  unfold flag_loads in IH. erewrite imap_ext; [apply (IH (i + 1))|].
  intros j x _. simpl. f_equal. lia.
Qed.

(** C9 (unchecked release).  [deallocate_impl_safe] checks nothing.  On the
    address of a segment of the array it stores free into the segment and
    returns [true], whatever the segment holds: an object, or none (a slot
    already free, a slot never handed out).  On an address past the end of
    the array it issues the same store, at the index it computed; that store
    is outside of the array and has no defined result.  It never returns
    [false], on any pointer.  So the check around it never fails: on no
    pointer, in a debug build as in a release build, does [SAFE_CALL],
    [deallocate_fast], the deleter or the destructor of the handle abort;
    they return normally or run into the undefined access. *)
Theorem release_unchecked (w : World) :
  (forall off,
     0 <= index_of off < capacity w ->
     deallocate_impl_safe (slot_ptr off) w =
     (Returned true,
      mkWorld (mkPool (alter (set_available true) (Z.to_nat (index_of off))
                         (segments (pool w)))
                      (search_start (pool w)))
              (spurious w)
              (trace w ++ [EvStoreFlag (index_of off) memory_order_release true]))) /\
  (forall off,
     capacity w <= index_of off ->
     deallocate_impl_safe (slot_ptr off) w =
     (Fault,
      mkWorld (pool w) (spurious w)
              (trace w ++ [EvStoreFlag (index_of off) memory_order_release true]))) /\
  (forall elem,
     fst (deallocate_impl_safe elem w) = Returned true \/
     fst (deallocate_impl_safe elem w) = Fault) /\
  (forall elem,
     fst (SAFE_CALL (deallocate_impl_safe elem) w) = Returned tt \/
     fst (SAFE_CALL (deallocate_impl_safe elem) w) = Fault) /\
  (forall elem,
     fst (deallocate_fast elem w) = Returned tt \/
     fst (deallocate_fast elem w) = Fault) /\
  (forall d ptr,
     fst (PoolDeleter_call d ptr w) = Returned tt \/
     fst (PoolDeleter_call d ptr w) = Fault) /\
  (forall h,
     fst (unique_ptr_dtor h w) = Returned tt \/
     fst (unique_ptr_dtor h w) = Fault).
Proof.
  assert (Hrange : forall (w0 : World) off,
            is_Some (segments (pool w0) !! Z.to_nat (index_of off)) \/
            segments (pool w0) !! Z.to_nat (index_of off) = None).
  { intros w0 off. destruct (segments (pool w0) !! Z.to_nat (index_of off)); eauto. }
  assert (Hsafe : forall (w0 : World) elem,
            fst (SAFE_CALL (deallocate_impl_safe elem) w0) = Returned tt \/
            fst (SAFE_CALL (deallocate_impl_safe elem) w0) = Fault).
  { intros w0 [|off|off delta]; try (right; reflexivity).
    destruct (Hrange w0 off) as [Hin|Hout].
    - left. rewrite SAFE_CALL_deallocate by exact Hin. reflexivity.
    - right. unfold SAFE_CALL, bind. rewrite deallocate_impl_safe_wild by exact Hout.
      reflexivity. }
  assert (Hfast : forall elem,
            fst (deallocate_fast elem w) = Returned tt \/
            fst (deallocate_fast elem w) = Fault).
  { intros [|off|off delta].
    - left. reflexivity.
    - destruct (Hrange w off) as [Hin|Hout].
      + left. rewrite deallocate_fast_slot by exact Hin. reflexivity.
      + right. rewrite deallocate_fast_wild by exact Hout. reflexivity.
    - right. rewrite deallocate_fast_inner. reflexivity. }
  assert (Hdel : forall d ptr,
            fst (PoolDeleter_call d ptr w) = Returned tt \/
            fst (PoolDeleter_call d ptr w) = Fault).
  { intros [[|]] ptr.
    - destruct ptr as [|off|off delta]; [left; reflexivity| |].
      + rewrite PoolDeleter_call_slot. apply Hfast.
      + exact (Hfast (inner_ptr off delta)).
    - left. unfold PoolDeleter_call. simpl. rewrite andb_false_r. reflexivity. }
  split; [|split; [|split; [|split; [|split; [|split]]]]].
  - intros off Hoff. apply deallocate_impl_safe_eq, in_array. exact Hoff.
  - intros off Hoff. apply deallocate_impl_safe_wild, past_array. exact Hoff.
  - intros [|off|off delta]; try (right; reflexivity).
    destruct (Hrange w off) as [Hin|Hout].
    + left. rewrite deallocate_impl_safe_eq by exact Hin. reflexivity.
    + right. rewrite deallocate_impl_safe_wild by exact Hout. reflexivity.
  - apply Hsafe.
  - exact Hfast.
  - exact Hdel.
  - intros h. rewrite unique_ptr_dtor_eq.
    destruct (deleter_pool (get_deleter h)); [apply Hfast | left; reflexivity].
Qed.

(** C10 (capacity zero).  The constructor accepts a capacity of 0.  On a
    pool without slots [allocate_fast] returns [nullptr] and
    [allocate_safe] the empty handle, after the load of the hint and nothing
    else: no modulo, no access to a slot, no constructor call.  The snapshot
    of such a pool is [{0, 0, 0, 0.0}]. *)
Theorem zero_capacity_pool (args : Args) (hint : Z) (o : list bool) (t : list Event) :
  LockFreeMemoryPool_ctor 0 = Returned (mkPool [] 0) /\
  fresh_world 0 o = Returned (mkWorld (mkPool [] 0) o []) /\
  (let w := mkWorld (mkPool [] hint) o t in
   let w' := mkWorld (mkPool [] hint) o (t ++ [EvLoadHint memory_order_relaxed hint]) in
   allocate_fast args w = (Returned nullptr, w') /\
   allocate_safe args w = (Returned unique_ptr_null, w') /\
   get_pool_stats w = (Returned (mkPoolStats 0 0 0 double_0), w) /\
   List.filter is_indexing (trace w') = List.filter is_indexing t).
Proof.
  assert (Hc : LockFreeMemoryPool_ctor 0 = Returned (mkPool [] 0)).
  { rewrite LockFreeMemoryPool_ctor_eq; [reflexivity | | left; reflexivity].
    pose proof segments_max_size_range. lia. }
  split; [exact Hc|]. split; [unfold fresh_world; rewrite Hc; reflexivity|].
  repeat split.
  simpl. rewrite List.filter_app. simpl. rewrite app_nil_r. reflexivity.
Qed.

(** ** One thread alone *)

Lemma solo_trans (pc1 pc2 pc3 : Pc) (w1 w2 w3 : World) :
  solo_steps pc1 w1 pc2 w2 -> solo_steps pc2 w2 pc3 w3 -> solo_steps pc1 w1 pc3 w3.
Proof.
  induction 1 as [|pc w pca wa pcb wb Hs Hrest IH]; intros H; [exact H|].
  eapply solo_step; [exact Hs | apply IH; exact H].
Qed.

Lemma solo_one (pc pc1 : Pc) (w w1 : World) :
  thread_step pc w = (Returned pc1, w1) -> solo_steps pc w pc1 w1.
Proof. intros H. eapply solo_step; [exact H | apply solo_refl]. Qed.

Lemma thread_step_probe_end (args : Args) (start attempts retry : Z) (w : World) :
  size (pool w) <= attempts ->
  thread_step (PcProbe args start attempts retry) w =
  (Returned (PcDone (Returned nullptr)), w).
Proof.
  intros H. unfold thread_step, bind, get_pool.
  destruct (size (pool w) <=? attempts) eqn:E; [reflexivity | lia].
Qed.

Lemma thread_step_probe_next (args : Args) (start attempts retry : Z) (w : World) :
  attempts < size (pool w) ->
  max_spurious_retries <= retry ->
  thread_step (PcProbe args start attempts retry) w =
  (Returned (PcProbe args start (attempts + 1) 0), w).
Proof.
  intros H Hr. unfold thread_step, bind, get_pool.
  destruct (size (pool w) <=? attempts) eqn:E; [lia|].
  destruct (max_spurious_retries <=? retry) eqn:E2; [reflexivity | lia].
Qed.

Lemma thread_step_probe_cas (args : Args) (p : LockFreeMemoryPool) (o : list bool)
    (t : list Event) (attempts retry : Z) :
  pool_wf p ->
  0 <= attempts < size p ->
  retry < max_spurious_retries ->
  thread_step (PcProbe args (search_start p) attempts retry) (mkWorld p o t) =
  bind (available_compare_exchange_weak
          (probe (search_start p) (size p) attempts) true false
          memory_order_acq_rel memory_order_relaxed)
       (fun r =>
          let '(swapped, expected) := r in
          if swapped then
            ret (PcConstruct args (probe (search_start p) (size p) attempts))
          else if negb expected then
            ret (PcProbe args (search_start p) (attempts + 1) 0)
          else ret (PcProbe args (search_start p) attempts (retry + 1)))
       (mkWorld p o t).
Proof.
  intros Hwf H Hr.
  assert (E1 : (size p <=? attempts) = false) by (apply Z.leb_gt; lia).
  assert (E2 : (max_spurious_retries <=? retry) = false) by (apply Z.leb_gt; lia).
  assert (E3 : (size p =? 0) = false) by (apply Z.eqb_neq; lia).
  unfold thread_step. unfold bind at 1. unfold get_pool at 1.
  cbn [pool]. rewrite E1, E2.
  unfold bind at 1. unfold umod. rewrite E3.
  unfold ret at 1. rewrite probe_wrap by assumption. reflexivity.
Qed.

Lemma thread_step_construct_ok (args : Args) (idx : Z) (w : World) (v : T) :
  T_ctor args = Some v ->
  thread_step (PcConstruct args idx) w =
  (Returned (PcPublish idx),
   mkWorld (mkPool (alter (set_memory (Some v)) (Z.to_nat idx) (segments (pool w)))
                   (search_start (pool w)))
           (spurious w) (trace w ++ [EvConstruct idx true])).
Proof.
  intros Hc. unfold thread_step, try_catch, bind, placement_new. rewrite Hc.
  reflexivity.
Qed.

Lemma thread_step_construct_throws (args : Args) (idx : Z) (w : World) :
  T_ctor args = None ->
  thread_step (PcConstruct args idx) w =
  (Returned (PcRestore idx constructor_failure),
   mkWorld (pool w) (spurious w) (trace w ++ [EvConstruct idx false])).
Proof.
  intros Hc. unfold thread_step, try_catch, bind, placement_new. rewrite Hc.
  reflexivity.
Qed.

Lemma thread_step_publish (idx : Z) (w : World) :
  size (pool w) <> 0 ->
  thread_step (PcPublish idx) w =
  (Returned (PcDone (Returned (slot_ptr idx))),
   mkWorld (mkPool (segments (pool w)) (size_t_wrap (idx + 1) mod size (pool w)))
           (spurious w)
           (trace w ++ [EvStoreHint memory_order_relaxed
                          (size_t_wrap (idx + 1) mod size (pool w))])).
Proof.
  intros Hn. assert (E : (size (pool w) =? 0) = false) by (apply Z.eqb_neq; exact Hn).
  unfold thread_step. unfold bind at 1. unfold get_pool at 1.
  unfold bind at 1. unfold umod. rewrite E. reflexivity.
Qed.

Lemma thread_step_restore (idx : Z) (e : Exn) (w : World) :
  is_Some (segments (pool w) !! Z.to_nat idx) ->
  thread_step (PcRestore idx e) w =
  (Returned (PcDone (Thrown e)),
   mkWorld (mkPool (alter (set_available true) (Z.to_nat idx) (segments (pool w)))
                   (search_start (pool w)))
           (spurious w) (trace w ++ [release_store idx])).
Proof.
  intros [seg Hseg].
  unfold thread_step, available_store, bind, get_pool, emit, put_pool, ret. simpl.
  rewrite Hseg. reflexivity.
Qed.

Lemma thread_step_destroy (off : Z) (w : World) :
  is_Some (segments (pool w) !! Z.to_nat (index_of off)) ->
  thread_step (PcDestroy off) w =
  (Returned (PcFree off),
   mkWorld (mkPool (alter (set_memory None) (Z.to_nat (index_of off)) (segments (pool w)))
                   (search_start (pool w)))
           (spurious w) (trace w ++ [EvDestroy (index_of off)])).
Proof.
  intros Hin. unfold thread_step, bind. rewrite destroy_eq by exact Hin. reflexivity.
Qed.

Lemma thread_step_free (off : Z) (w : World) :
  is_Some (segments (pool w) !! Z.to_nat (index_of off)) ->
  thread_step (PcFree off) w =
  (Returned PcIdle,
   mkWorld (mkPool (alter (set_available true) (Z.to_nat (index_of off))
                      (segments (pool w)))
                   (search_start (pool w)))
           (spurious w) (trace w ++ [release_store (index_of off)])).
Proof.
  intros Hin. unfold thread_step. unfold bind at 1.
  rewrite SAFE_CALL_deallocate by exact Hin.
  rewrite deallocate_impl_safe_eq by exact Hin. reflexivity.
Qed.

(** A store or a destructor call outside the array is where a step does
    not return. *)
Lemma thread_step_wild (pc : Pc) (w : World) (idx : Z) :
  pc = PcRestore idx constructor_failure \/
  (exists e, pc = PcRestore idx e) \/
  (exists off, idx = index_of off /\ (pc = PcDestroy off \/ pc = PcFree off)) ->
  segments (pool w) !! Z.to_nat idx = None ->
  fst (thread_step pc w) = Fault.
Proof.
  intros [-> | [[e ->] | [off [-> [-> | ->]]]]] Hnone.
  - unfold thread_step, available_store, bind, get_pool, emit, put_pool. simpl.
    rewrite Hnone. reflexivity.
  - unfold thread_step, available_store, bind, get_pool, emit, put_pool. simpl.
    rewrite Hnone. reflexivity.
  - unfold thread_step, bind. rewrite destroy_wild by exact Hnone. reflexivity.
  - unfold thread_step. unfold bind at 1. unfold SAFE_CALL, bind.
    rewrite deallocate_impl_safe_wild by exact Hnone. reflexivity.
Qed.

Lemma solo_last (pc pc1 : Pc) (w w1 w2 : World) :
  thread_step pc w = (Returned pc1, w1) -> w1 = w2 -> solo_steps pc w pc1 w2.
Proof. intros H <-. apply solo_one. exact H. Qed.

(** The spurious failures at the head of the schedule, one step each. *)
Lemma solo_spurious (args : Args) (p : LockFreeMemoryPool) (k : Z) (seg : Segment)
    (m : nat) :
  pool_wf p ->
  0 <= k < size p ->
  slot p (probe (search_start p) (size p) k) = Some seg ->
  available seg = true ->
  forall (r : Z) (o : list bool) (t : list Event),
  0 <= r ->
  r + Z.of_nat m <= max_spurious_retries ->
  solo_steps
    (PcProbe args (search_start p) k r)
    (mkWorld p (replicate m true ++ o) t)
    (PcProbe args (search_start p) k (r + Z.of_nat m))
    (mkWorld p o
       (t ++ replicate m (claim_cas (probe (search_start p) (size p) k) false true))).
Proof.
  intros Hwf Hk Hs Ha. induction m as [|m IH]; intros r o t Hr Hm.
  - simpl. rewrite app_nil_r, Z.add_0_r. apply solo_refl.
  - eapply solo_step.
    + rewrite (thread_step_probe_cas args p _ t k r) by (auto; lia).
      unfold bind.
      rewrite (cas_spurious (mkWorld p (replicate (S m) true ++ o) t) _ seg _ _
                 (replicate m true ++ o)); [reflexivity | exact Hs | exact Ha | reflexivity].
    + simpl trace. replace (r + Z.of_nat (S m)) with ((r + 1) + Z.of_nat m) by lia.
      replace (t ++ replicate (S m) (claim_cas (probe (search_start p) (size p) k) false true))
        with ((t ++ [claim_cas (probe (search_start p) (size p) k) false true]) ++
              replicate m (claim_cas (probe (search_start p) (size p) k) false true))
        by (rewrite <- app_assoc; reflexivity).
      apply IH; lia.
Qed.

Lemma scan_outcome_pre (args : Args) (p : LockFreeMemoryPool) (o1 o2 : list bool)
    (t pre evs : list Event) (res : option Z) (o' : list bool) :
  scan_outcome args (mkWorld p o1 t) (pre ++ evs) res o' =
  scan_outcome args (mkWorld p o2 (t ++ pre)) evs res o'.
Proof.
  unfold scan_outcome. simpl.
  destruct res; [destruct (T_ctor args)|]; rewrite <- ?app_assoc; reflexivity.
Qed.

Lemma solo_scan (args : Args) (p : LockFreeMemoryPool) (k : Z) (o o' : list bool)
    (evs : list Event) (res : option Z) :
  claim_scan p (search_start p) k o evs res o' ->
  pool_wf p ->
  0 <= k ->
  forall t,
  solo_steps
    (PcProbe args (search_start p) k 0) (mkWorld p o t)
    (done_of (fst (scan_outcome args (mkWorld p o t) evs res o')) res)
    (snd (scan_outcome args (mkWorld p o t) evs res o')).
Proof.
  scan_induction; intros Hwf Hk0 t.
  - (* all slots probed *)
    simpl. rewrite app_nil_r. apply solo_one.
    apply thread_step_probe_end. simpl. lia.
  - (* an occupied slot *)
    unfold occupied_at in Hocc.
    destruct (slot p (probe (search_start p) (size p) k)) as [seg|] eqn:Hseg;
      [|discriminate].
    simpl in Hocc. assert (Ha : available seg = false) by congruence.
    eapply solo_step.
    + rewrite (thread_step_probe_cas args p o t k 0)
        by (auto; unfold max_spurious_retries; lia).
      unfold bind.
      rewrite (cas_on_occupied (mkWorld p o t) _ seg _ _ Hseg Ha). reflexivity.
    + change (claim_cas (probe (search_start p) (size p) k) false false :: evs)
        with ([claim_cas (probe (search_start p) (size p) k) false false] ++ evs).
      rewrite (scan_outcome_pre args p o o t).
      apply IH; [exact Hwf | lia].
  - (* a free slot given up *)
    unfold free_at in Hfree.
    destruct (slot p (probe (search_start p) (size p) k)) as [seg|] eqn:Hseg;
      [|discriminate].
    simpl in Hfree. assert (Ha : available seg = true) by congruence.
    eapply solo_trans.
    { apply (solo_spurious args p k seg (Z.to_nat max_spurious_retries) Hwf Hk Hseg Ha
               0 o t); [lia | unfold max_spurious_retries; lia]. }
    eapply solo_step.
    + apply thread_step_probe_next; simpl; unfold max_spurious_retries; lia.
    + rewrite (scan_outcome_pre args p _ o t).
      apply IH; [exact Hwf | lia].
  - (* a free slot claimed *)
    unfold free_at in Hfree.
    destruct (slot p (probe (search_start p) (size p) k)) as [seg|] eqn:Hseg;
      [|discriminate].
    simpl in Hfree. assert (Ha : available seg = true) by congruence.
    set (idx := probe (search_start p) (size p) k) in *.
    assert (Hidx : 0 <= idx < size p) by (apply probe_range; lia).
    eapply solo_trans.
    { apply (solo_spurious args p k seg m Hwf Hk Hseg Ha 0 o t);
        [lia | unfold max_spurious_retries in *; lia]. }
    fold idx.
    eapply solo_step.
    { rewrite (thread_step_probe_cas args p o _ k (0 + Z.of_nat m))
        by (auto; unfold max_spurious_retries in *; lia).
      unfold bind. fold idx.
      rewrite (cas_success (mkWorld p o _) idx seg _ _ Hseg Ha Hh). reflexivity. }
    simpl pool. simpl spurious. simpl trace.
    unfold scan_outcome. destruct (T_ctor args) as [v|] eqn:Hc.
    + (* constructed, then published *)
      eapply solo_step; [apply thread_step_construct_ok; exact Hc|].
      eapply solo_last.
      { apply thread_step_publish. simpl. unfold size. simpl.
        rewrite length_alter, length_insert. unfold size in Hidx. lia. }
      simpl. unfold size at 1 2. simpl. rewrite length_alter, length_insert.
      fold (size p). rewrite alter_after_insert.
      rewrite next_hint_wrap by assumption.
      unfold pool_after_claim, set_memory, set_available. simpl.
      rewrite <- !app_assoc. reflexivity.
    + (* the constructor throws, the slot is set free *)
      eapply solo_step; [apply thread_step_construct_throws; exact Hc|].
      eapply solo_last.
      { apply thread_step_restore. simpl. apply lookup_lt_is_Some.
        rewrite length_insert. eapply lookup_lt_Some. exact Hseg. }
      simpl.
      assert (Hseg' : set_available true (set_available false seg) = seg).
      { destruct seg. simpl in Ha. subst. reflexivity. }
      rewrite alter_after_insert, Hseg'.
      rewrite list_insert_id by exact Hseg.
      rewrite pool_eta. rewrite <- !app_assoc. reflexivity.
Qed.

(** X19.  The steps of one thread from the call to the return are
    [allocate_fast]: a thread that runs the atomic steps of its call with no
    step of another thread in between ends with the result of
    [allocate_fast] and leaves the pool, the schedule and the trace of
    accesses that [allocate_fast] leaves. *)
Theorem solo_allocate (args : Args) (w : World) :
  pool_wf (pool w) ->
  solo_steps (PcStart args) w
    (PcDone (fst (allocate_fast args w))) (snd (allocate_fast args w)).
Proof.
  intros Hwf. destruct w as [p o t]. simpl in Hwf.
  eapply solo_step; [reflexivity|].
  destruct (Z.eq_dec (size p) 0) as [H0|Hn0].
  - rewrite allocate_fast_empty by exact H0. simpl.
    apply solo_one. apply thread_step_probe_end. simpl. lia.
  - assert (Hpos : 0 < capacity (mkWorld p o t))
      by (unfold capacity, size in *; simpl; lia).
    destruct (allocate_fast_scan args (mkWorld p o t) Hwf Hpos)
      as [evs [res [o' [Hscan Ha]]]].
    rewrite Ha. simpl in Hscan.
    pose proof (solo_scan args p 0 o o' evs res Hscan Hwf ltac:(lia)
                  (t ++ [hint_load (mkWorld p o t)])) as Hsolo.
    unfold allocation_outcome.
    change (hint_load (mkWorld p o t) :: evs)
      with ([hint_load (mkWorld p o t)] ++ evs).
    rewrite (scan_outcome_pre args p o o t).
    destruct (scan_outcome args
                (mkWorld p o (t ++ [hint_load (mkWorld p o t)])) evs res o')
      as [[x| | |] w'] eqn:Hso; simpl in *; exact Hsolo.
Qed.

(** The steps of one thread through the release of a slot of the pool are
    [deallocate_fast]. *)
Theorem solo_deallocate (off : Z) (w : World) :
  is_Some (segments (pool w) !! Z.to_nat (index_of off)) ->
  solo_steps (PcDestroy off) w PcIdle (snd (deallocate_fast (slot_ptr off) w)).
Proof.
  intros Hin.
  eapply solo_step; [apply thread_step_destroy; exact Hin|].
  eapply solo_last.
  { apply thread_step_free. simpl. apply lookup_lt_is_Some. rewrite length_alter.
    apply lookup_lt_is_Some. exact Hin. }
  rewrite deallocate_fast_slot by exact Hin. simpl. rewrite <- app_assoc. reflexivity.
Qed.

(** ** Interleaved steps *)

Lemma same_flag_alter_memory (p : LockFreeMemoryPool) (i : nat) (o : option T) (h : Z) (j : Z) :
  same_flag p (mkPool (alter (set_memory o) i (segments p)) h) j.
Proof.
  unfold same_flag, slot. simpl.
  destruct (decide (i = Z.to_nat j)) as [->|Hne].
  - rewrite list_lookup_alter_eq. destruct (segments p !! Z.to_nat j); reflexivity.
  - rewrite list_lookup_alter_ne by exact Hne. reflexivity.
Qed.

Lemma same_flag_alter_other (p : LockFreeMemoryPool) (i j : Z) (f : Segment -> Segment) (h : Z) :
  0 <= i -> 0 <= j -> j <> i ->
  same_flag p (mkPool (alter f (Z.to_nat i) (segments p)) h) j.
Proof.
  intros Hi Hj Hne. unfold same_flag, slot. simpl.
  rewrite list_lookup_alter_ne by lia. reflexivity.
Qed.

Lemma same_flag_insert_other (p : LockFreeMemoryPool) (i j : Z) (x : Segment) (h : Z) :
  0 <= i -> 0 <= j -> j <> i ->
  same_flag p (mkPool (<[Z.to_nat i := x]> (segments p)) h) j.
Proof.
  intros Hi Hj Hne. unfold same_flag, slot. simpl.
  rewrite list_lookup_insert_ne by lia. reflexivity.
Qed.

Lemma same_flag_refl (p : LockFreeMemoryPool) (h : Z) (j : Z) :
  same_flag p (mkPool (segments p) h) j.
Proof. reflexivity. Qed.

(** One step of a thread, as an effect on the slots. *)
Lemma thread_step_effect (pc pc' : Pc) (w w' : World) :
  thread_step pc w = (Returned pc', w') ->
  pool_wf (pool w) ->
  (forall i, holds pc = Some i -> 0 <= i < size (pool w)) ->
  pool_wf (pool w') /\
  size (pool w') = size (pool w) /\
  step_effect pc (pool w) pc' (pool w').
Proof.
  intros Hstep Hwf Hheld.
  destruct pc as [| args | args start attempts retry | args idx | idx e | idx | r
                 | off | off].
  - (* outside the pool *)
    inversion Hstep; subst. split; [exact Hwf|]. split; [reflexivity|].
    apply step_keeps; [reflexivity | intros j; reflexivity].
  - (* the load of the hint *)
    inversion Hstep; subst. split; [exact Hwf|]. split; [reflexivity|].
    apply step_keeps; [reflexivity | intros j; reflexivity].
  - (* the head of the retry loop *)
    unfold thread_step in Hstep. unfold bind at 1 in Hstep. unfold get_pool at 1 in Hstep.
    destruct (size (pool w) <=? attempts) eqn:E1.
    { inversion Hstep; subst. split; [exact Hwf|]. split; [reflexivity|].
      apply step_keeps; [reflexivity | intros j; reflexivity]. }
    destruct (max_spurious_retries <=? retry) eqn:E2.
    { inversion Hstep; subst. split; [exact Hwf|]. split; [reflexivity|].
      apply step_keeps; [reflexivity | intros j; reflexivity]. }
    unfold bind at 1 in Hstep. unfold umod in Hstep.
    destruct (size (pool w) =? 0) eqn:E3; [discriminate|].
    unfold ret at 1 in Hstep.
    set (idx := size_t_wrap (start + attempts) mod size (pool w)) in *.
    assert (Hidx : 0 <= idx < size (pool w)).
    { apply Z.mod_pos_bound. apply Z.eqb_neq in E3. unfold size in *. lia. }
    destruct (slot_in_range (pool w) idx Hidx) as [seg Hseg].
    unfold bind in Hstep.
    destruct (available seg) eqn:Ha.
    + destruct (spurious w) as [|[|] o] eqn:Ho.
      * (* success: the schedule is used up *)
        rewrite (cas_success w idx seg _ _ Hseg Ha) in Hstep by (rewrite Ho; discriminate).
        inversion Hstep; subst pc' w'. simpl.
        split; [|split].
        -- destruct Hwf as [Hmax Hh]. split; unfold size in *; simpl;
             rewrite length_insert; assumption.
        -- unfold size. simpl. rewrite length_insert. reflexivity.
        -- apply (step_claims _ _ _ _ idx); try reflexivity; try assumption.
           ++ unfold free_at. rewrite Hseg. simpl. rewrite Ha. reflexivity.
           ++ unfold occupied_at, slot. simpl.
              rewrite list_lookup_insert_eq by (unfold size in Hidx; lia). reflexivity.
           ++ intros j Hj Hne. apply same_flag_insert_other; lia.
      * (* a spurious failure *)
        rewrite (cas_spurious w idx seg _ _ o Hseg Ha Ho) in Hstep.
        inversion Hstep; subst pc' w'. simpl.
        split; [exact Hwf|]. split; [reflexivity|].
        apply step_keeps; [reflexivity | intros j; reflexivity].
      * (* success *)
        rewrite (cas_success w idx seg _ _ Hseg Ha) in Hstep by (rewrite Ho; discriminate).
        inversion Hstep; subst pc' w'. simpl.
        split; [|split].
        -- destruct Hwf as [Hmax Hh]. split; unfold size in *; simpl;
             rewrite length_insert; assumption.
        -- unfold size. simpl. rewrite length_insert. reflexivity.
        -- apply (step_claims _ _ _ _ idx); try reflexivity; try assumption.
           ++ unfold free_at. rewrite Hseg. simpl. rewrite Ha. reflexivity.
           ++ unfold occupied_at, slot. simpl.
              rewrite list_lookup_insert_eq by (unfold size in Hidx; lia). reflexivity.
           ++ intros j Hj Hne. apply same_flag_insert_other; lia.
    + (* the slot is occupied *)
      rewrite (cas_on_occupied w idx seg _ _ Hseg Ha) in Hstep.
      inversion Hstep; subst pc' w'. simpl.
      split; [exact Hwf|]. split; [reflexivity|].
      apply step_keeps; [reflexivity | intros j; reflexivity].
  - (* the constructor *)
    destruct (T_ctor args) as [v|] eqn:Hc.
    + rewrite (thread_step_construct_ok args idx w v Hc) in Hstep.
      inversion Hstep; subst pc' w'. simpl.
      split; [|split].
      * destruct Hwf as [Hmax Hh]. split; unfold size in *; simpl;
          rewrite length_alter; assumption.
      * unfold size. simpl. rewrite length_alter. reflexivity.
      * apply step_keeps; [reflexivity|]. intros j. apply same_flag_alter_memory.
    + rewrite (thread_step_construct_throws args idx w Hc) in Hstep.
      inversion Hstep; subst pc' w'. simpl.
      split; [exact Hwf|]. split; [reflexivity|].
      apply step_keeps; [reflexivity | intros j; reflexivity].
  - (* the slot is set free after the constructor threw *)
    specialize (Hheld idx eq_refl).
    rewrite thread_step_restore in Hstep by (apply in_array; exact Hheld).
    inversion Hstep; subst pc' w'. simpl.
    split; [|split].
    + destruct Hwf as [Hmax Hh]. split; unfold size in *; simpl;
        rewrite length_alter; assumption.
    + unfold size. simpl. rewrite length_alter. reflexivity.
    + apply (step_frees _ _ _ _ idx); try reflexivity.
      intros j Hj Hne. apply same_flag_alter_other; lia.
  - (* the store of the hint *)
    specialize (Hheld idx eq_refl).
    rewrite thread_step_publish in Hstep by lia.
    inversion Hstep; subst pc' w'. simpl.
    split; [|split].
    + destruct Hwf as [Hmax Hh]. split; unfold size in *; simpl; [assumption|].
      pose proof (Z.mod_pos_bound (size_t_wrap (idx + 1))
                    (Z.of_nat (length (segments (pool w)))) ltac:(lia)). lia.
    + reflexivity.
    + apply step_keeps; [reflexivity | intros j; reflexivity].
  - (* the call has returned *)
    inversion Hstep; subst. split; [exact Hwf|]. split; [reflexivity|].
    apply step_keeps; [reflexivity | intros j; reflexivity].
  - (* the destructor *)
    specialize (Hheld off eq_refl).
    assert (Hoff : index_of off = off).
    { unfold index_of. apply size_t_wrap_small.
      destruct Hwf as [Hmax _]. unfold vector_max_size in Hmax. lia. }
    rewrite thread_step_destroy in Hstep by (rewrite Hoff; apply in_array; exact Hheld).
    inversion Hstep; subst pc' w'. simpl.
    split; [|split].
    + destruct Hwf as [Hmax Hh]. split; unfold size in *; simpl;
        rewrite length_alter; assumption.
    + unfold size. simpl. rewrite length_alter. reflexivity.
    + apply step_keeps; [reflexivity|]. intros j. apply same_flag_alter_memory.
  - (* the store that frees the slot *)
    specialize (Hheld off eq_refl).
    assert (Hoff : index_of off = off).
    { unfold index_of. apply size_t_wrap_small.
      destruct Hwf as [Hmax _]. unfold vector_max_size in Hmax. lia. }
    rewrite thread_step_free in Hstep by (rewrite Hoff; apply in_array; exact Hheld).
    inversion Hstep; subst pc' w'. simpl.
    rewrite Hoff.
    split; [|split].
    + destruct Hwf as [Hmax Hh]. split; unfold size in *; simpl;
        rewrite length_alter; assumption.
    + unfold size. simpl. rewrite length_alter. reflexivity.
    + apply (step_frees _ _ _ _ off); try reflexivity.
      intros j Hj Hne. apply same_flag_alter_other; lia.
Qed.

Lemma occupied_same_flag (p p' : LockFreeMemoryPool) (j : Z) :
  same_flag p p' j -> occupied_at p j -> occupied_at p' j.
Proof. unfold same_flag, occupied_at. intros -> H. exact H. Qed.

Lemma free_not_occupied (p : LockFreeMemoryPool) (i j : Z) :
  free_at p i -> occupied_at p j -> j <> i.
Proof. unfold free_at, occupied_at. intros Hf Ho ->. congruence. Qed.

(** The invariant goes through every change of one thread that is a
    [step_effect]. *)
Lemma exclusive_update (s : System) (t : nat) (pc pc' : Pc) (w' : World) :
  exclusive s ->
  threads s !! t = Some pc ->
  pool_wf (pool w') ->
  size (pool w') = size (pool (world s)) ->
  step_effect pc (pool (world s)) pc' (pool w') ->
  exclusive (mkSystem w' (<[t := pc']> (threads s))).
Proof.
  intros [Hwf [Hocc Hex]] Ht Hwf' Hsize Heff.
  split; [exact Hwf'|]. simpl. split.
  - (* what is held is a slot of the pool, and occupied *)
    intros u q idx Hu Hq. rewrite Hsize.
    apply list_lookup_insert_Some in Hu.
    destruct Hu as [[<- [<- _]] | [Hne Hu]].
    + destruct Heff as [Hh Hsame | i Hnone Hsome Hi Hfree Hocc' Hsame | i Hsome Hnone Hsame].
      * rewrite Hh in Hq. destruct (Hocc t pc idx Ht Hq) as [Hr Ho].
        split; [exact Hr|]. eapply occupied_same_flag; [apply Hsame | exact Ho].
      * assert (idx = i) by congruence. subst idx. split; assumption.
      * congruence.
    + destruct (Hocc u q idx Hu Hq) as [Hr Ho]. split; [exact Hr|].
      destruct Heff as [Hh Hsame | i Hnone Hsome Hi Hfree Hocc' Hsame | i Hsome Hnone Hsame].
      * eapply occupied_same_flag; [apply Hsame | exact Ho].
      * eapply occupied_same_flag; [apply Hsame | exact Ho]; [lia|].
        eapply free_not_occupied; eassumption.
      * eapply occupied_same_flag; [apply Hsame | exact Ho]; [lia|].
        intros ->. exact (Hex t u pc q i Hne Ht Hu Hsome Hq).
  - (* no slot is held twice *)
    intros u u' q q' idx Hne Hu Hu' Hq Hq'.
    apply list_lookup_insert_Some in Hu. apply list_lookup_insert_Some in Hu'.
    destruct Hu as [[<- [<- _]] | [Hnu Hu]]; destruct Hu' as [[<- [<- _]] | [Hnu' Hu']].
    + congruence.
    + destruct Heff as [Hh Hsame | i Hnone Hsome Hi Hfree Hocc' Hsame | i Hsome Hnone Hsame].
      * rewrite Hh in Hq. exact (Hex t u' pc q' idx Hnu' Ht Hu' Hq Hq').
      * assert (idx = i) by congruence. subst idx.
        destruct (Hocc u' q' i Hu' Hq') as [_ Ho].
        exact (free_not_occupied _ _ _ Hfree Ho eq_refl).
      * congruence.
    + destruct Heff as [Hh Hsame | i Hnone Hsome Hi Hfree Hocc' Hsame | i Hsome Hnone Hsame].
      * rewrite Hh in Hq'. exact (Hex u t q pc idx Hne Hu Ht Hq Hq').
      * assert (idx = i) by congruence. subst idx.
        destruct (Hocc u q i Hu Hq) as [_ Ho].
        exact (free_not_occupied _ _ _ Hfree Ho eq_refl).
      * congruence.
    + exact (Hex u u' q q' idx Hne Hu Hu' Hq Hq').
Qed.

Theorem exclusive_step (s s' : System) :
  exclusive s -> sys_step s s' -> exclusive s'.
Proof.
  intros Hex Hstep.
  destruct Hstep as [t pc pc' w' Ht Hrun Hts | t pc args Ht Hrun Hnone | t idx Ht].
  - destruct Hex as [Hwf [Hocc Hx]].
    destruct (thread_step_effect pc pc' (world s) w' Hts Hwf) as [Hwf' [Hsize Heff]].
    { intros i Hi. exact (proj1 (Hocc t pc i Ht Hi)). }
    apply (exclusive_update s t pc pc' w'); try assumption.
    split; [exact Hwf | split; assumption].
  - apply (exclusive_update s t pc (PcStart args) (world s)); try assumption.
    + exact (proj1 Hex).
    + reflexivity.
    + apply step_keeps; [simpl; congruence | intros j; reflexivity].
  - apply (exclusive_update s t (PcDone (Returned (slot_ptr idx))) (PcDestroy idx)
             (world s)); try assumption.
    + exact (proj1 Hex).
    + reflexivity.
    + apply step_keeps; [reflexivity | intros j; reflexivity].
Qed.

Theorem exclusive_initial (s : System) : initial s -> exclusive s.
Proof.
  intros [Hwf Hidle]. split; [exact Hwf|].
  rewrite Forall_lookup in Hidle. split.
  - intros t pc idx Ht Hh. rewrite (Hidle t pc Ht) in Hh. discriminate.
  - intros t t' pc pc' idx _ Ht _ Hh. rewrite (Hidle t pc Ht) in Hh. discriminate.
Qed.

Theorem exclusive_reachable (s0 s : System) :
  initial s0 -> sys_steps s0 s -> exclusive s.
Proof.
  intros Hinit Hsteps. induction Hsteps as [s | s1 s2 s3 H12 IH H23].
  - apply exclusive_initial. exact Hinit.
  - eapply exclusive_step; [apply IH; exact Hinit | exact H23].
Qed.

(** X18.  No aliasing under every interleaving: in a system that started
    with a pool and threads outside of it, two threads that hold a pointer
    from [allocate_fast] hold pointers to different slots, and both slots
    are occupied. *)
Theorem no_aliasing_interleaved (s0 s : System) (t t' : nat) (i j : Z) :
  initial s0 ->
  sys_steps s0 s ->
  t <> t' ->
  threads s !! t = Some (PcDone (Returned (slot_ptr i))) ->
  threads s !! t' = Some (PcDone (Returned (slot_ptr j))) ->
  i <> j /\
  occupied_at (pool (world s)) i /\ occupied_at (pool (world s)) j.
Proof.
  intros Hinit Hsteps Hne Ht Ht'.
  destruct (exclusive_reachable s0 s Hinit Hsteps) as [_ [Hocc Hex]].
  split; [|split].
  - intros ->. exact (Hex t t' _ _ j Hne Ht Ht' eq_refl eq_refl).
  - exact (proj2 (Hocc t _ i Ht eq_refl)).
  - exact (proj2 (Hocc t' _ j Ht' eq_refl)).
Qed.

Lemma sys_steps_first (s1 s2 s3 : System) :
  sys_step s1 s2 -> sys_steps s2 s3 -> sys_steps s1 s3.
Proof.
  intros H12 H23. induction H23 as [s | sa sb sc Hab IH Hbc].
  - eapply sys_steps_step; [apply sys_steps_refl | exact H12].
  - eapply sys_steps_step; [apply IH; exact H12 | exact Hbc].
Qed.

(** * Further properties of the pool *)

(** ** The constructor *)

(** X1.  The constructor ends in one of three ways.  A size above the
    [max_size()] of the vector of segments makes it throw
    [std::length_error]; a size it accepts for which the allocator has no
    memory makes it throw [std::bad_alloc]; otherwise it returns.  A pool the
    constructor returned has that many slots, all of them free and without an
    object, and the hint at 0; its snapshot counts every slot as free. *)
Theorem constructor_all_free (n : Z) :
  0 <= n ->
  (segments_max_size < n -> LockFreeMemoryPool_ctor n = Thrown length_error) /\
  (0 < n <= segments_max_size ->
   operator_new (n * Z.pos sizeof_Segment) = false ->
   LockFreeMemoryPool_ctor n = Thrown bad_alloc) /\
  (n <= segments_max_size ->
   n = 0 \/ operator_new (n * Z.pos sizeof_Segment) = true ->
   exists p, LockFreeMemoryPool_ctor n = Returned p) /\
  (forall p,
     LockFreeMemoryPool_ctor n = Returned p ->
     n <= segments_max_size /\
     size p = n /\
     search_start p = 0 /\
     pool_wf p /\
     (forall i, 0 <= i < n -> slot p i = Some (mkSegment None true)) /\
     free_slots p = Z.to_nat n /\
     occupied_slots p = 0%nat /\
     (forall o t, exists s w',
         get_pool_stats_impl (mkWorld p o t) = (Returned s, w') /\
         total_objects s = n /\ free_objects s = n /\ used_objects s = 0)).
Proof.
  intros Hn.
  pose proof (LockFreeMemoryPool_ctor_cases n Hn) as Hcases.
  pose proof segments_max_size_range as Hmax.
  split; [|split; [|split]].
  - intros Hgt. destruct Hcases as [[_ Hc] | [[Hr _] | [Hr _]]]; [exact Hc | lia | lia].
  - intros Hr Hno.
    destruct Hcases as [[Hgt _] | [[_ [_ Hc]] | [_ [[-> | Hyes] _]]]];
      [lia | exact Hc | lia | congruence].
  - intros Hle Hnew. eexists. apply LockFreeMemoryPool_ctor_eq; [lia | exact Hnew].
  - intros p Hp.
    destruct (LockFreeMemoryPool_ctor_inv n p Hn Hp) as [-> Hle].
    destruct (fresh_pool_facts (Z.to_nat n)) as [Hsize [Hfree [Hocc Hwf]]].
    simpl in Hsize, Hfree, Hocc, Hwf.
    split; [exact Hle|]. split; [rewrite Hsize; lia|]. split; [reflexivity|].
    split; [apply Hwf; lia|]. split; [|split; [exact Hfree|split; [exact Hocc|]]].
    + intros i Hi. unfold slot. simpl. apply lookup_replicate_2. lia.
    + intros o t. rewrite get_pool_stats_impl_eq.
      * eexists _, _. split; [reflexivity|]. simpl. rewrite Hsize, Hfree. lia.
      * simpl. rewrite Hsize. unfold vector_max_size in Hmax. lia.
Qed.

(** ** The scoped form never throws *)

(** X2.  [allocate_safe] returns a handle on every constructed pool: it
    throws nothing, whatever the constructor does.  It leaves the world as
    [allocate_fast] leaves it; the handle holds the pointer [allocate_fast]
    returned, with the deleter bound to the pool, and is empty when
    [allocate_fast] returned [nullptr] or threw. *)
Theorem allocate_safe_noexcept (args : Args) (w : World) :
  pool_wf (pool w) ->
  exists h,
    allocate_safe args w = (Returned h, snd (allocate_fast args w)) /\
    match fst (allocate_fast args w) with
    | Returned (slot_ptr i) => h = mk_unique_ptr (slot_ptr i) (mkPoolDeleter true)
    | _ => h = unique_ptr_null
    end.
Proof.
  intros Hwf. rewrite allocate_safe_of_fast.
  destruct (allocate_fast_cases args w Hwf)
    as [[o' [t' Ha]] | [[o' [t' [Hc Ha]]] | [i [v [o' [t' [Hc [Hi [Hf Ha]]]]]]]]];
    rewrite Ha; simpl; eexists; split; reflexivity.
Qed.

(** ** Release *)

Lemma index_of_slot (p : LockFreeMemoryPool) (i : Z) :
  pool_wf p -> 0 <= i < size p -> index_of i = i.
Proof.
  intros [Hmax _] Hi. unfold index_of. apply size_t_wrap_small.
  unfold vector_max_size in Hmax. lia.
Qed.

Lemma slot_released_same (p : LockFreeMemoryPool) (i : Z) (seg : Segment) :
  slot p i = Some seg ->
  slot (released_pool p i) i = Some (mkSegment None true).
Proof.
  intros Hs. unfold slot, released_pool in *. simpl.
  rewrite !list_lookup_alter_eq, Hs. reflexivity.
Qed.

Lemma released_pool_twice (p : LockFreeMemoryPool) (i : Z) :
  released_pool (released_pool p i) i = released_pool p i.
Proof.
  unfold released_pool. simpl. f_equal. apply list_eq. intros j.
  destruct (decide (Z.to_nat i = j)) as [<-|Hne].
  - rewrite !list_lookup_alter_eq.
    destruct (segments p !! Z.to_nat i); reflexivity.
  - rewrite !list_lookup_alter_ne by exact Hne. reflexivity.
Qed.

Lemma deallocate_fast_held (i : Z) (w : World) :
  pool_wf (pool w) ->
  0 <= i < size (pool w) ->
  deallocate_fast (slot_ptr i) w =
  (Returned tt,
   mkWorld (released_pool (pool w) i) (spurious w)
           (trace w ++ [EvDestroy i; release_store i])).
Proof.
  intros Hwf Hi. rewrite deallocate_fast_slot.
  - rewrite (index_of_slot (pool w) i Hwf Hi). reflexivity.
  - rewrite (index_of_slot (pool w) i Hwf Hi). apply in_array. exact Hi.
Qed.

(** X3.  [deallocate_fast] on the pointer to a slot of the pool that holds
    an object returns normally, after the destructor call and then the
    release store on that slot: the slot is free and without an object; no
    other slot, not the hint and not the capacity change. *)
Theorem deallocate_fast_effect (i : Z) (v : T) (w : World) :
  pool_wf (pool w) ->
  0 <= i < capacity w ->
  slot (pool w) i = Some (mkSegment (Some v) false) ->
  let w1 := snd (deallocate_fast (slot_ptr i) w) in
  fst (deallocate_fast (slot_ptr i) w) = Returned tt /\
  slot (pool w1) i = Some (mkSegment None true) /\
  (forall j, 0 <= j -> j <> i -> slot (pool w1) j = slot (pool w) j) /\
  search_start (pool w1) = search_start (pool w) /\
  capacity w1 = capacity w /\
  spurious w1 = spurious w /\
  trace w1 = trace w ++ [EvDestroy i; EvStoreFlag i memory_order_release true].
Proof.
  intros Hwf Hi Hseg w1. unfold capacity in *.
  unfold w1. rewrite (deallocate_fast_held i w Hwf Hi). cbn [fst snd pool spurious trace].
  split; [reflexivity|]. split; [eapply slot_released_same; exact Hseg|].
  split; [intros j Hj Hne; apply slot_released_other; lia|].
  split; [reflexivity|]. split; [apply size_released|].
  split; reflexivity.
Qed.

(** ** Round trips *)

Lemma flags_insert_same (l : list bool) (i : nat) (b : bool) :
  l !! i = Some b -> <[i := b]> l = l.
Proof. apply list_insert_id. Qed.

(** Claiming slot [i] and releasing it gives back the flags there were. *)
Lemma claim_release (p : LockFreeMemoryPool) (i : Z) (v : T) :
  0 <= i < size p ->
  free_at p i ->
  let p' := released_pool (pool_after_claim p i v) i in
  flags p' = flags p /\
  slot p' i = Some (mkSegment None true) /\
  (forall j, 0 <= j -> j <> i -> slot p' j = slot p j) /\
  search_start p' = (i + 1) mod size p.
Proof.
  intros Hi Hf p'. split; [|split; [|split]].
  - unfold p', flags, released_pool, pool_after_claim. simpl.
    apply list_eq. intros j. rewrite !list_lookup_fmap.
    destruct (decide (Z.to_nat i = j)) as [<-|Hne].
    + rewrite !list_lookup_alter_eq.
      rewrite list_lookup_insert_eq by (unfold size in Hi; lia). simpl.
      unfold free_at, slot in Hf. symmetry. exact Hf.
    + rewrite !list_lookup_alter_ne by exact Hne.
      rewrite list_lookup_insert_ne by exact Hne. reflexivity.
  - unfold p'. eapply slot_released_same. apply slot_after_claim_same. exact Hi.
  - intros j Hj Hne. unfold p'.
    rewrite slot_released_other by lia. apply slot_after_claim_other; lia.
  - reflexivity.
Qed.

(** X4.  An allocation followed by the release of the pointer it returned
    gives back the flags of all slots as they were before the allocation
    (as many free slots as before); slot [i] is free and without an object,
    the other slots are untouched, and the hint is one past slot [i]. *)
Theorem allocate_deallocate_round_trip (args : Args) (w w1 : World) (i : Z) :
  pool_wf (pool w) ->
  allocate_fast args w = (Returned (slot_ptr i), w1) ->
  let w2 := snd (deallocate_fast (slot_ptr i) w1) in
  fst (deallocate_fast (slot_ptr i) w1) = Returned tt /\
  flags (pool w2) = flags (pool w) /\
  free_slots (pool w2) = free_slots (pool w) /\
  slot (pool w2) i = Some (mkSegment None true) /\
  (forall j, 0 <= j -> j <> i -> slot (pool w2) j = slot (pool w) j) /\
  search_start (pool w2) = (i + 1) mod capacity w.
Proof.
  intros Hwf Ha.
  destruct (allocate_fast_cases args w Hwf)
    as [[o' [t' Ha']] | [[o' [t' [Hc Ha']]] | [i' [v [o' [t' [Hc [Hi [Hf Ha']]]]]]]]];
    rewrite Ha' in Ha; inversion Ha; subst i' w1.
  rewrite deallocate_fast_held;
    [| apply wf_after_claim; [exact Hwf | lia]
     | simpl; rewrite size_after_claim; exact Hi].
  simpl.
  destruct (claim_release (pool w) i v Hi Hf) as [Hfl [Hs [Hother Hh]]].
  split; [reflexivity|]. split; [exact Hfl|].
  split; [unfold free_slots; rewrite Hfl; reflexivity|].
  split; [exact Hs|]. split; [exact Hother | exact Hh].
Qed.

(** X5.  The scoped handle gives its slot back.  The drop of the handle
    that [allocate_safe] returned restores the flags of all slots as they
    were before the allocation and leaves the slot without an object; the
    drop of an empty handle changes nothing at all. *)
Theorem scoped_handle_round_trip (args : Args) (w w1 : World) (h : unique_ptr_type) :
  pool_wf (pool w) ->
  allocate_safe args w = (Returned h, w1) ->
  fst (unique_ptr_dtor h w1) = Returned tt /\
  flags (pool (snd (unique_ptr_dtor h w1))) = flags (pool w) /\
  (get h = nullptr -> unique_ptr_dtor h w1 = (Returned tt, w1)) /\
  (forall i, get h = slot_ptr i ->
     slot (pool (snd (unique_ptr_dtor h w1))) i = Some (mkSegment None true)).
Proof.
  intros Hwf Ha. rewrite allocate_safe_of_fast in Ha.
  destruct (allocate_fast_cases args w Hwf)
    as [[o' [t' Ha']] | [[o' [t' [Hc Ha']]] | [i [v [o' [t' [Hc [Hi [Hf Ha']]]]]]]]];
    rewrite Ha' in Ha; simpl in Ha; inversion Ha; subst h w1.
  - repeat split; intros; discriminate.
  - repeat split; intros; discriminate.
  - rewrite unique_ptr_dtor_eq. cbn [get get_deleter deleter_pool].
    rewrite deallocate_fast_held;
      [| apply wf_after_claim; [exact Hwf | lia]
       | simpl; rewrite size_after_claim; exact Hi].
    simpl.
    destruct (claim_release (pool w) i v Hi Hf) as [Hfl [Hs [Hother Hh]]].
    split; [reflexivity|]. split; [exact Hfl|]. split; [intros; discriminate|].
    intros j Hj. inversion Hj; subst j. exact Hs.
Qed.

(** ** Live objects stay where they are *)

(** X6.  An object in an occupied slot is neither moved nor overwritten:
    through every sequence of operations that does not release slot [j],
    the slot keeps the very object it held, and stays occupied. *)
Theorem live_object_intact (w : World) (ops : list Op) (j : Z) (seg : Segment) :
  pool_wf (pool w) ->
  0 <= j ->
  slot (pool w) j = Some seg ->
  available seg = false ->
  Forall (fun o => slot_released o <> Some j) ops ->
  slot (pool (snd (run ops w))) j = Some seg.
Proof.
  revert w. induction ops as [|o ops IH]; intros w Hwf Hj Hs Ha Hall; [exact Hs|].
  apply Forall_cons in Hall. destruct Hall as [Ho Hall].
  rewrite run_cons. simpl.
  pose proof (perform_effect o w Hwf) as He.
  apply IH; try assumption.
  - eapply effect_wf; eassumption.
  - destruct He as [-> _ | i v _ Hi Hf -> _ | idx Hr Hidx -> _].
    + exact Hs.
    + rewrite slot_after_claim_other; [exact Hs | lia | lia |].
      intros ->. unfold free_at in Hf. rewrite Hs in Hf. simpl in Hf. congruence.
    + rewrite slot_released_other; [exact Hs | lia | lia | congruence].
Qed.

(** ** Exhaustion *)

Lemma free_slots_pos (p : LockFreeMemoryPool) (i : Z) :
  0 <= i < size p -> free_at p i -> (0 < free_slots p)%nat.
Proof.
  intros Hi Hf. destruct (free_slots p) eqn:H0; [|lia].
  pose proof (all_occupied p i H0 Hi) as Ho.
  unfold free_at, occupied_at in *. congruence.
Qed.

(** X7.  When no compare-exchange fails spuriously three times in a
    row, [allocate_fast] returns [nullptr] exactly when no slot is free.
    (On a pool without a free slot it returns [nullptr] whatever the
    compare-exchanges do.) *)
Theorem exhaustion_iff_full (args : Args) (w : World) :
  pool_wf (pool w) ->
  cas_reliable (spurious w) = true ->
  (fst (allocate_fast args w) = Returned nullptr <-> free_slots (pool w) = 0%nat).
Proof.
  intros Hwf Hrel. split.
  - intros Hnull. destruct (free_slots (pool w)) eqn:Hfree; [reflexivity|].
    exfalso.
    destruct (scan_finds args w Hwf Hrel ltac:(lia)) as [evs [i [o' [_ [_ Ha]]]]].
    rewrite Ha in Hnull. unfold allocation_outcome, scan_outcome in Hnull.
    destruct (T_ctor args); simpl in Hnull; discriminate.
  - intros H0. destruct (allocate_fast_full args w Hwf H0) as [t' Ha].
    rewrite Ha. reflexivity.
Qed.

(** X8.  On a pool without a free slot, the release of slot [i] is what
    makes the next allocation succeed, and that allocation gets slot [i]
    (when its constructor succeeds and no compare-exchange fails spuriously
    three times in a row). *)
Theorem released_slot_reused (args : Args) (v : T) (w : World) (i : Z) :
  pool_wf (pool w) ->
  0 <= i < capacity w ->
  free_slots (pool w) = 0%nat ->
  T_ctor args = Some v ->
  cas_reliable (spurious w) = true ->
  fst (allocate_fast args w) = Returned nullptr /\
  fst (allocate_fast args (snd (deallocate_fast (slot_ptr i) w))) =
    Returned (slot_ptr i).
Proof.
  intros Hwf Hi H0 Hv Hrel. unfold capacity in Hi. split.
  { destruct (allocate_fast_full args w Hwf H0) as [t' Ha]. rewrite Ha. reflexivity. }
  rewrite (deallocate_fast_held i w Hwf Hi). cbn [snd].
  set (w1 := mkWorld (released_pool (pool w) i) (spurious w) _).
  assert (Hwf1 : pool_wf (pool w1)) by (apply wf_released; exact Hwf).
  destruct (slot_in_range (pool w) i Hi) as [seg Hseg].
  assert (Hfi : free_at (pool w1) i).
  { unfold free_at. simpl. rewrite (slot_released_same _ _ _ Hseg). reflexivity. }
  assert (Hsz : size (pool w1) = size (pool w)) by apply size_released.
  assert (Hpos : (0 < free_slots (pool w1))%nat).
  { apply (free_slots_pos _ i); [rewrite Hsz; exact Hi | exact Hfi]. }
  destruct (allocate_fast_reliable args v w1 Hwf1 Hv Hrel Hpos)
    as [i' [o' [t' [Hi' [Hf' [_ Ha]]]]]].
  rewrite Ha. simpl. destruct (Z.eq_dec i' i) as [->|Hne]; [reflexivity|].
  exfalso. rewrite Hsz in Hi'.
  pose proof (all_occupied (pool w) i' H0 Hi') as Hocc.
  unfold free_at, occupied_at in *. simpl in Hf'.
  rewrite slot_released_other in Hf' by lia. congruence.
Qed.

(** ** The order in which a new pool is filled *)

Lemma filled_to_fresh (n : nat) :
  filled_to (mkPool (replicate n default_Segment) 0) 0.
Proof.
  split; [|split].
  - simpl. rewrite Z.mod_0_l; [reflexivity|]. lia.
  - intros j Hj. lia.
  - intros j Hj. unfold free_at, slot, size in *. simpl in *.
    rewrite length_replicate in Hj.
    rewrite lookup_replicate_2 by lia. reflexivity.
Qed.

Lemma alloc_next_slot (o : Op) (w : World) (k : Z) :
  pool_wf (pool w) ->
  filled_to (pool w) k ->
  0 <= k < capacity w ->
  cas_reliable (spurious w) = true ->
  constructs o ->
  slot_handed (fst (perform o w)) = Some k /\
  pool_wf (pool (snd (perform o w))) /\
  capacity (snd (perform o w)) = capacity w /\
  filled_to (pool (snd (perform o w))) (k + 1) /\
  cas_reliable (spurious (snd (perform o w))) = true.
Proof.
  intros Hwf [Hh [Hocc Hfree]] Hk Hrel Hc. unfold capacity in *.
  assert (Hfk : free_at (pool w) k) by (apply Hfree; lia).
  assert (Hpos : (0 < free_slots (pool w))%nat) by (eapply free_slots_pos; eassumption).
  assert (Hstart : search_start (pool w) = k).
  { rewrite Hh. rewrite Z.max_r by lia. apply Z.mod_small. exact Hk. }
  assert (Hclaim : forall args v, T_ctor args = Some v ->
            exists o' t',
              cas_reliable o' = true /\
              allocate_fast args w =
              (Returned (slot_ptr k), mkWorld (pool_after_claim (pool w) k v) o' t')).
  { intros args v Hv.
    destruct (scan_finds args w Hwf Hrel Hpos) as [evs [i [o' [Hscan [Hrel' Ha]]]]].
    destruct (scan_reliable_first _ _ _ _ _ _ _ Hscan Hrel i eq_refl)
      as [k' [Hk' [Hi Hbefore]]].
    assert (Hik : i = k).
    { destruct (Z.eq_dec k' 0) as [->|Hne].
      - rewrite Hi, Hstart. unfold probe. rewrite Z.add_0_r.
        apply Z.mod_small. exact Hk.
      - exfalso. specialize (Hbefore 0 ltac:(lia)).
        rewrite Hstart in Hbefore. unfold probe in Hbefore.
        rewrite Z.add_0_r, Z.mod_small in Hbefore by exact Hk.
        unfold free_at, occupied_at in *. congruence. }
    clear Hi Hbefore Hscan. subst i.
    rewrite Ha. unfold allocation_outcome, scan_outcome. rewrite Hv.
    simpl. eexists _, _. split; [exact Hrel' | reflexivity]. }
  assert (Hfilled : forall v, filled_to (pool_after_claim (pool w) k v) (k + 1)).
  { intros v. split; [|split].
    - rewrite size_after_claim. rewrite Z.max_r by lia. reflexivity.
    - intros j Hj. unfold occupied_at. destruct (Z.eq_dec j k) as [->|Hne].
      + rewrite slot_after_claim_same by exact Hk. reflexivity.
      + rewrite slot_after_claim_other by lia. apply Hocc. lia.
    - intros j Hj. rewrite size_after_claim in Hj. unfold free_at.
      rewrite slot_after_claim_other by lia. apply Hfree. lia. }
  destruct o as [args | args | | |]; simpl in Hc; try contradiction;
    destruct (T_ctor args) as [v|] eqn:Hv; try congruence;
    destruct (Hclaim args v Hv) as [o' [t' [Hrel' Ha]]];
    unfold perform, bind; rewrite ?allocate_safe_of_fast; rewrite Ha; simpl;
    (split; [reflexivity|]);
    (split; [apply wf_after_claim; [exact Hwf | lia]|]);
    (split; [apply size_after_claim|]);
    (split; [apply Hfilled | exact Hrel']).
Qed.

Lemma fill_from (ops : list Op) :
  forall (w : World) (k : Z),
  pool_wf (pool w) ->
  filled_to (pool w) k ->
  0 <= k ->
  k + Z.of_nat (length ops) <= capacity w ->
  cas_reliable (spurious w) = true ->
  Forall constructs ops ->
  slot_handed <$> fst (run ops w) = Some <$> seqZ k (Z.of_nat (length ops)).
Proof.
  induction ops as [|o ops IH]; intros w k Hwf Hfill Hk Hlen Hrel Hall; [reflexivity|].
  apply Forall_cons in Hall. destruct Hall as [Ho Hall].
  simpl length in *.
  destruct (alloc_next_slot o w k Hwf Hfill ltac:(lia) Hrel Ho)
    as [Hr [Hwf' [Hcap [Hfill' Hrel']]]].
  rewrite run_cons. cbn [fst].
  rewrite seqZ_cons by lia. rewrite !fmap_cons. rewrite Hr. f_equal.
  replace (Z.pred (Z.of_nat (S (length ops)))) with (Z.of_nat (length ops)) by lia.
  replace (Z.succ k) with (k + 1) by lia.
  apply IH; try assumption; lia.
Qed.

(** X9.  A new pool is filled from slot 0 upwards: when every
    constructor call succeeds and no compare-exchange fails spuriously three
    times in a row, the [k]-th allocation of a run of at most N allocations
    (raw or scoped) on a new pool of N slots is handed slot [k - 1]. *)
Theorem fresh_pool_fills_in_order (n : Z) (schedule : list bool) (w : World)
    (ops : list Op) :
  0 <= n ->
  fresh_world n schedule = Returned w ->
  cas_reliable schedule = true ->
  Forall constructs ops ->
  Z.of_nat (length ops) <= n ->
  slot_handed <$> fst (run ops w) = Some <$> seqZ 0 (Z.of_nat (length ops)).
Proof.
  intros Hn Hw Hrel Hall Hlen.
  destruct (fresh_world_inv n schedule w Hn Hw) as [-> Hmax].
  destruct (fresh_pool_facts (Z.to_nat n)) as [Hsize [_ [_ Hwf]]].
  apply fill_from; try assumption.
  - apply Hwf. lia.
  - apply filled_to_fresh.
  - lia.
  - unfold capacity. simpl pool. simpl in Hsize. rewrite Hsize. lia.
Qed.

(** ** Counting the slots in use *)

Lemma flags_released (p : LockFreeMemoryPool) (i : Z) :
  flags (released_pool p i) = alter (fun _ => true) (Z.to_nat i) (flags p).
Proof.
  unfold flags, released_pool. simpl. apply list_eq. intros j.
  rewrite list_lookup_fmap.
  destruct (decide (Z.to_nat i = j)) as [<-|Hne].
  - rewrite !list_lookup_alter_eq, list_lookup_fmap.
    destruct (segments p !! Z.to_nat i); reflexivity.
  - rewrite !list_lookup_alter_ne by exact Hne.
    rewrite list_lookup_fmap. reflexivity.
Qed.

Lemma count_alter_true (l : list bool) (i : nat) :
  l !! i = Some false ->
  count_true (alter (fun _ => true) i l) = S (count_true l) /\
  S (count_false (alter (fun _ => true) i l)) = count_false l.
Proof.
  revert i. induction l as [|b l IH]; intros [|i] H; simpl in H; try discriminate.
  - inversion H; subst. simpl. rewrite !count_false_cons, !count_true_cons. lia.
  - destruct (IH i H) as [H1 H2].
    change (alter (fun _ : bool => true) (S i) (b :: l))
      with (b :: alter (fun _ : bool => true) i l).
    rewrite !count_false_cons, !count_true_cons. lia.
Qed.

Lemma alter_true_id (l : list bool) (i : nat) :
  l !! i <> Some false -> alter (fun _ => true) i l = l.
Proof.
  intros H. apply list_eq. intros j.
  destruct (decide (i = j)) as [<-|Hne].
  - rewrite list_lookup_alter_eq. destruct (l !! i) as [[|]|]; simpl; congruence.
  - rewrite list_lookup_alter_ne by exact Hne. reflexivity.
Qed.

Lemma slot_released_is_release (o : Op) (idx : Z) :
  slot_released o = Some idx -> is_allocation o = false /\ o <> OpStats /\ 0 <= idx.
Proof.
  destruct o as [args | args | elem | h |]; try discriminate; intros H;
    (split; [reflexivity|]); (split; [discriminate|]).
  - destruct elem; try discriminate. inversion H. apply index_of_nonneg.
  - simpl in H. destruct (get h); try discriminate.
    destruct (deleter_pool (get_deleter h)); try discriminate.
    inversion H. apply index_of_nonneg.
Qed.

Lemma perform_release (o : Op) (w : World) (idx : Z) :
  slot_released o = Some idx ->
  idx < size (pool w) ->
  fst (perform o w) = Returned ResUnit /\
  pool (snd (perform o w)) = released_pool (pool w) idx.
Proof.
  intros H Hlt. destruct (slot_released_is_release o idx H) as [Hal [Hst _]].
  destruct (release_cases o w Hal Hst) as [[idx' [Hr [_ He]]] | [_ [_ [_ Hout]]]].
  - rewrite He. assert (idx' = idx) by congruence. subst idx'. split; reflexivity.
  - specialize (Hout idx H). lia.
Qed.

Lemma occupied_in_range (p : LockFreeMemoryPool) (i : Z) :
  0 <= i -> occupied_at p i -> 0 <= i < size p.
Proof.
  intros Hi Ho. unfold occupied_at in Ho.
  destruct (slot p i) as [seg|] eqn:Hs; [|discriminate].
  eapply slot_Some_range; eassumption.
Qed.

Lemma perform_no_release (o : Op) (w : World) :
  pool_wf (pool w) ->
  slot_released o = None ->
  (slot_handed (fst (perform o w)) = None /\ pool (snd (perform o w)) = pool w) \/
  (exists i v,
      slot_handed (fst (perform o w)) = Some i /\
      0 <= i < size (pool w) /\ free_at (pool w) i /\
      pool (snd (perform o w)) = pool_after_claim (pool w) i v).
Proof.
  intros Hwf Hrel.
  destruct (perform_effect o w Hwf) as [Hp Hh | i v _ Hi Hf Hp Hh | idx Hr _ _ _].
  - left. split; assumption.
  - right. exists i, v. repeat split; try assumption; lia.
  - congruence.
Qed.

Lemma released_counts (p : LockFreeMemoryPool) (i : Z) :
  occupied_at p i ->
  S (occupied_slots (released_pool p i)) = occupied_slots p /\
  free_slots (released_pool p i) = S (free_slots p).
Proof.
  intros Ho. unfold occupied_slots, free_slots. rewrite flags_released.
  assert (Hl : flags p !! Z.to_nat i = Some false)
    by (rewrite flags_lookup; exact Ho).
  destruct (count_alter_true _ _ Hl) as [H1 H2]. split; assumption.
Qed.

(** X11.  What one operation does to the number of slots in use.  An
    operation that hands out a slot makes one more slot occupied and one
    fewer free; the release of an occupied slot makes one fewer occupied and
    one more free; an operation that neither hands out nor releases a slot
    (an allocation that fails, a release of the null pointer or of a handle
    with nothing to release, a snapshot) leaves the pool as it was. *)
Theorem operation_accounting (o : Op) (w : World) :
  pool_wf (pool w) ->
  let p := pool w in
  let r := fst (perform o w) in
  let p' := pool (snd (perform o w)) in
  (forall i, slot_handed r = Some i ->
     occupied_slots p' = S (occupied_slots p) /\ S (free_slots p') = free_slots p) /\
  (forall i, slot_released o = Some i -> occupied_at p i ->
     S (occupied_slots p') = occupied_slots p /\ free_slots p' = S (free_slots p)) /\
  (slot_handed r = None -> slot_released o = None -> aims_at_segment o = true ->
   p' = p).
Proof.
  intros Hwf p r p'. split; [|split].
  - intros i Hh. unfold r, p' in *.
    destruct (perform_effect o w Hwf) as [_ Hn | i' v _ Hi Hf Hp _ | idx _ _ _ Hn];
      try congruence.
    rewrite Hp. apply free_slots_after_claim. exact Hf.
  - intros i Hrel Ho. unfold p'.
    destruct (slot_released_is_release o i Hrel) as [_ [_ Hi0]].
    pose proof (occupied_in_range _ _ Hi0 Ho) as Hi.
    rewrite (proj2 (perform_release o w i Hrel (proj2 Hi))).
    apply released_counts. exact Ho.
  - intros Hh Hrel _. unfold r, p' in *.
    destruct (perform_no_release o w Hwf Hrel) as [[_ Hp] | [i [v [Hh' _]]]];
      [exact Hp | congruence].
Qed.

Lemma filter_out_absent (l : list Z) (i : Z) :
  ~ In i l -> List.filter (fun j => negb (j =? i)) l = l.
Proof.
  induction l as [|y l IH]; intros Hn; [reflexivity|].
  simpl. destruct (Z.eqb_spec y i) as [->|Hy]; simpl.
  - exfalso. apply Hn. left. reflexivity.
  - f_equal. apply IH. intros Hc. apply Hn. right. exact Hc.
Qed.

Lemma filter_out_length (l : list Z) (i : Z) :
  NoDup l -> In i l ->
  S (length (List.filter (fun j => negb (j =? i)) l)) = length l.
Proof.
  induction 1 as [|x l Hx Hnd IH]; intros Hin; [destruct Hin|].
  rewrite list_elem_of_In in Hx.
  simpl. destruct (Z.eqb_spec x i) as [->|Hne]; simpl.
  - rewrite filter_out_absent by exact Hx. reflexivity.
  - f_equal. apply IH. destruct Hin as [->|Hin]; [congruence | exact Hin].
Qed.

Lemma books_step (o : Op) (w : World) (held : list Z) :
  pool_wf (pool w) ->
  books_ok (pool w) held ->
  (forall i, slot_released o = Some i -> In i held) ->
  books_ok (pool (snd (perform o w))) (held_after held o (fst (perform o w))).
Proof.
  intros Hwf [Hnd [Hocc Hcount]] Hdisc. unfold held_after.
  destruct (slot_released o) as [i|] eqn:Hrel.
  - specialize (Hdisc i eq_refl). destruct (Hocc i Hdisc) as [Hi Hoi].
    rewrite (proj2 (perform_release o w i Hrel
                      (proj2 (occupied_in_range _ _ Hi Hoi)))).
    split; [apply NoDup_ListNoDup, List.NoDup_filter, NoDup_ListNoDup; exact Hnd|]. split.
    + intros j Hj. apply filter_In in Hj. destruct Hj as [Hj Hne].
      destruct (Z.eqb_spec j i) as [->|Hji]; [discriminate|].
      destruct (Hocc j Hj) as [Hj0 Hoj]. split; [exact Hj0|].
      unfold occupied_at. rewrite slot_released_other by lia. exact Hoj.
    + destruct (released_counts _ _ Hoi) as [H1 _].
      pose proof (filter_out_length held i Hnd Hdisc). lia.
  - destruct (perform_no_release o w Hwf Hrel) as [[Hh Hp] | [i [v [Hh [Hi [Hf Hp]]]]]];
      rewrite Hh, Hp.
    + split; [exact Hnd | split; assumption].
    + assert (Hnew : ~ In i held).
      { intros Hin. destruct (Hocc i Hin) as [_ Ho].
        unfold free_at, occupied_at in *. congruence. }
      split; [constructor; [rewrite list_elem_of_In; exact Hnew | exact Hnd]|]. split.
      * intros j [<-|Hj].
        -- split; [lia|]. unfold occupied_at.
           rewrite slot_after_claim_same by exact Hi. reflexivity.
        -- destruct (Hocc j Hj) as [Hj0 Hoj]. split; [exact Hj0|].
           unfold occupied_at. rewrite slot_after_claim_other; [exact Hoj | lia | lia |].
           intros ->. apply Hnew. exact Hj.
      * destruct (free_slots_after_claim _ i v Hf) as [H1 _]. simpl. lia.
Qed.

Lemma held_by_cons (held : list Z) (o : Op) (ops : list Op) (w : World) :
  held_by held (o :: ops) w =
  held_by (held_after held o (fst (perform o w))) ops (snd (perform o w)).
Proof. simpl. destruct (perform o w). reflexivity. Qed.

Lemma releases_held_cons (held : list Z) (o : Op) (ops : list Op) (w : World) :
  releases_held held (o :: ops) w = true ->
  (forall i, slot_released o = Some i -> In i held) /\
  releases_held (held_after held o (fst (perform o w))) ops (snd (perform o w)) = true.
Proof.
  simpl. destruct (perform o w) as [r w1]. intros H.
  apply andb_true_iff in H. destruct H as [H1 H2]. split; [|exact H2].
  intros i Hi. rewrite Hi in H1. apply existsb_exists in H1.
  destruct H1 as [x [Hx Hix]]. apply Z.eqb_eq in Hix. subst x. exact Hx.
Qed.

Lemma books_run (ops : list Op) :
  forall (w : World) (held : list Z),
  pool_wf (pool w) ->
  books_ok (pool w) held ->
  releases_held held ops w = true ->
  books_ok (pool (snd (run ops w))) (held_by held ops w).
Proof.
  induction ops as [|o ops IH]; intros w held Hwf Hb Hd; [exact Hb|].
  apply releases_held_cons in Hd. destruct Hd as [Hd1 Hd2].
  rewrite run_cons, held_by_cons. cbn [snd].
  apply IH; [|apply books_step; assumption | exact Hd2].
  eapply effect_wf; [apply perform_effect; exact Hwf | exact Hwf].
Qed.

(** X12.  The pool agrees with the books of a client that releases only
    what it holds.  After every sequence of operations on a new pool in which
    each release (raw or through a handle) is of a slot that was handed out
    and not released since, the slots handed out and not released are
    pairwise distinct and occupied, their number is the number of occupied
    slots, and the snapshot reports that number as [used_objects]; once
    everything was released it reports 0. *)
Theorem client_accounting (n : Z) (schedule : list bool) (w : World) (ops : list Op) :
  0 <= n ->
  fresh_world n schedule = Returned w ->
  releases_held [] ops w = true ->
  let w' := snd (run ops w) in
  let held := held_by [] ops w in
  NoDup held /\
  (forall i, In i held -> 0 <= i < n /\ occupied_at (pool w') i) /\
  occupied_slots (pool w') = length held /\
  exists s,
    fst (get_pool_stats_impl w') = Returned s /\
    total_objects s = n /\
    used_objects s = Z.of_nat (length held) /\
    free_objects s = n - Z.of_nat (length held).
Proof.
  intros Hn Hw Hd w' held.
  destruct (fresh_world_inv n schedule w Hn Hw) as [-> Hmax].
  destruct (fresh_pool_facts (Z.to_nat n)) as [Hsize [_ [Hocc0 Hwf]]].
  specialize (Hwf ltac:(lia)).
  set (w0 := mkWorld (mkPool (replicate (Z.to_nat n) default_Segment) 0) schedule [])
    in *.
  assert (Hb0 : books_ok (pool w0) []).
  { split; [constructor|]. split; [intros i []|]. exact Hocc0. }
  destruct (books_run ops w0 [] Hwf Hb0 Hd) as [Hnd [Hocc Hcount]].
  fold w' held in Hnd, Hocc, Hcount.
  assert (Hwf' : pool_wf (pool w')) by (apply run_wf; exact Hwf).
  assert (Hcap : size (pool w') = n).
  { pose proof (run_capacity ops w0 Hwf) as Hc. unfold capacity in Hc.
    fold w' in Hc. rewrite Hc. simpl in Hsize. simpl. rewrite Hsize. lia. }
  split; [exact Hnd|]. split; [|split; [exact Hcount|]].
  - intros i Hi. destruct (Hocc i Hi) as [Hi0 Ho]. split; [|exact Ho].
    rewrite <- Hcap. unfold occupied_at in Ho.
    destruct (slot (pool w') i) as [seg|] eqn:Hs; [|discriminate].
    eapply slot_Some_range; eassumption.
  - rewrite get_pool_stats_impl_eq
      by (destruct Hwf' as [Hm _]; unfold vector_max_size in Hm; lia).
    eexists. split; [reflexivity|]. simpl.
    pose proof (count_true_false (flags (pool w'))) as Hsum.
    fold (free_slots (pool w')) in Hsum. fold (occupied_slots (pool w')) in Hsum.
    assert (Hlen : Z.of_nat (length (flags (pool w'))) = n).
    { unfold flags. rewrite length_fmap. exact Hcap. }
    rewrite Hcap. split; [reflexivity|]. lia.
Qed.

(** ** No operation of a disciplined client goes wrong *)

Lemma perform_outcome (o : Op) (w : World) (held : list Z) :
  pool_wf (pool w) ->
  books_ok (pool w) held ->
  (forall i, slot_released o = Some i -> In i held) ->
  aims_at_segment o = true ->
  outcome_of_op o (fst (perform o w)).
Proof.
  intros Hwf [_ [Hocc _]] Hd Haim.
  assert (Hrel : forall i, slot_released o = Some i ->
                   fst (perform o w) = Returned ResUnit).
  { intros i Hi. destruct (Hocc i (Hd i Hi)) as [Hi0 Hoi].
    exact (proj1 (perform_release o w i Hi
                    (proj2 (occupied_in_range _ _ Hi0 Hoi)))). }
  destruct o as [args | args | elem | h |].
  - destruct (allocate_fast_cases args w Hwf)
      as [[o' [t' Ha]] | [[o' [t' [Hc Ha]]] | [i [v [o' [t' [Hc [Hi [Hf Ha]]]]]]]]];
      unfold perform, bind; rewrite Ha; simpl; eauto.
  - destruct (allocate_fast_cases args w Hwf)
      as [[o' [t' Ha]] | [[o' [t' [Hc Ha]]] | [i [v [o' [t' [Hc [Hi [Hf Ha]]]]]]]]];
      unfold perform, bind; rewrite allocate_safe_of_fast, Ha; simpl; exact I.
  - destruct elem as [|off|off delta].
    + exact I.
    + rewrite (Hrel (index_of off) eq_refl). exact I.
    + discriminate.
  - destruct (slot_released (OpDropHandle h)) as [i|] eqn:Hr.
    + rewrite (Hrel i eq_refl). exact I.
    + unfold perform, bind. rewrite unique_ptr_dtor_eq.
      simpl in Hr, Haim.
      destruct (get h) as [|off|off delta] eqn:Hg;
        destruct (deleter_pool (get_deleter h)); try discriminate; exact I.
  - unfold perform, bind, get_pool_stats. rewrite get_pool_stats_impl_eq.
    + exact I.
    + destruct Hwf as [Hmax _]. unfold vector_max_size in Hmax. lia.
Qed.

Lemma outcomes_run (ops : list Op) :
  forall (w : World) (held : list Z),
  pool_wf (pool w) ->
  books_ok (pool w) held ->
  releases_held held ops w = true ->
  forallb aims_at_segment ops = true ->
  Forall2 outcome_of_op ops (fst (run ops w)).
Proof.
  induction ops as [|o ops IH]; intros w held Hwf Hb Hd Haim; [constructor|].
  apply releases_held_cons in Hd. destruct Hd as [Hd1 Hd2].
  simpl in Haim. apply andb_true_iff in Haim. destruct Haim as [Ha1 Ha2].
  rewrite run_cons. cbn [fst]. constructor.
  - eapply perform_outcome; eassumption.
  - eapply IH; [|apply books_step; eassumption | exact Hd2 | exact Ha2].
    eapply effect_wf; [apply perform_effect; exact Hwf | exact Hwf].
Qed.

(** X10.  No operation of a client that keeps to the rules goes wrong.
    Take a pool the constructor returned and a sequence of operations on it
    in which every release, raw or through a handle, is given a pointer that
    was handed out and not released since (or the null pointer, or the empty
    handle).  Then each operation returns to its caller; the only exception
    that leaves the pool is the failure of T's constructor, out of
    [allocate_fast]; no operation aborts the process, divides by zero or
    reaches outside of the array of slots.  The pool keeps its capacity and
    its hint stays inside the array. *)
Theorem operations_never_fault (n : Z) (schedule : list bool) (w : World)
    (ops : list Op) :
  0 <= n ->
  fresh_world n schedule = Returned w ->
  releases_held [] ops w = true ->
  forallb aims_at_segment ops = true ->
  Forall2 outcome_of_op ops (fst (run ops w)) /\
  pool_wf (pool (snd (run ops w))) /\
  capacity (snd (run ops w)) = n.
Proof.
  intros Hn Hw Hd Haim.
  destruct (fresh_world_inv n schedule w Hn Hw) as [-> Hmax].
  destruct (fresh_pool_facts (Z.to_nat n)) as [Hsize [_ [Hocc0 Hwf]]].
  specialize (Hwf ltac:(lia)).
  set (w0 := mkWorld (mkPool (replicate (Z.to_nat n) default_Segment) 0) schedule [])
    in *.
  assert (Hb0 : books_ok (pool w0) []).
  { split; [constructor|]. split; [intros i []|]. exact Hocc0. }
  split; [|split].
  - exact (outcomes_run ops w0 [] Hwf Hb0 Hd Haim).
  - apply run_wf. exact Hwf.
  - rewrite (run_capacity ops w0 Hwf). unfold capacity. simpl in Hsize. simpl.
    rewrite Hsize. lia.
Qed.

(** ** The cost of an allocation *)

Lemma scan_length (p : LockFreeMemoryPool) (start k : Z) (o o' : list bool)
    (evs : list Event) (res : option Z) :
  claim_scan p start k o evs res o' ->
  Z.of_nat (length evs) <= max_spurious_retries * (size p - k).
Proof.
  unfold max_spurious_retries.
  induction 1 as [k o Hk | k o evs r o' Hk Ho Hs IH | k o evs r o' Hk Hf Hs IH
                  | k m o Hk Hf Hm Hh].
  - simpl. lia.
  - simpl length. lia.
  - rewrite length_app, length_replicate. unfold max_spurious_retries. lia.
  - rewrite length_app, length_replicate. simpl length.
    unfold max_spurious_retries in Hm. lia.
Qed.

(** X13.  An allocation is bounded work: whatever the compare-exchanges
    do, one call of [allocate_fast] on a pool of N slots performs at most
    3 * N compare-exchanges, and at most 3 * N + 3 accesses to the pool in
    all (the load of the hint, the compare-exchanges, the constructor call
    and the store that follows it). *)
Theorem allocate_fast_bounded (args : Args) (w : World) :
  pool_wf (pool w) ->
  exists new,
    trace (snd (allocate_fast args w)) = trace w ++ new /\
    Z.of_nat (length (List.filter is_cas new)) <= max_spurious_retries * capacity w /\
    Z.of_nat (length new) <= max_spurious_retries * capacity w + 3.
Proof.
  intros Hwf.
  destruct (Z.eq_dec (capacity w) 0) as [H0|Hn0].
  - rewrite allocate_fast_empty by exact H0. exists [hint_load w].
    split; [reflexivity|]. rewrite H0. unfold max_spurious_retries. simpl. lia.
  - assert (Hpos : 0 < capacity w) by (unfold capacity, size in *; lia).
    destruct (allocate_fast_scan args w Hwf Hpos) as [evs [res [o' [Hscan Ha]]]].
    pose proof (scan_length _ _ _ _ _ _ _ Hscan) as Hlen.
    pose proof (List.filter_length_le is_cas evs) as Hf.
    rewrite Ha. unfold allocation_outcome, scan_outcome, capacity.
    unfold max_spurious_retries in *.
    destruct res as [i|]; [destruct (T_ctor args) as [v|]|]; simpl;
      eexists; (split; [reflexivity|]); simpl;
      rewrite ?List.filter_app, ?length_app; simpl; lia.
Qed.

(** ** Threads: no step goes wrong, and every call ends *)

Lemma cas_outcome (idx : Z) (s f : memory_order) (w : World) :
  match segments (pool w) !! Z.to_nat idx with
  | None => available_compare_exchange_weak idx true false s f w = (Fault, w)
  | Some _ =>
      exists sw ex w',
        available_compare_exchange_weak idx true false s f w = (Returned (sw, ex), w') /\
        size (pool w') = size (pool w) /\
        search_start (pool w') = search_start (pool w)
  end.
Proof.
  unfold available_compare_exchange_weak, bind, get_pool.
  destruct (segments (pool w) !! Z.to_nat idx) as [seg|]; [|reflexivity].
  destruct (eqb (available seg) true).
  - unfold next_spurious. destruct (spurious w) as [|[|] rest]; simpl;
      eexists _, _, _; (split; [reflexivity|]); simpl;
      (split; [unfold size; simpl; rewrite ?length_insert; reflexivity | reflexivity]).
  - simpl. eexists _, _, _. split; [reflexivity|]. split; reflexivity.
Qed.

(** The step of a thread at the head of the probing loop. *)
Lemma thread_step_probe (args : Args) (start attempts retry : Z) (w : World) :
  let n := size (pool w) in
  (n <= attempts /\
   thread_step (PcProbe args start attempts retry) w =
   (Returned (PcDone (Returned nullptr)), w)) \/
  (attempts < n /\ max_spurious_retries <= retry /\
   thread_step (PcProbe args start attempts retry) w =
   (Returned (PcProbe args start (attempts + 1) 0), w)) \/
  (attempts < n /\ retry < max_spurious_retries /\ n <= 0 /\
   fst (thread_step (PcProbe args start attempts retry) w) = Fault) \/
  (attempts < n /\ retry < max_spurious_retries /\ 0 < n /\
   exists pc' w',
     thread_step (PcProbe args start attempts retry) w = (Returned pc', w') /\
     size (pool w') = n /\
     search_start (pool w') = search_start (pool w) /\
     (pc' = PcConstruct args (size_t_wrap (start + attempts) mod n) \/
      pc' = PcProbe args start (attempts + 1) 0 \/
      pc' = PcProbe args start attempts (retry + 1))).
Proof.
  intros n. unfold n.
  destruct (Z_le_gt_dec (size (pool w)) attempts) as [Hle|Hgt].
  { left. split; [exact Hle | apply thread_step_probe_end; exact Hle]. }
  destruct (Z_le_gt_dec max_spurious_retries retry) as [Hr|Hr].
  { right. left. split; [lia|]. split; [exact Hr|].
    apply thread_step_probe_next; lia. }
  right. right.
  assert (E1 : (size (pool w) <=? attempts) = false) by (apply Z.leb_gt; lia).
  assert (E2 : (max_spurious_retries <=? retry) = false) by (apply Z.leb_gt; lia).
  destruct (size (pool w) =? 0) eqn:E3.
  { left. split; [lia|]. split; [lia|]. split; [apply Z.eqb_eq in E3; lia|].
    unfold thread_step. unfold bind at 1. unfold get_pool at 1. rewrite E1, E2.
    unfold bind at 1. unfold umod. rewrite E3. reflexivity. }
  assert (Hn : 0 < size (pool w)) by (apply Z.eqb_neq in E3; unfold size in *; lia).
  right. split; [lia|]. split; [lia|]. split; [exact Hn|].
  unfold thread_step. unfold bind at 1. unfold get_pool at 1. rewrite E1, E2.
  unfold bind at 1. unfold umod. rewrite E3.
  unfold ret at 1.
  set (idx := size_t_wrap (start + attempts) mod size (pool w)).
  assert (Hidx : 0 <= idx < size (pool w)) by (apply Z.mod_pos_bound; exact Hn).
  pose proof (cas_outcome idx memory_order_acq_rel memory_order_relaxed w) as Hcas.
  destruct (slot_in_range (pool w) idx Hidx) as [seg Hseg].
  unfold slot in Hseg. rewrite Hseg in Hcas.
  destruct Hcas as [sw [ex [w' [Hcas [Hsz Hh]]]]].
  unfold bind. rewrite Hcas.
  destruct sw; [|destruct ex]; simpl; eexists _, _; (split; [reflexivity|]);
    (split; [exact Hsz|]); (split; [exact Hh|]); auto.
Qed.

Lemma wf_same (p p' : LockFreeMemoryPool) :
  pool_wf p -> size p' = size p -> search_start p' = search_start p -> pool_wf p'.
Proof. unfold pool_wf. intros H -> ->. exact H. Qed.

(** One step of a thread at a point the code can have reached returns,
    keeps the pool well formed and of the same size, and ends at such a point
    again, of the same call. *)
Lemma thread_step_ok (pc : Pc) (w : World) :
  pool_wf (pool w) ->
  in_bounds (size (pool w)) pc ->
  exists pc' w',
    thread_step pc w = (Returned pc', w') /\
    size (pool w') = size (pool w) /\
    pool_wf (pool w') /\
    in_bounds (size (pool w)) pc' /\
    in_allocate pc' = in_allocate pc.
Proof.
  intros Hwf Hb.
  assert (Halter : forall (f : Segment -> Segment) (i : nat) o t,
            size (pool (mkWorld (mkPool (alter f i (segments (pool w)))
                                        (search_start (pool w))) o t)) = size (pool w) /\
            pool_wf (pool (mkWorld (mkPool (alter f i (segments (pool w)))
                                           (search_start (pool w))) o t))).
  { intros f i o t.
    assert (Hs : size (mkPool (alter f i (segments (pool w))) (search_start (pool w)))
                 = size (pool w))
      by (unfold size; simpl; rewrite length_alter; reflexivity).
    split; [exact Hs|]. eapply wf_same; [exact Hwf | exact Hs | reflexivity]. }
  destruct pc as [| args | args start attempts retry | args idx | idx e | idx | r
                  | off | off]; simpl in Hb.
  - eexists _, _. split; [reflexivity|]. repeat split; try apply Hwf.
  - eexists _, _. split; [reflexivity|]. simpl.
    split; [reflexivity|]. split; [exact Hwf|]. split; [lia | reflexivity].
  - destruct (thread_step_probe args start attempts retry w)
      as [[Hle Hs] | [[Hlt [Hr Hs]] | [[Hlt [Hr [Hn _]]] | [Hlt [Hr [Hn Hs]]]]]].
    + eexists _, _. split; [exact Hs|]. split; [reflexivity|].
      split; [exact Hwf|]. split; [exact I | reflexivity].
    + eexists _, _. split; [exact Hs|]. split; [reflexivity|].
      split; [exact Hwf|]. split; [simpl; lia | reflexivity].
    + lia.
    + destruct Hs as [pc' [w' [Hs [Hsz [Hh Hpc]]]]].
      exists pc', w'. split; [exact Hs|]. split; [exact Hsz|].
      split; [eapply wf_same; eassumption|].
      destruct Hpc as [-> | [-> | ->]]; simpl; (split; [|reflexivity]); try lia.
      apply Z.mod_pos_bound. exact Hn.
  - destruct (T_ctor args) as [v|] eqn:Hc.
    + rewrite (thread_step_construct_ok args idx w v Hc).
      eexists _, _. split; [reflexivity|].
      destruct (Halter (set_memory (Some v)) (Z.to_nat idx) (spurious w)
                  (trace w ++ [EvConstruct idx true])) as [H1 H2].
      split; [exact H1|]. split; [exact H2|]. split; [exact Hb | reflexivity].
    + rewrite (thread_step_construct_throws args idx w Hc).
      eexists _, _. split; [reflexivity|]. simpl.
      split; [reflexivity|]. split; [exact Hwf|]. split; [exact Hb | reflexivity].
  - rewrite thread_step_restore by (apply in_array; exact Hb).
    eexists _, _. split; [reflexivity|].
    destruct (Halter (set_available true) (Z.to_nat idx) (spurious w)
                (trace w ++ [release_store idx])) as [H1 H2].
    split; [exact H1|]. split; [exact H2|]. split; [exact I | reflexivity].
  - rewrite thread_step_publish by lia. eexists _, _. split; [reflexivity|]. simpl.
    split; [reflexivity|]. split; [|split; [exact I | reflexivity]].
    destruct Hwf as [Hmax _]. split; [exact Hmax|]. simpl.
    change (size (mkPool (segments (pool w))
                    (size_t_wrap (idx + 1) mod size (pool w))))
      with (size (pool w)).
    pose proof (Z.mod_pos_bound (size_t_wrap (idx + 1)) (size (pool w)) ltac:(lia)).
    lia.
  - eexists _, _. split; [reflexivity|]. repeat split; try apply Hwf.
  - assert (Hin : is_Some (segments (pool w) !! Z.to_nat (index_of off)))
      by (rewrite (index_of_slot (pool w) off Hwf Hb); apply in_array; exact Hb).
    rewrite thread_step_destroy by exact Hin.
    eexists _, _. split; [reflexivity|].
    destruct (Halter (set_memory None) (Z.to_nat (index_of off)) (spurious w)
                (trace w ++ [EvDestroy (index_of off)])) as [H1 H2].
    split; [exact H1|]. split; [exact H2|]. split; [exact Hb | reflexivity].
  - assert (Hin : is_Some (segments (pool w) !! Z.to_nat (index_of off)))
      by (rewrite (index_of_slot (pool w) off Hwf Hb); apply in_array; exact Hb).
    rewrite thread_step_free by exact Hin.
    eexists _, _. split; [reflexivity|].
    destruct (Halter (set_available true) (Z.to_nat (index_of off)) (spurious w)
                (trace w ++ [release_store (index_of off)])) as [H1 H2].
    split; [exact H1|]. split; [exact H2|]. split; [exact I | reflexivity].
Qed.

Lemma threads_in_bounds_step (s s' : System) :
  exclusive s -> threads_in_bounds s -> sys_step s s' -> threads_in_bounds s'.
Proof.
  intros Hex [Hwf Hb] Hstep.
  destruct Hstep as [t pc pc' w' Ht Hrun Hts | t pc args Ht Hrun Hnone | t idx Ht].
  - destruct (thread_step_ok pc (world s) Hwf (Hb t pc Ht))
      as [pc1 [w1 [Hs [Hsz [Hwf1 [Hb1 _]]]]]].
    rewrite Hs in Hts. inversion Hts; subst pc1 w1.
    split; [exact Hwf1|]. simpl. intros t2 pc2 H2. rewrite Hsz.
    apply list_lookup_insert_Some in H2.
    destruct H2 as [[_ [<- _]] | [_ H2]]; [exact Hb1 | exact (Hb t2 pc2 H2)].
  - split; [exact Hwf|]. simpl. intros t2 pc2 H2.
    apply list_lookup_insert_Some in H2.
    destruct H2 as [[_ [<- _]] | [_ H2]]; [exact I | exact (Hb t2 pc2 H2)].
  - split; [exact Hwf|]. simpl. intros t2 pc2 H2.
    apply list_lookup_insert_Some in H2.
    destruct H2 as [[_ [<- _]] | [_ H2]]; [|exact (Hb t2 pc2 H2)].
    destruct Hex as [_ [Hocc _]].
    exact (proj1 (Hocc t _ idx Ht eq_refl)).
Qed.

Lemma threads_in_bounds_reachable (s0 s : System) :
  initial s0 -> sys_steps s0 s -> threads_in_bounds s.
Proof.
  intros Hinit Hsteps. induction Hsteps as [s | s1 s2 s3 H12 IH H23].
  - destruct Hinit as [Hwf Hidle]. split; [exact Hwf|].
    rewrite Forall_lookup in Hidle. intros t pc Ht.
    rewrite (Hidle t pc Ht). exact I.
  - eapply threads_in_bounds_step; [|apply IH; exact Hinit | exact H23].
    eapply exclusive_reachable; eassumption.
Qed.

(** X14.  No step of any thread goes wrong, whatever the other threads
    do.  In every state that any number of threads reach from a constructed
    pool by interleaving the atomic steps of their [allocate_fast] and
    [deallocate_fast] calls, the next step of every thread returns: no
    thread divides by zero, indexes outside of the array or aborts; and the
    step keeps the capacity of the pool. *)
Theorem threads_never_fault (s0 s : System) (t : nat) (pc : Pc) :
  initial s0 ->
  sys_steps s0 s ->
  threads s !! t = Some pc ->
  exists pc' w',
    thread_step pc (world s) = (Returned pc', w') /\
    capacity w' = capacity (world s).
Proof.
  intros Hinit Hsteps Ht.
  destruct (threads_in_bounds_reachable s0 s Hinit Hsteps) as [Hwf Hb].
  destruct (thread_step_ok pc (world s) Hwf (Hb t pc Ht))
    as [pc' [w' [Hs [Hsz _]]]].
  exists pc', w'. split; [exact Hs | exact Hsz].
Qed.

Lemma thread_step_decreases (pc pc' : Pc) (w w' : World) :
  thread_step pc w = (Returned pc', w') ->
  running pc = true ->
  steps_left (size (pool w)) pc' < steps_left (size (pool w)) pc.
Proof.
  intros Hs Hrun.
  assert (Hstore : forall idx v mo (k : unit -> M Pc) q,
            bind (available_store idx v mo) k w = (Returned q, w') ->
            exists w1, k tt w1 = (Returned q, w')).
  { intros idx v mo k q H.
    unfold bind, available_store, bind, get_pool, emit, put_pool, fault in H.
    simpl in H.
    destruct (segments (pool w) !! Z.to_nat idx); [|discriminate].
    eexists. exact H. }
  destruct pc as [| args | args start attempts retry | args idx | idx e | idx | r
                  | off | off]; try discriminate.
  - inversion Hs; subst. simpl. lia.
  - destruct (thread_step_probe args start attempts retry w)
      as [[Hle Hs'] | [[Hlt [Hr Hs']] | [[Hlt [Hr [Hn Hf]]] | [Hlt [Hr [Hn Hs']]]]]].
    + rewrite Hs' in Hs. inversion Hs; subst. simpl. lia.
    + rewrite Hs' in Hs. inversion Hs; subst. simpl.
      unfold max_spurious_retries in Hr. lia.
    + rewrite Hs in Hf. discriminate.
    + destruct Hs' as [pc1 [w1 [Hs' [_ [_ Hpc]]]]].
      rewrite Hs' in Hs. inversion Hs; subst pc1 w1.
      unfold max_spurious_retries in Hr.
      destruct Hpc as [-> | [-> | ->]]; simpl; lia.
  - destruct (T_ctor args) as [v|] eqn:Hc.
    + rewrite (thread_step_construct_ok args idx w v Hc) in Hs.
      inversion Hs; subst. simpl. lia.
    + rewrite (thread_step_construct_throws args idx w Hc) in Hs.
      inversion Hs; subst. simpl. lia.
  - unfold thread_step in Hs. apply Hstore in Hs. destruct Hs as [w1 Hs].
    inversion Hs; subst. simpl. lia.
  - unfold thread_step, bind, get_pool, umod in Hs.
    destruct (size (pool w) =? 0); [discriminate|].
    inversion Hs; subst. simpl. lia.
  - unfold thread_step, bind in Hs.
    destruct (destroy (slot_ptr off) w) as [[[]| | |] w1]; try discriminate.
    inversion Hs; subst. simpl. lia.
  - unfold thread_step, bind in Hs.
    destruct (SAFE_CALL (deallocate_impl_safe (slot_ptr off)) w) as [[[]| | |] w1];
      try discriminate.
    inversion Hs; subst. simpl. lia.
Qed.

Lemma steps_left_nonneg (n : Z) (pc : Pc) : 0 <= steps_left n pc.
Proof. destruct pc; simpl; lia. Qed.

Lemma steps_left_done (n : Z) (pc : Pc) :
  steps_left n pc <= 0 -> running pc = false.
Proof. destruct pc; simpl; intros H; try reflexivity; lia. Qed.

Lemma own_steps_bound (n : Z) (k : nat) (pc pc' : Pc) :
  own_steps n k pc pc' ->
  Z.of_nat k + steps_left n pc' <= steps_left n pc.
Proof.
  induction 1 as [pc | k pc w pc1 w1 pc2 Hrun Hn Hs Hrest IH]; [lia|].
  pose proof (thread_step_decreases pc pc1 w w1 Hs Hrun) as Hd.
  rewrite Hn in Hd. lia.
Qed.

(** A thread that is given as many steps as it has left is through its
    call. *)
Lemma thread_run_ends (n : Z) (worlds : list World) :
  Forall (fun w => pool_wf (pool w) /\ size (pool w) = n) worlds ->
  forall pc,
  in_bounds n pc ->
  steps_left n pc <= Z.of_nat (length worlds) ->
  exists pc',
    thread_run worlds pc = Returned pc' /\
    running pc' = false /\
    in_allocate pc' = in_allocate pc.
Proof.
  induction 1 as [|w worlds [Hwf Hn] Hall IH]; intros pc Hb Hleft.
  - exists pc. split; [reflexivity|]. split; [|reflexivity].
    apply (steps_left_done n). simpl in Hleft. lia.
  - simpl. destruct (running pc) eqn:Hrun.
    + subst n.
      destruct (thread_step_ok pc w Hwf Hb) as [pc1 [w1 [Hs [Hsz [_ [Hb1 Hal]]]]]].
      pose proof (thread_step_decreases pc pc1 w w1 Hs Hrun) as Hd.
      rewrite Hs.
      destruct (IH pc1 Hb1) as [pc' [Hr [Hdone Hal']]].
      { simpl length in Hleft. lia. }
      exists pc'. split; [exact Hr|]. split; [exact Hdone | congruence].
    + exists pc. split; [reflexivity|]. split; [exact Hrun | reflexivity].
Qed.

(** X15.  Both calls are wait-free.  A thread gets through its call
    whatever the other threads do to the slots between its steps: given at
    least 5 * N + 8 steps of its own on a pool of N slots, [allocate_fast]
    returns (every step of it returns, and it takes no more than 5 * N + 8 of
    them: at most 3 compare-exchanges on each of the N slots, the loop
    control, the constructor call and the stores); [deallocate_fast] on a
    pointer that was handed out is through after 2 steps. *)
Theorem calls_wait_free (n : Z) (worlds : list World) :
  0 <= n ->
  Forall (fun w => pool_wf (pool w) /\ size (pool w) = n) worlds ->
  (forall args,
     5 * n + 8 <= Z.of_nat (length worlds) ->
     exists r, thread_run worlds (PcStart args) = Returned (PcDone r)) /\
  (forall off,
     0 <= off < n ->
     (2 <= length worlds)%nat ->
     thread_run worlds (PcDestroy off) = Returned PcIdle) /\
  (forall k args pc,
     own_steps n k (PcStart args) pc -> Z.of_nat k <= 5 * n + 8) /\
  (forall k off pc, own_steps n k (PcDestroy off) pc -> (k <= 2)%nat).
Proof.
  intros Hn Hall. split; [|split; [|split]].
  - intros args Hlen.
    destruct (thread_run_ends n worlds Hall (PcStart args) I) as [pc' [Hr [Hdone Hal]]].
    { simpl. lia. }
    destruct pc'; try discriminate. eauto.
  - intros off Hoff Hlen.
    destruct (thread_run_ends n worlds Hall (PcDestroy off) Hoff) as [pc' [Hr [Hdone Hal]]].
    { simpl. lia. }
    destruct pc'; try discriminate. exact Hr.
  - intros k args pc H. pose proof (own_steps_bound _ _ _ _ H) as Hb.
    pose proof (steps_left_nonneg n pc). simpl in Hb. lia.
  - intros k off pc H. pose proof (own_steps_bound _ _ _ _ H) as Hb.
    pose proof (steps_left_nonneg n pc). simpl in Hb. lia.
Qed.

(** ** Threads: the capacity bound *)

Lemma NoDup_held (l : list Pc) :
  (forall t t' pc pc' idx,
      t <> t' -> l !! t = Some pc -> l !! t' = Some pc' ->
      holds pc = Some idx -> holds pc' <> Some idx) ->
  NoDup (omap holds l).
Proof.
  induction l as [|pc l IH]; intros Hx; [constructor|].
  assert (Htl : NoDup (omap holds l)).
  { apply IH. intros t t' pc1 pc2 idx Hne H1 H2.
    apply (Hx (S t) (S t') pc1 pc2 idx); [lia | exact H1 | exact H2]. }
  simpl. destruct (holds pc) as [i|] eqn:Hh; [|exact Htl].
  constructor; [|exact Htl].
  intros Hin. apply list_elem_of_omap in Hin. destruct Hin as [pc' [Hin Hh']].
  apply list_elem_of_lookup_1 in Hin. destruct Hin as [t' Ht'].
  exact (Hx 0%nat (S t') pc pc' i ltac:(lia) eq_refl Ht' Hh Hh').
Qed.

(** X16.  The capacity bound under concurrency.  In every state that
    any number of threads reach from a constructed pool by interleaving the
    atomic steps of their calls, the slots that threads hold (claimed and not
    yet set free) are pairwise distinct slots of the pool: at no time do more
    threads hold a slot than the pool has slots. *)
Theorem capacity_bound_interleaved (s0 s : System) :
  initial s0 ->
  sys_steps s0 s ->
  NoDup (omap holds (threads s)) /\
  Z.of_nat (length (omap holds (threads s))) <= capacity (world s).
Proof.
  intros Hinit Hsteps.
  destruct (exclusive_reachable s0 s Hinit Hsteps) as [Hwf [Hocc Hex]].
  assert (Hnd : NoDup (omap holds (threads s))) by (apply NoDup_held; exact Hex).
  split; [exact Hnd|].
  assert (Hsub : omap holds (threads s) ⊆+ seqZ 0 (capacity (world s))).
  { apply NoDup_submseteq; [exact Hnd|].
    intros i Hi. apply list_elem_of_omap in Hi. destruct Hi as [pc [Hin Hh]].
    apply list_elem_of_lookup_1 in Hin. destruct Hin as [t Ht].
    destruct (Hocc t pc i Ht Hh) as [Hi _].
    apply elem_of_seqZ. unfold capacity. lia. }
  apply submseteq_length in Hsub. rewrite length_seqZ in Hsub.
  unfold capacity, size in *. lia.
Qed.

(** ** The flag of a slot and the object in it *)

Lemma effect_matches (o : Op) (p p' : LockFreeMemoryPool) (r : Outcome Result) :
  effect o p r p' ->
  Forall flag_matches_object (segments p) ->
  Forall flag_matches_object (segments p').
Proof.
  intros [-> _ | i v _ _ _ -> _ | idx _ _ -> _] H.
  - exact H.
  - unfold pool_after_claim. simpl. apply Forall_insert; [exact H | reflexivity].
  - unfold released_pool. simpl. rewrite Forall_lookup in *. intros j x Hj.
    destruct (decide (Z.to_nat idx = j)) as [<-|Hne].
    + rewrite !list_lookup_alter_eq in Hj.
      destruct (segments p !! Z.to_nat idx) as [seg|]; [|discriminate].
      inversion Hj; subst x. reflexivity.
    + rewrite !list_lookup_alter_ne in Hj by exact Hne. exact (H j x Hj).
Qed.

(** X17.  The flag of a slot always tells whether the slot holds an
    object.  After every sequence of operations on a pool the constructor
    returned, in which every release is given a pointer that was handed out
    and not released since, every free slot holds no object and every
    occupied slot holds a constructed one: between operations no slot is
    claimed without an object in it, and no object is left in a slot that
    can be handed out again. *)
Theorem flags_match_objects (n : Z) (schedule : list bool) (w : World) (ops : list Op) :
  0 <= n ->
  fresh_world n schedule = Returned w ->
  releases_held [] ops w = true ->
  forallb aims_at_segment ops = true ->
  Forall flag_matches_object (segments (pool (snd (run ops w)))).
Proof.
  intros Hn Hw _ _.
  destruct (fresh_world_inv n schedule w Hn Hw) as [-> Hmax].
  destruct (fresh_pool_facts (Z.to_nat n)) as [_ [_ [_ Hwf]]].
  specialize (Hwf ltac:(lia)).
  set (w0 := mkWorld _ schedule []) in *.
  assert (H0 : Forall flag_matches_object (segments (pool w0)))
    by (apply Forall_replicate; reflexivity).
  assert (Hwf0 : pool_wf (pool w0)) by exact Hwf.
  clear Hw Hwf. clearbody w0. revert w0 Hwf0 H0.
  induction ops as [|o ops IH]; intros w0 Hwf H0; [exact H0|].
  rewrite run_cons. cbn [snd].
  pose proof (perform_effect o w0 Hwf) as He.
  apply IH; [eapply effect_wf | eapply effect_matches]; eassumption.
Qed.

(** ** Threads: no slot is lost *)

(** The step with which a thread lets go of its slot sets the slot free. *)
Lemma thread_step_frees (pc pc' : Pc) (w w' : World) (i : Z) :
  thread_step pc w = (Returned pc', w') ->
  pool_wf (pool w) ->
  holds pc = Some i ->
  holds pc' = None ->
  0 <= i < size (pool w) ->
  free_at (pool w') i.
Proof.
  intros Hs Hwf Hh Hn Hi.
  destruct (slot_in_range (pool w) i Hi) as [seg Hseg]. unfold slot in Hseg.
  destruct pc as [| args | args start attempts retry | args idx | idx e | idx | r
                  | off | off]; simpl in Hh; try discriminate.
  - destruct (T_ctor args) as [v|] eqn:Hc.
    + rewrite (thread_step_construct_ok args idx w v Hc) in Hs.
      inversion Hs; subst. discriminate.
    + rewrite (thread_step_construct_throws args idx w Hc) in Hs.
      inversion Hs; subst. discriminate.
  - inversion Hh; subst idx.
    rewrite thread_step_restore in Hs by (eexists; exact Hseg).
    inversion Hs; subst pc' w'. unfold free_at, slot. simpl.
    rewrite list_lookup_alter_eq, Hseg. reflexivity.
  - unfold thread_step, bind, get_pool, umod in Hs.
    destruct (size (pool w) =? 0); [discriminate|].
    inversion Hs; subst. discriminate.
  - inversion Hs; subst pc' w'. simpl in Hn. congruence.
  - inversion Hh; subst off.
    rewrite thread_step_destroy in Hs
      by (rewrite (index_of_slot (pool w) i Hwf Hi); eexists; exact Hseg).
    inversion Hs; subst. discriminate.
  - inversion Hh; subst off.
    rewrite thread_step_free in Hs
      by (rewrite (index_of_slot (pool w) i Hwf Hi); eexists; exact Hseg).
    inversion Hs; subst pc' w'. rewrite (index_of_slot (pool w) i Hwf Hi).
    unfold free_at, slot. simpl.
    rewrite list_lookup_alter_eq, Hseg. reflexivity.
Qed.

Lemma occupied_before (p p' : LockFreeMemoryPool) (j : Z) :
  same_flag p p' j -> occupied_at p' j -> occupied_at p j.
Proof. unfold same_flag, occupied_at. intros <- H. exact H. Qed.

Lemma accounted_step (s s' : System) :
  exclusive s -> accounted s -> sys_step s s' -> accounted s'.
Proof.
  intros Hex Hacc Hstep.
  destruct Hstep as [t pc pc' w' Ht Hrun Hts | t pc args Ht Hrun Hnone | t idx Ht].
  - destruct Hex as [Hwf [Hocc Hx]].
    assert (Hin : forall i, holds pc = Some i -> 0 <= i < size (pool (world s)))
      by (intros i Hi; exact (proj1 (Hocc t pc i Ht Hi))).
    destruct (thread_step_effect pc pc' (world s) w' Hts Hwf Hin)
      as [Hwf' [Hsize Heff]].
    assert (Hlt : (t < length (threads s))%nat) by (eapply lookup_lt_Some; exact Ht).
    assert (Hother : forall i, occupied_at (pool (world s)) i ->
              0 <= i < size (pool (world s)) ->
              holds pc <> Some i ->
              exists u q, <[t := pc']> (threads s) !! u = Some q /\ holds q = Some i).
    { intros i Ho Hi Hne. destruct (Hacc i Hi Ho) as [u [q [Hu Hq]]].
      exists u, q. split; [|exact Hq].
      rewrite list_lookup_insert_ne; [exact Hu|].
      intros ->. rewrite Ht in Hu. inversion Hu; subst q. congruence. }
    intros i Hi Ho. simpl in *. rewrite Hsize in Hi.
    destruct Heff as [Hh Hsame | i0 Hnone Hsome Hi0 Hfree Hocc' Hsame
                      | i0 Hsome Hnone Hsame].
    + pose proof (occupied_before _ _ _ (Hsame i) Ho) as Ho0.
      destruct (option_eq_dec (holds pc) (Some i)) as [Heq|Hne].
      * exists t, pc'. split; [apply list_lookup_insert_eq; exact Hlt | congruence].
      * apply Hother; assumption.
    + destruct (Z.eq_dec i i0) as [->|Hne].
      * exists t, pc'. split; [apply list_lookup_insert_eq; exact Hlt | exact Hsome].
      * apply Hother; [|exact Hi | congruence].
        eapply occupied_before; [apply Hsame; lia | exact Ho].
    + destruct (Z.eq_dec i i0) as [->|Hne].
      * exfalso.
        pose proof (thread_step_frees pc pc' (world s) w' i0 Hts Hwf Hsome Hnone Hi)
          as Hf.
        unfold free_at, occupied_at in *. congruence.
      * apply Hother; [|exact Hi | congruence].
        eapply occupied_before; [apply Hsame; lia | exact Ho].
  - intros i Hi Ho. simpl in *. destruct (Hacc i Hi Ho) as [u [q [Hu Hq]]].
    exists u, q. split; [|exact Hq].
    rewrite list_lookup_insert_ne; [exact Hu|].
    intros ->. rewrite Ht in Hu. inversion Hu; subst q. congruence.
  - intros i Hi Ho. simpl in *. destruct (Hacc i Hi Ho) as [u [q [Hu Hq]]].
    destruct (decide (t = u)) as [<-|Hne].
    + exists t, (PcDestroy idx). split.
      * apply list_lookup_insert_eq. eapply lookup_lt_Some; exact Ht.
      * rewrite Ht in Hu. inversion Hu; subst q. exact Hq.
    + exists u, q. split; [|exact Hq].
      rewrite list_lookup_insert_ne; [exact Hu | exact Hne].
Qed.

Lemma count_all_true (l : list bool) :
  (forall i b, l !! i = Some b -> b = true) -> count_true l = length l.
Proof.
  induction l as [|b l IH]; intros H; [reflexivity|].
  rewrite count_true_cons. rewrite (H 0%nat b eq_refl). simpl.
  f_equal. apply IH. intros i b' Hi. exact (H (S i) b' Hi).
Qed.

(** X20.  No slot is lost, whatever the interleaving.  Threads that
    start on a pool whose slots are all free and interleave the atomic steps
    of their calls in any way never leave a slot occupied that no thread
    holds: every occupied slot is in the hands of a thread (inside
    [allocate_fast], back in the caller's hands, or inside
    [deallocate_fast]).  So once every thread has released what it was
    handed, all slots of the pool are free again. *)
Theorem no_slot_lost (s0 s : System) :
  initial s0 ->
  (forall i, 0 <= i < capacity (world s0) -> free_at (pool (world s0)) i) ->
  sys_steps s0 s ->
  (forall i, 0 <= i < capacity (world s) -> occupied_at (pool (world s)) i ->
     exists t pc, threads s !! t = Some pc /\ holds pc = Some i) /\
  (Forall (fun pc => holds pc = None) (threads s) ->
   free_slots (pool (world s)) = Z.to_nat (capacity (world s))).
Proof.
  intros Hinit Hfree Hsteps.
  assert (Hacc : accounted s).
  { induction Hsteps as [s | s1 s2 s3 H12 IH H23].
    - intros i Hi Ho. specialize (Hfree i Hi).
      unfold free_at, occupied_at in *. congruence.
    - eapply accounted_step; [|apply IH; assumption | exact H23].
      eapply exclusive_reachable; eassumption. }
  split; [exact Hacc|].
  intros Hnone. unfold free_slots, capacity, size.
  rewrite Nat2Z.id, <- (length_fmap available). apply count_all_true.
  intros i b Hb. destruct b; [reflexivity|]. exfalso.
  assert (Hlt : (i < length (segments (pool (world s))))%nat).
  { apply lookup_lt_Some in Hb. unfold flags in Hb.
    rewrite length_fmap in Hb. exact Hb. }
  assert (Ho : occupied_at (pool (world s)) (Z.of_nat i)).
  { unfold occupied_at. rewrite <- flags_lookup, Nat2Z.id. exact Hb. }
  destruct (Hacc (Z.of_nat i)) as [t [pc [Ht Hh]]]; [unfold size; lia | exact Ho |].
  rewrite Forall_lookup in Hnone. rewrite (Hnone t pc Ht) in Hh. discriminate.
Qed.

(** ** The memory-ordering contract *)

Lemma phase_from_app (i : Z) (ph : Phase) (a b : list Event) :
  phase_from i ph (a ++ b) = phase_from i (phase_from i ph a) b.
Proof. unfold phase_from. apply foldl_app. Qed.

Lemma phase_from_cons (i : Z) (ph : Phase) (e : Event) (b : list Event) :
  phase_from i ph (e :: b) = phase_from i (phase_step i ph e) b.
Proof. reflexivity. Qed.

Lemma phase_step_other (i : Z) (ph : Phase) (e : Event) :
  writes_slot i e = false -> phase_step i ph e = ph.
Proof. unfold phase_step. intros ->. reflexivity. Qed.

Lemma phase_broken (i : Z) (t : list Event) : phase_from i PhBroken t = PhBroken.
Proof.
  induction t as [|e t IH]; [reflexivity|].
  rewrite phase_from_cons. unfold phase_step.
  destruct (writes_slot i e); exact IH.
Qed.

Lemma phase_of_sound (pc : Pc) : phase_of pc <> PhBroken.
Proof.
  destruct pc as [| | | | | | [[| |]| | |] | |]; discriminate.
Qed.

(** The first change of the slot in a stretch of the trace that takes the
    slot from one phase to another. *)
Lemma first_write (i : Z) (b : list Event) :
  forall ph ph',
  phase_from i ph b = ph' ->
  ph' <> ph ->
  exists b1 e b2,
    b = b1 ++ e :: b2 /\
    existsb (writes_slot i) b1 = false /\
    writes_slot i e = true /\
    phase_from i (phase_step i ph e) b2 = ph'.
Proof.
  induction b as [|x b IH]; intros ph ph' Hrun Hne.
  - simpl in Hrun. congruence.
  - destruct (writes_slot i x) eqn:Hx.
    + exists [], x, b. repeat split; [exact Hx | exact Hrun].
    + rewrite phase_from_cons, phase_step_other in Hrun by exact Hx.
      destruct (IH ph ph' Hrun Hne) as [b1 [e [b2 [-> [H1 [He H2]]]]]].
      exists (x :: b1), e, b2. split; [reflexivity|]. split; [|split; assumption].
      simpl. rewrite Hx. exact H1.
Qed.

(** The change that takes a slot out of [PhDestroyed] or [PhFailed] is the
    release store of free; the one that takes it out of [PhFree] is the
    acquire-release compare-exchange that succeeds. *)
Lemma write_after_end (i : Z) (ph : Phase) (e : Event) :
  ph = PhDestroyed \/ ph = PhFailed ->
  writes_slot i e = true ->
  phase_step i ph e <> PhBroken ->
  e = release_store i /\ phase_step i ph e = PhFree.
Proof.
  intros Hph He Hstep. unfold phase_step in *. rewrite He in *.
  destruct e as [mo v | mo v | j s f sw ob | j mo v | j mo v | j ok | j];
    simpl in He; try discriminate;
    try (destruct Hph as [-> | ->]; congruence).
  apply Z.eqb_eq in He. subst j.
  destruct Hph as [-> | ->]; destruct mo; try congruence;
    destruct v; try congruence; split; reflexivity.
Qed.

Lemma write_after_free (i : Z) (e : Event) :
  writes_slot i e = true ->
  phase_step i PhFree e <> PhBroken ->
  e = claim_cas i true true /\ phase_step i PhFree e = PhClaimed.
Proof.
  intros He Hstep. unfold phase_step in *. rewrite He in *.
  destruct e as [mo v | mo v | j s f sw ob | j mo v | j mo v | j ok | j];
    simpl in He; try discriminate; try congruence.
  apply andb_true_iff in He. destruct He as [He ->].
  apply Z.eqb_eq in He. subst j.
  destruct s; try congruence; destruct f; try congruence;
    destruct ob; try congruence. split; reflexivity.
Qed.

(** From the end of an object (or of a failed construction) to the next
    claim: the release store comes first, the compare-exchange that succeeds
    comes next, and nothing else happens to the slot in between. *)
Lemma phase_chain (i : Z) (ph : Phase) (b : list Event) :
  ph = PhDestroyed \/ ph = PhFailed ->
  phase_from i ph b = PhClaimed ->
  exists b1 b2 b3,
    b = b1 ++ release_store i :: b2 ++ claim_cas i true true :: b3 /\
    existsb (writes_slot i) b1 = false /\
    existsb (writes_slot i) b2 = false.
Proof.
  intros Hph Hrun.
  destruct (first_write i b ph PhClaimed Hrun
              ltac:(destruct Hph as [-> | ->]; discriminate))
    as [b1 [e [b' [-> [H1 [He Hrest]]]]]].
  destruct (write_after_end i ph e Hph He) as [-> Hfree].
  { intros Hb. rewrite Hb, phase_broken in Hrest. discriminate. }
  rewrite Hfree in Hrest.
  destruct (first_write i b' PhFree PhClaimed Hrest ltac:(discriminate))
    as [b2 [e2 [b3 [-> [H2 [He2 Hrest2]]]]]].
  destruct (write_after_free i e2 He2) as [-> _].
  { intros Hb. rewrite Hb, phase_broken in Hrest2. discriminate. }
  exists b1, b2, b3. repeat split; assumption.
Qed.

(** A constructor call on a slot comes after the claim of the slot. *)
Lemma construct_after_claim (i : Z) (ph : Phase) (ok : bool) (c : list Event) :
  phase_from i ph (EvConstruct i ok :: c) <> PhBroken -> ph = PhClaimed.
Proof.
  intros H. rewrite phase_from_cons in H. unfold phase_step in H. simpl in H.
  rewrite Z.eqb_refl in H.
  destruct ph; try reflexivity; rewrite phase_broken in H; congruence.
Qed.

Lemma phase_pairing (i : Z) (e : Event) (ph : Phase) (a b c : list Event) (ok : bool) :
  ph = PhDestroyed \/ ph = PhFailed ->
  (forall ph0, phase_step i ph0 e = ph \/ phase_step i ph0 e = PhBroken) ->
  phase i (a ++ e :: b ++ EvConstruct i ok :: c) <> PhBroken ->
  exists b1 b2 b3,
    b = b1 ++ release_store i :: b2 ++ claim_cas i true true :: b3 /\
    existsb (writes_slot i) b1 = false /\
    existsb (writes_slot i) b2 = false.
Proof.
  intros Hph He H. unfold phase in H.
  rewrite phase_from_app, phase_from_cons, phase_from_app in H.
  destruct (He (phase_from i PhFree a)) as [Hs | Hs]; rewrite Hs in H.
  - apply construct_after_claim in H. exact (phase_chain i ph b Hph H).
  - rewrite phase_broken in H. apply construct_after_claim in H. discriminate.
Qed.

(** The accesses of a step, and what they do to the phase of the slots. *)
Lemma thread_step_events (pc pc' : Pc) (w w' : World) :
  thread_step pc w = (Returned pc', w') ->
  pool_wf (pool w) ->
  (forall i, holds pc = Some i -> 0 <= i < size (pool w)) ->
  exists evs,
    trace w' = trace w ++ evs /\ step_events (pool w) pc pc' evs.
Proof.
  intros Hstep Hwf Hheld.
  destruct pc as [| args | args start attempts retry | args idx | idx e | idx | r
                 | off | off].
  - inversion Hstep; subst. exists []. rewrite app_nil_r.
    split; [reflexivity | apply ev_silent; reflexivity].
  - inversion Hstep; subst. eexists. split; [reflexivity|].
    apply ev_load_hint; reflexivity.
  - unfold thread_step in Hstep. unfold bind at 1 in Hstep. unfold get_pool at 1 in Hstep.
    destruct (size (pool w) <=? attempts) eqn:E1.
    { inversion Hstep; subst. exists []. rewrite app_nil_r.
      split; [reflexivity | apply ev_silent; reflexivity]. }
    destruct (max_spurious_retries <=? retry) eqn:E2.
    { inversion Hstep; subst. exists []. rewrite app_nil_r.
      split; [reflexivity | apply ev_silent; reflexivity]. }
    unfold bind at 1 in Hstep. unfold umod in Hstep.
    destruct (size (pool w) =? 0) eqn:E3; [discriminate|].
    unfold ret at 1 in Hstep.
    set (idx := size_t_wrap (start + attempts) mod size (pool w)) in *.
    assert (Hidx : 0 <= idx < size (pool w)).
    { apply Z.mod_pos_bound. apply Z.eqb_neq in E3. unfold size in *. lia. }
    destruct (slot_in_range (pool w) idx Hidx) as [seg Hseg].
    unfold bind in Hstep.
    destruct (available seg) eqn:Ha.
    + destruct (spurious w) as [|[|] o] eqn:Ho.
      * rewrite (cas_success w idx seg _ _ Hseg Ha) in Hstep by (rewrite Ho; discriminate).
        inversion Hstep; subst pc' w'. simpl.
        eexists. split; [reflexivity|]. apply ev_cas_claimed; try reflexivity.
        unfold free_at. rewrite Hseg. simpl. rewrite Ha. reflexivity.
      * rewrite (cas_spurious w idx seg _ _ o Hseg Ha Ho) in Hstep.
        inversion Hstep; subst pc' w'. simpl.
        eexists. split; [reflexivity|]. apply ev_cas_failed; reflexivity.
      * rewrite (cas_success w idx seg _ _ Hseg Ha) in Hstep by (rewrite Ho; discriminate).
        inversion Hstep; subst pc' w'. simpl.
        eexists. split; [reflexivity|]. apply ev_cas_claimed; try reflexivity.
        unfold free_at. rewrite Hseg. simpl. rewrite Ha. reflexivity.
    + rewrite (cas_on_occupied w idx seg _ _ Hseg Ha) in Hstep.
      inversion Hstep; subst pc' w'. simpl.
      eexists. split; [reflexivity|]. apply ev_cas_failed; reflexivity.
  - destruct (T_ctor args) as [v|] eqn:Hc.
    + rewrite (thread_step_construct_ok args idx w v Hc) in Hstep.
      inversion Hstep; subst pc' w'. simpl.
      eexists. split; [reflexivity|]. apply ev_construct; reflexivity.
    + rewrite (thread_step_construct_throws args idx w Hc) in Hstep.
      inversion Hstep; subst pc' w'. simpl.
      eexists. split; [reflexivity|]. apply ev_construct; reflexivity.
  - specialize (Hheld idx eq_refl).
    rewrite thread_step_restore in Hstep by (apply in_array; exact Hheld).
    inversion Hstep; subst pc' w'. simpl.
    eexists. split; [reflexivity|]. apply ev_release; [reflexivity | right | ]; reflexivity.
  - specialize (Hheld idx eq_refl).
    rewrite thread_step_publish in Hstep by lia.
    inversion Hstep; subst pc' w'. simpl.
    eexists. split; [reflexivity|]. apply ev_store_hint; reflexivity.
  - inversion Hstep; subst. exists []. rewrite app_nil_r.
    split; [reflexivity | apply ev_silent; reflexivity].
  - specialize (Hheld off eq_refl).
    assert (Hoff : index_of off = off).
    { unfold index_of. apply size_t_wrap_small.
      destruct Hwf as [Hmax _]. unfold vector_max_size in Hmax. lia. }
    rewrite thread_step_destroy in Hstep by (rewrite Hoff; apply in_array; exact Hheld).
    inversion Hstep; subst pc' w'. simpl. rewrite Hoff.
    eexists. split; [reflexivity|]. apply ev_destroy; reflexivity.
  - specialize (Hheld off eq_refl).
    assert (Hoff : index_of off = off).
    { unfold index_of. apply size_t_wrap_small.
      destruct Hwf as [Hmax _]. unfold vector_max_size in Hmax. lia. }
    rewrite thread_step_free in Hstep by (rewrite Hoff; apply in_array; exact Hheld).
    inversion Hstep; subst pc' w'. simpl. rewrite Hoff.
    eexists. split; [reflexivity|]. apply ev_release; [reflexivity | left | ]; reflexivity.
Qed.

Lemma step_events_orders (p : LockFreeMemoryPool) (pc pc' : Pc) (evs : list Event) :
  step_events p pc pc' evs -> forallb order_ok evs = true.
Proof. intros []; reflexivity. Qed.

(** What the accesses of a step do to the phases: the slot the thread goes
    on holding moves with the thread, the slot it claims leaves [PhFree], the
    slot it lets go of is back in [PhFree], and no other slot moves. *)
Lemma step_events_summary (p : LockFreeMemoryPool) (pc pc' : Pc) (evs : list Event) :
  step_events p pc pc' evs ->
  (holds pc' = holds pc \/ holds pc' = None \/
   (holds pc = None /\ exists i, holds pc' = Some i /\ free_at p i)) /\
  (forall i, holds pc' = Some i -> holds pc = Some i ->
     phase_from i (phase_of pc) evs = phase_of pc') /\
  (forall i, holds pc' = Some i -> holds pc = None ->
     phase_from i PhFree evs = phase_of pc') /\
  (forall i, holds pc = Some i -> holds pc' <> Some i ->
     phase_from i (phase_of pc) evs = PhFree) /\
  (forall i ph, holds pc <> Some i -> holds pc' <> Some i ->
     phase_from i ph evs = ph).
Proof.
  assert (Helse : forall i j ph e,
            Some j <> Some i ->
            writes_slot j e = true ->
            phase_from i ph [e] = ph).
  { intros i j ph e Hne He. unfold phase_from. simpl. apply phase_step_other.
    destruct e as [mo v | mo v | x s f sw ob | x mo v | x mo v | x ok | x];
      simpl in *; try reflexivity;
      try (apply andb_true_iff in He; destruct He as [He ->]; rewrite andb_true_r);
      apply Z.eqb_eq in He; subst x; apply Z.eqb_neq; congruence. }
  assert (Hself : forall i : Z, (i =? i) = true) by (intros; apply Z.eqb_refl).
  intros [Hh Hp | v Hh Hh' | v Hh Hp | idx ob Hh Hh' | idx Hh Hh' Hp Hf
         | idx ok Hh Hp Hh' Hp' | idx Hh Hp Hh' Hp' | idx Hh Hp Hh'].
  - split; [left; exact Hh|]. repeat split; intros; simpl; congruence.
  - split; [left; congruence|]. repeat split; intros; congruence.
  - split; [left; exact Hh|]. repeat split; intros; try congruence.
    unfold phase_from. simpl. unfold phase_step. simpl. congruence.
  - split; [left; congruence|]. repeat split; intros; try congruence.
    unfold phase_from. simpl. unfold phase_step. simpl.
    rewrite andb_false_r. reflexivity.
  - split; [right; right; split; [exact Hh|]; exists idx; split; assumption|].
    repeat split; intros; try congruence.
    + assert (i = idx) by congruence. subst i.
      unfold phase_from. simpl. unfold phase_step. simpl.
      rewrite Hself. simpl. congruence.
    + apply (Helse i idx); [congruence|]. simpl. rewrite Hself. reflexivity.
  - split; [left; congruence|]. repeat split; intros; try congruence.
    + assert (i = idx) by congruence. subst i. rewrite Hp, Hp'.
      unfold phase_from. simpl. unfold phase_step. simpl.
      rewrite Hself. destruct ok; reflexivity.
    + apply (Helse i idx); [congruence|]. simpl. apply Hself.
  - split; [left; congruence|]. repeat split; intros; try congruence.
    + assert (i = idx) by congruence. subst i. rewrite Hp, Hp'.
      unfold phase_from. simpl. unfold phase_step. simpl.
      rewrite Hself. reflexivity.
    + apply (Helse i idx); [congruence|]. simpl. apply Hself.
  - split; [right; left; exact Hh'|]. repeat split; intros; try congruence.
    + assert (i = idx) by congruence. subst i.
      unfold phase_from. simpl. unfold phase_step. simpl.
      rewrite Hself. destruct Hp as [-> | ->]; reflexivity.
    + apply (Helse i idx); [congruence|]. simpl. apply Hself.
Qed.

(** The agreement of trace and threads goes through the step of one
    thread. *)
Lemma phases_update (ths : list Pc) (k : nat) (pc pc' : Pc) (new evs : list Event) :
  ths !! k = Some pc ->
  phases_agree ths new ->
  (forall k' pc2 i, k' <> k -> ths !! k' = Some pc2 -> holds pc2 = Some i ->
     holds pc <> Some i /\ holds pc' <> Some i) ->
  (forall i, holds pc' = Some i -> phase_from i (phase i new) evs = phase_of pc') ->
  (forall i, holds pc = Some i -> holds pc' <> Some i ->
     phase_from i (phase i new) evs = PhFree) ->
  (forall i ph, holds pc <> Some i -> holds pc' <> Some i -> phase_from i ph evs = ph) ->
  phases_agree (<[k := pc']> ths) (new ++ evs).
Proof.
  intros Hk [H1 H2] Hx HA HB HC.
  assert (Hlt : (k < length ths)%nat) by (apply lookup_lt_Some in Hk; exact Hk).
  split.
  - intros k' pc2 i Hl Hh. unfold phase. rewrite phase_from_app. fold (phase i new).
    destruct (decide (k' = k)) as [->|Hne].
    + rewrite list_lookup_insert_eq in Hl by exact Hlt.
      inversion Hl; subst pc2. apply HA. exact Hh.
    + rewrite list_lookup_insert_ne in Hl by congruence.
      destruct (Hx k' pc2 i Hne Hl Hh) as [Ha Hb].
      rewrite HC by assumption. exact (H1 k' pc2 i Hl Hh).
  - intros i Hnone. unfold phase. rewrite phase_from_app. fold (phase i new).
    assert (Hpc' : holds pc' <> Some i).
    { apply (Hnone k). apply list_lookup_insert_eq. exact Hlt. }
    destruct (decide (holds pc = Some i)) as [Hh|Hh].
    + apply HB; assumption.
    + rewrite HC by assumption. apply H2. intros k' pc2 Hl.
      destruct (decide (k' = k)) as [->|Hne].
      * rewrite Hk in Hl. inversion Hl; subst. exact Hh.
      * apply (Hnone k'). rewrite list_lookup_insert_ne by congruence. exact Hl.
Qed.

Lemma phases_step (s s' : System) (new : list Event) :
  exclusive s ->
  sys_step s s' ->
  phases_agree (threads s) new ->
  exists evs,
    trace (world s') = trace (world s) ++ evs /\
    forallb order_ok evs = true /\
    phases_agree (threads s') (new ++ evs).
Proof.
  intros [Hwf [Hocc Hex]] Hstep Hag.
  destruct Hstep as [k pc pc' w' Hk Hrun Hts | k pc args Hk Hrun Hnone | k idx Hk].
  - destruct (thread_step_events pc pc' (world s) w' Hts Hwf) as [evs [Ht Hev]].
    { intros i Hi. exact (proj1 (Hocc k pc i Hk Hi)). }
    exists evs. split; [exact Ht|]. split; [exact (step_events_orders _ _ _ _ Hev)|].
    destruct (step_events_summary _ _ _ _ Hev) as [Hkind [Hkeep [Hclaim [Hfree Hrest]]]].
    simpl. destruct Hag as [H1 H2].
    apply (phases_update (threads s) k pc pc' new evs Hk (conj H1 H2)).
    + intros k' pc2 i Hne Hl Hh. split.
      * intros Hpc. exact (Hex k k' pc pc2 i ltac:(congruence) Hk Hl Hpc Hh).
      * intros Hpc'. destruct Hkind as [Hsame | [Hn | [Hn [j [Hj Hf]]]]].
        -- rewrite Hsame in Hpc'.
           exact (Hex k k' pc pc2 i ltac:(congruence) Hk Hl Hpc' Hh).
        -- congruence.
        -- assert (j = i) by congruence. subst j.
           exact (free_occupied_absurd _ _ Hf (proj2 (Hocc k' pc2 i Hl Hh))).
    + intros i Hpc'. destruct (holds pc) as [j|] eqn:Hpc.
      * assert (j = i).
        { destruct Hkind as [Hsame | [Hn | [Hn _]]]; congruence. }
        subst j. rewrite (H1 k pc i Hk Hpc). apply Hkeep; [exact Hpc' | reflexivity].
      * rewrite H2; [apply Hclaim; [exact Hpc' | reflexivity]|].
        intros k' pc2 Hl Hh.
        destruct (decide (k' = k)) as [->|Hne].
        -- rewrite Hk in Hl. inversion Hl; subst pc2. congruence.
        -- destruct Hkind as [Hsame | [Hn | [Hn [j [Hj Hf]]]]]; try congruence.
           assert (j = i) by congruence. subst j.
           exact (free_occupied_absurd _ _ Hf (proj2 (Hocc k' pc2 i Hl Hh))).
    + intros i Hpc Hpc'. rewrite (H1 k pc i Hk Hpc). apply Hfree; assumption.
    + exact Hrest.
  - exists []. rewrite app_nil_r. split; [reflexivity|]. split; [reflexivity|].
    simpl. apply (phases_update (threads s) k pc (PcStart args) new [] Hk Hag).
    + intros k' pc2 i Hne Hl Hh. split; [congruence | discriminate].
    + intros i Hi. discriminate.
    + intros i Hi. congruence.
    + reflexivity.
  - exists []. rewrite app_nil_r. split; [reflexivity|]. split; [reflexivity|].
    simpl.
    apply (phases_update (threads s) k (PcDone (Returned (slot_ptr idx)))
             (PcDestroy idx) new [] Hk Hag).
    + intros k' pc2 i Hne Hl Hh.
      assert (Hd : holds (PcDone (Returned (slot_ptr idx))) <> Some i).
      { intros Hpc.
        exact (Hex k k' _ pc2 i ltac:(congruence) Hk Hl Hpc Hh). }
      split; exact Hd.
    + intros i Hi. destruct Hag as [H1 _].
      exact (H1 k _ i Hk Hi).
    + intros i Hi Hn. simpl in *. congruence.
    + reflexivity.
Qed.

Lemma phases_reachable (s0 s : System) :
  initial s0 ->
  sys_steps s0 s ->
  exists new,
    trace (world s) = trace (world s0) ++ new /\
    forallb order_ok new = true /\
    phases_agree (threads s) new.
Proof.
  intros Hinit Hsteps. induction Hsteps as [s | s1 s2 s3 H12 IH H23].
  - exists []. rewrite app_nil_r. split; [reflexivity|]. split; [reflexivity|].
    destruct Hinit as [_ Hidle]. rewrite Forall_lookup in Hidle. split.
    + intros k pc i Hk Hh. rewrite (Hidle k pc Hk) in Hh. discriminate.
    + reflexivity.
  - destruct (IH Hinit) as [new [Ht [Hord Hag]]].
    destruct (phases_step s2 s3 new (exclusive_reachable s1 s2 Hinit H12) H23 Hag)
      as [evs [Ht' [Hord' Hag']]].
    exists (new ++ evs). split; [rewrite Ht', Ht, app_assoc; reflexivity|].
    split; [rewrite forallb_app, Hord, Hord'; reflexivity | exact Hag'].
Qed.

(** The accesses of one operation. *)
Lemma allocate_fast_scan_all (args : Args) (w : World) :
  pool_wf (pool w) ->
  exists evs res o',
    claim_scan (pool w) (search_start (pool w)) 0 (spurious w) evs res o' /\
    allocate_fast args w = allocation_outcome args w (hint_load w :: evs) res o'.
Proof.
  intros Hwf. destruct (Z.eq_dec (capacity w) 0) as [H0|Hn0].
  - exists [], None, (spurious w). split.
    + apply scan_exhausted. unfold capacity in H0. lia.
    + rewrite allocate_fast_empty by exact H0. reflexivity.
  - apply allocate_fast_scan; [exact Hwf|]. unfold capacity, size in *. lia.
Qed.

Lemma allocation_trace (args : Args) (w : World) (evs : list Event)
    (res : option Z) (o' : list bool) :
  trace (snd (allocation_outcome args w (hint_load w :: evs) res o')) =
  trace w ++ hint_load w :: evs ++ allocation_tail args (pool w) res.
Proof.
  unfold allocation_outcome, scan_outcome, allocation_tail.
  destruct res as [i|]; [destruct (T_ctor args)|]; simpl;
    rewrite ?app_nil_r; reflexivity.
Qed.

Lemma allocation_tail_orders (args : Args) (p : LockFreeMemoryPool) (res : option Z) :
  forallb order_ok (allocation_tail args p res) = true.
Proof.
  unfold allocation_tail. destruct res; [destruct (T_ctor args)|]; reflexivity.
Qed.

Lemma perform_allocation (o : Op) (args : Args) (w : World) :
  o = OpAllocateFast args \/ o = OpAllocateSafe args ->
  snd (perform o w) = snd (allocate_fast args w).
Proof.
  intros [-> | ->]; unfold perform, bind; [|rewrite allocate_safe_of_fast];
    destruct (allocate_fast args w) as [[p| | |] w']; reflexivity.
Qed.

Lemma deallocate_fast_trace (elem : Ptr) (w : World) :
  exists new,
    trace (snd (deallocate_fast elem w)) = trace w ++ new /\
    forallb order_ok new = true /\
    (forall off, elem = slot_ptr off ->
       is_Some (segments (pool w) !! Z.to_nat (index_of off)) ->
       new = [EvDestroy (index_of off); release_store (index_of off)]).
Proof.
  destruct elem as [|off|off delta].
  - exists []. simpl. rewrite app_nil_r. repeat split; intros; discriminate.
  - destruct (segments (pool w) !! Z.to_nat (index_of off)) as [seg|] eqn:Hs.
    + rewrite deallocate_fast_slot by (rewrite Hs; eauto).
      eexists. split; [reflexivity|]. split; [reflexivity|].
      intros off' Ho _. inversion Ho; subst. reflexivity.
    + rewrite deallocate_fast_wild by exact Hs.
      eexists. split; [reflexivity|]. split; [reflexivity|].
      intros off' Ho [x Hx]. inversion Ho; subst. congruence.
  - rewrite deallocate_fast_inner. exists []. rewrite app_nil_r.
    repeat split; intros; discriminate.
Qed.

Lemma perform_trace (o : Op) (w : World) :
  pool_wf (pool w) ->
  exists new,
    trace (snd (perform o w)) = trace w ++ new /\
    forallb order_ok new = true /\
    (forall args,
       o = OpAllocateFast args \/ o = OpAllocateSafe args ->
       exists evs res o',
         claim_scan (pool w) (search_start (pool w)) 0 (spurious w) evs res o' /\
         (forall i, res = Some i -> exists pre, evs = pre ++ [claim_cas i true true]) /\
         new = EvLoadHint memory_order_relaxed (search_start (pool w)) ::
               evs ++ allocation_tail args (pool w) res) /\
    (forall idx v,
       slot_released o = Some idx ->
       slot (pool w) idx = Some (mkSegment (Some v) false) ->
       new = [EvDestroy idx; EvStoreFlag idx memory_order_release true]) /\
    (o = OpStats -> new = flag_loads 0 (segments (pool w))).
Proof.
  intros Hwf.
  assert (Halloc : forall args,
            o = OpAllocateFast args \/ o = OpAllocateSafe args ->
            exists new,
              trace (snd (perform o w)) = trace w ++ new /\
              forallb order_ok new = true /\
              exists evs res o',
                claim_scan (pool w) (search_start (pool w)) 0 (spurious w) evs res o' /\
                (forall i, res = Some i ->
                   exists pre, evs = pre ++ [claim_cas i true true]) /\
                new = EvLoadHint memory_order_relaxed (search_start (pool w)) ::
                      evs ++ allocation_tail args (pool w) res).
  { intros args Ho.
    destruct (allocate_fast_scan_all args w Hwf) as [evs [res [o' [Hscan Ha]]]].
    eexists. split; [|split].
    - rewrite (perform_allocation o args w Ho), Ha. apply allocation_trace.
    - simpl. rewrite forallb_app, (scan_orders _ _ _ _ _ _ _ Hscan).
      apply allocation_tail_orders.
    - exists evs, res, o'. split; [exact Hscan|].
      split; [exact (scan_last_cas _ _ _ _ _ _ _ Hscan) | reflexivity]. }
  assert (Hrel : forall elem,
            snd (perform o w) = snd (deallocate_fast elem w) ->
            (forall idx, slot_released o = Some idx ->
               exists off, elem = slot_ptr off /\ idx = index_of off) ->
            is_allocation o = false -> o <> OpStats ->
            exists new,
              trace (snd (perform o w)) = trace w ++ new /\
              forallb order_ok new = true /\
              (forall args,
                 o = OpAllocateFast args \/ o = OpAllocateSafe args ->
                 exists evs res o',
                   claim_scan (pool w) (search_start (pool w)) 0 (spurious w) evs res o' /\
                   (forall i, res = Some i ->
                      exists pre, evs = pre ++ [claim_cas i true true]) /\
                   new = EvLoadHint memory_order_relaxed (search_start (pool w)) ::
                         evs ++ allocation_tail args (pool w) res) /\
              (forall idx v,
                 slot_released o = Some idx ->
                 slot (pool w) idx = Some (mkSegment (Some v) false) ->
                 new = [EvDestroy idx; EvStoreFlag idx memory_order_release true]) /\
              (o = OpStats -> new = flag_loads 0 (segments (pool w)))).
  { intros elem Hsnd Hidx Hal Hst.
    destruct (deallocate_fast_trace elem w) as [new [Ht [Hord Hslot]]].
    exists new. rewrite Hsnd. split; [exact Ht|]. split; [exact Hord|].
    split; [|split].
    - intros args [-> | ->]; discriminate.
    - intros idx v Hr Hs. destruct (Hidx idx Hr) as [off [-> ->]].
      apply (Hslot off eq_refl). unfold slot in Hs. rewrite Hs. eauto.
    - intros ->. congruence. }
  destruct o as [args | args | elem | h |].
  - destruct (Halloc args (or_introl eq_refl)) as [new [Ht [Hord Hev]]].
    exists new. split; [exact Ht|]. split; [exact Hord|]. split; [|split].
    + intros args' [Ho | Ho]; inversion Ho; subst args'. exact Hev.
    + intros idx v Hr. discriminate.
    + discriminate.
  - destruct (Halloc args (or_intror eq_refl)) as [new [Ht [Hord Hev]]].
    exists new. split; [exact Ht|]. split; [exact Hord|]. split; [|split].
    + intros args' [Ho | Ho]; inversion Ho; subst args'. exact Hev.
    + intros idx v Hr. discriminate.
    + discriminate.
  - apply (Hrel elem); try reflexivity; try discriminate.
    + unfold perform, bind. destruct (deallocate_fast elem w) as [[| | |] w']; reflexivity.
    + intros idx Hr. simpl in Hr. destruct elem as [|off|off delta]; try discriminate.
      exists off. inversion Hr. split; reflexivity.
  - destruct (deleter_pool (get_deleter h)) eqn:Hd.
    + apply (Hrel (get h)); try reflexivity; try discriminate.
      * unfold perform, bind. rewrite unique_ptr_dtor_eq, Hd.
        destruct (deallocate_fast (get h) w) as [[| | |] w']; reflexivity.
      * intros idx Hr. simpl in Hr. destruct (get h) as [|off|off delta]; try discriminate.
        rewrite Hd in Hr. exists off. inversion Hr. split; reflexivity.
    + exists []. unfold perform, bind. rewrite unique_ptr_dtor_eq, Hd. simpl.
      rewrite app_nil_r. split; [reflexivity|]. split; [reflexivity|].
      split; [|split].
      * intros args [Ho | Ho]; discriminate.
      * intros idx v Hr. rewrite Hd in Hr. destruct (get h); discriminate.
      * discriminate.
  - unfold perform, bind, get_pool_stats.
    rewrite get_pool_stats_impl_eq
      by (destruct Hwf as [Hmax _]; unfold vector_max_size in Hmax; lia).
    simpl. eexists. split; [reflexivity|]. split; [apply flag_loads_ok|].
    split; [|split].
    + intros args [Ho | Ho]; discriminate.
    + intros idx v Hr. discriminate.
    + reflexivity.
Qed.

(** C8 (memory orders).  Every access carries the order of the contract, and
    the accesses to a slot come in the order that makes the release store pair
    with the next claim.

    One operation on its own performs exactly these accesses.  An allocation:
    the relaxed load of the hint; the compare-exchanges of its scan, each
    acquire-release on success and relaxed on failure, the last one the
    successful one if a slot is claimed; then the constructor call and the
    relaxed store of the hint, or the failed constructor call and the release
    store of free.  A release of a slot that holds an object: the destructor
    call, then the release store of free.  The snapshot: one relaxed load per
    flag.

    Threads, interleaved in any way from a pool with all threads outside:
    every access in the trace carries the order of the contract; each slot
    goes through its life in the one order [phase_step] allows, and is in the
    phase of the thread that holds it, or free if none does.  So between the
    destructor call on a slot, or a failed constructor call, and the next
    constructor call on that slot, the trace has the release store of free on
    the slot and after it the acquire-release compare-exchange that claims
    the slot, which finds it free, with no other change to the slot before
    or between the two: the compare-exchange reads what the release store
    wrote, after the destructor and before the constructor. *)
Theorem memory_order_contract (o : Op) (w : World) (s0 s : System) :
  pool_wf (pool w) ->
  initial s0 ->
  sys_steps s0 s ->
  (exists new,
     trace (snd (perform o w)) = trace w ++ new /\
     forallb order_ok new = true /\
     (forall args,
        o = OpAllocateFast args \/ o = OpAllocateSafe args ->
        exists evs res o',
          claim_scan (pool w) (search_start (pool w)) 0 (spurious w) evs res o' /\
          (forall i, res = Some i -> exists pre, evs = pre ++ [claim_cas i true true]) /\
          new = EvLoadHint memory_order_relaxed (search_start (pool w)) ::
                evs ++ allocation_tail args (pool w) res) /\
     (forall idx v,
        slot_released o = Some idx ->
        slot (pool w) idx = Some (mkSegment (Some v) false) ->
        new = [EvDestroy idx; EvStoreFlag idx memory_order_release true]) /\
     (o = OpStats -> new = flag_loads 0 (segments (pool w)))) /\
  (exists new,
     trace (world s) = trace (world s0) ++ new /\
     forallb order_ok new = true /\
     phases_agree (threads s) new /\
     (forall i, phase i new <> PhBroken) /\
     (forall i a b c ok,
        new = a ++ EvDestroy i :: b ++ EvConstruct i ok :: c ->
        exists b1 b2 b3,
          b = b1 ++ EvStoreFlag i memory_order_release true ::
              b2 ++ EvCas i memory_order_acq_rel memory_order_relaxed true true :: b3 /\
          existsb (writes_slot i) b1 = false /\
          existsb (writes_slot i) b2 = false) /\
     (forall i a b c ok,
        new = a ++ EvConstruct i false :: b ++ EvConstruct i ok :: c ->
        exists b1 b2 b3,
          b = b1 ++ EvStoreFlag i memory_order_release true ::
              b2 ++ EvCas i memory_order_acq_rel memory_order_relaxed true true :: b3 /\
          existsb (writes_slot i) b1 = false /\
          existsb (writes_slot i) b2 = false)).
Proof.
  intros Hwf Hinit Hsteps. split; [exact (perform_trace o w Hwf)|].
  destruct (phases_reachable s0 s Hinit Hsteps) as [new [Ht [Hord Hag]]].
  assert (Hsound : forall i, phase i new <> PhBroken).
  { intros i Hb. destruct Hag as [H1 H2].
    rewrite H2 in Hb; [discriminate|].
    intros k pc Hk Hh. rewrite (H1 k pc i Hk Hh) in Hb.
    exact (phase_of_sound pc Hb). }
  exists new. split; [exact Ht|]. split; [exact Hord|]. split; [exact Hag|].
  split; [exact Hsound|]. split.
  - intros i a b c ok Hnew.
    apply (phase_pairing i (EvDestroy i) PhDestroyed a b c ok); [left; reflexivity| |].
    + intros ph0. unfold phase_step. simpl. rewrite Z.eqb_refl.
      destruct ph0; auto.
    + rewrite <- Hnew. apply Hsound.
  - intros i a b c ok Hnew.
    apply (phase_pairing i (EvConstruct i false) PhFailed a b c ok); [right; reflexivity| |].
    + intros ph0. unfold phase_step. simpl. rewrite Z.eqb_refl.
      destruct ph0; auto.
    + rewrite <- Hnew. apply Hsound.
Qed.

End Pool.

Arguments mkSegment {T} memory available.
Arguments memory {T} s.
Arguments available {T} s.
Arguments mkPool {T} segments search_start.
Arguments segments {T} l.
Arguments search_start {T} l.
Arguments mkWorld {T} pool spurious trace.
Arguments pool {T} w.
Arguments spurious {T} w.
Arguments trace {T} w.
Arguments size {T} p.
Arguments capacity {T} w.
Arguments slot {T} p idx.
Arguments free_at {T} p idx.
Arguments occupied_at {T} p idx.
Arguments flags {T} p.
Arguments free_slots {T} p.
Arguments occupied_slots {T} p.
Arguments pool_wf {T} p.
Arguments claim_scan {T} p start _ _ _ _ _.
Arguments fresh_world {T} sizeof_Segment operator_new pool_size schedule.
Arguments LockFreeMemoryPool_ctor {T} sizeof_Segment operator_new pool_size.
Arguments allocate_fast {T Args} T_ctor args _.
Arguments allocate_safe {T Args} T_ctor args _.
Arguments deallocate_fast {T} NDEBUG elem _.
Arguments deallocate_impl_safe {T} elem _.
Arguments get_pool_stats_impl {T} _.
Arguments get_pool_stats {T} _.
Arguments probe_step {T Args} T_ctor args pool_size start_idx attempts _.
Arguments finish_claim {T Args} T_ctor args pool_size idx _.
Arguments perform {T Args} T_ctor NDEBUG o _.
Arguments run {T Args} T_ctor NDEBUG ops w.
Arguments constructs {T Args} T_ctor o.
Arguments OpAllocateFast {Args} args.
Arguments OpAllocateSafe {Args} args.
Arguments OpDeallocateFast {Args} elem.
Arguments OpDropHandle {Args} h.
Arguments OpStats {Args}.
Arguments slot_released {Args} o.
Arguments is_allocation {Args} o.

(** * The theorems at work

    Pools of integers whose constructor is [ThrowingType_ctor], in a debug
    build. *)

Example scenario_S2 :
  fst (run ThrowingType_ctor false
         [OpAllocateSafe 1; OpAllocateSafe 2; OpAllocateSafe 3; OpAllocateSafe 4;
          OpDropHandle (mk_unique_ptr (slot_ptr 0) (mkPoolDeleter true));
          OpAllocateSafe 5]
         (mkWorld (mkPool (replicate 3 (mkSegment None true)) 0) [] [])) =
  [Returned (ResHandle (mk_unique_ptr (slot_ptr 0) (mkPoolDeleter true)));
   Returned (ResHandle (mk_unique_ptr (slot_ptr 1) (mkPoolDeleter true)));
   Returned (ResHandle (mk_unique_ptr (slot_ptr 2) (mkPoolDeleter true)));
   Returned (ResHandle unique_ptr_null);
   Returned ResUnit;
   Returned (ResHandle (mk_unique_ptr (slot_ptr 0) (mkPoolDeleter true)))].
Proof. reflexivity. Qed.

Local Abbreviation free_seg := (mkSegment (T:=Z) None true).
Local Abbreviation used_seg v := (mkSegment (T:=Z) (Some v) false).

(** Three slots, the first occupied, the hint at 0, one spurious failure
    scheduled: the allocation passes slot 0, fails once on slot 1 and then
    claims it. *)
Lemma allocate_fast_claim_witness :
  pool_wf (pool (mkWorld (mkPool [used_seg 7; free_seg; free_seg] 0) [true] [])) /\
  1 <= capacity (mkWorld (mkPool [used_seg 7; free_seg; free_seg] 0) [true] []) /\
  ThrowingType_ctor 42 = Some 42 /\
  (let w := mkWorld (mkPool [used_seg 7; free_seg; free_seg] 0) [true] [] in
   let p := pool w in
   let start := search_start p in
   let n := size p in
   exists evs res o',
     claim_scan p start 0 (spurious w) evs res o' /\
     match res with
     | Some i =>
         (exists k, 0 <= k < n /\ i = (start + k) mod n /\
                    (cas_reliable (spurious w) = true ->
                     forall j, 0 <= j < k -> occupied_at p ((start + j) mod n))) /\
         free_at p i /\
         allocate_fast ThrowingType_ctor 42 w =
         (Returned (slot_ptr i),
          mkWorld (mkPool (<[Z.to_nat i := mkSegment (Some 42) false]> (segments p))
                          ((i + 1) mod n))
                  o'
                  (trace w ++ EvLoadHint memory_order_relaxed start :: evs ++
                     [EvConstruct i true;
                      EvStoreHint memory_order_relaxed ((i + 1) mod n)]))
     | None =>
         (cas_reliable (spurious w) = true ->
          forall k, 0 <= k < n -> occupied_at p ((start + k) mod n)) /\
         allocate_fast ThrowingType_ctor 42 w =
         (Returned nullptr,
          mkWorld p o' (trace w ++ EvLoadHint memory_order_relaxed start :: evs))
     end).
Proof.
  assert (Hwf : pool_wf (pool (mkWorld (mkPool [used_seg 7; free_seg; free_seg] 0)
                                       [true] [])))
    by (unfold pool_wf, size, vector_max_size; simpl; lia).
  assert (Hcap : 1 <= capacity (mkWorld (mkPool [used_seg 7; free_seg; free_seg] 0)
                                        [true] []))
    by (unfold capacity, size; simpl; lia).
  split; [exact Hwf|]. split; [exact Hcap|]. split; [reflexivity|].
  exact (allocate_fast_claim Z Z ThrowingType_ctor 42 42 _ Hwf Hcap eq_refl).
Defined.

Example allocate_fast_claim_run :
  allocate_fast ThrowingType_ctor 42
    (mkWorld (mkPool [used_seg 7; free_seg; free_seg] 0) [true] []) =
  (Returned (slot_ptr 1),
   mkWorld (mkPool [used_seg 7; used_seg 42; free_seg] 2) []
     [EvLoadHint memory_order_relaxed 0;
      EvCas 0 memory_order_acq_rel memory_order_relaxed false false;
      EvCas 1 memory_order_acq_rel memory_order_relaxed false true;
      EvCas 1 memory_order_acq_rel memory_order_relaxed true true;
      EvConstruct 1 true;
      EvStoreHint memory_order_relaxed 2]).
Proof. reflexivity. Qed.

(** Two slots, three allocations in a row. *)
Lemma capacity_bound_witness :
  0 <= 2 /\
  fresh_world 8 (fun _ => true) 2 [] = Returned (mkWorld (mkPool [free_seg; free_seg] 0) [] []) /\
  exists rs r,
    fst (run ThrowingType_ctor false
           [OpAllocateFast 1; OpAllocateSafe 2; OpAllocateFast 3]
           (mkWorld (mkPool [free_seg; free_seg] 0) [] [])) = rs ++ [r] /\
    Z.of_nat (length rs) = 2 /\
    Forall (fun r => succeeded r = true) rs /\
    exhausted r = true.
Proof.
  split; [lia|]. split; [reflexivity|].
  refine (proj2 (proj2 (capacity_bound Z Z ThrowingType_ctor false 8%positive (fun _ => true) 2 []
                          (mkWorld (mkPool [free_seg; free_seg] 0) [] [])
                          _ eq_refl))
            [OpAllocateFast 1; OpAllocateSafe 2; OpAllocateFast 3] eq_refl _ eq_refl).
  - lia.
  - repeat constructor; discriminate.
Defined.

(** C2 without the proviso on the schedule.  Every compare-exchange of two
    allocations on a fresh pool of one slot fails spuriously: both return
    [nullptr], no success where the capacity bound P1 of the specification
    counts exactly one, and the slot is free all along. *)
Lemma capacity_bound_counterexample :
  fresh_world 8 (fun _ => true) 1 (replicate 6 true) =
    Returned (mkWorld (mkPool [free_seg] 0) (replicate 6 true) []) /\
  Forall (constructs ThrowingType_ctor) [OpAllocateFast 1; OpAllocateFast 2] /\
  fst (run ThrowingType_ctor false [OpAllocateFast 1; OpAllocateFast 2]
         (mkWorld (mkPool [free_seg] 0) (replicate 6 true) [])) =
    [Returned (ResPtr nullptr); Returned (ResPtr nullptr)] /\
  count_succeeded
    (fst (run ThrowingType_ctor false [OpAllocateFast 1; OpAllocateFast 2]
            (mkWorld (mkPool [free_seg] 0) (replicate 6 true) []))) <> 1%nat /\
  free_slots
    (pool (snd (run ThrowingType_ctor false [OpAllocateFast 1; OpAllocateFast 2]
                  (mkWorld (mkPool [free_seg] 0) (replicate 6 true) [])))) = 1%nat.
Proof.
  split; [reflexivity|]. split; [repeat constructor; discriminate|].
  split; [reflexivity|]. split; [discriminate | reflexivity].
Qed.

(** Slot 0 is handed out; the operations that follow release slot 1 only. *)
Lemma no_aliasing_witness :
  pool_wf (pool (mkWorld (mkPool [free_seg; free_seg] 0) [] [])) /\
  slot_handed (fst (perform ThrowingType_ctor false (OpAllocateFast 1)
                      (mkWorld (mkPool [free_seg; free_seg] 0) [] []))) = Some 0 /\
  Forall (fun o => slot_released o <> Some 0)
    [OpAllocateFast 2; OpDeallocateFast (slot_ptr 1); OpAllocateSafe 3; OpStats;
     OpAllocateFast 4] /\
  free_at (pool (mkWorld (mkPool [free_seg; free_seg] 0) [] [])) 0 /\
  Forall (fun r => slot_handed r <> Some 0)
    (fst (run ThrowingType_ctor false
            [OpAllocateFast 2; OpDeallocateFast (slot_ptr 1); OpAllocateSafe 3;
             OpStats; OpAllocateFast 4]
            (snd (perform ThrowingType_ctor false (OpAllocateFast 1)
                    (mkWorld (mkPool [free_seg; free_seg] 0) [] []))))) /\
  occupied_at
    (pool (snd (run ThrowingType_ctor false
                  [OpAllocateFast 2; OpDeallocateFast (slot_ptr 1); OpAllocateSafe 3;
                   OpStats; OpAllocateFast 4]
                  (snd (perform ThrowingType_ctor false (OpAllocateFast 1)
                          (mkWorld (mkPool [free_seg; free_seg] 0) [] []))))))
    0.
Proof.
  assert (Hwf : pool_wf (pool (mkWorld (mkPool [free_seg; free_seg] 0) [] [])))
    by (unfold pool_wf, size, vector_max_size; simpl; lia).
  assert (Hmid : Forall (fun o : Op Z => slot_released o <> Some 0)
            [OpAllocateFast 2; OpDeallocateFast (slot_ptr 1); OpAllocateSafe 3;
             OpStats; OpAllocateFast 4])
    by (repeat constructor; discriminate).
  split; [exact Hwf|]. split; [reflexivity|]. split; [exact Hmid|].
  exact (no_aliasing Z Z ThrowingType_ctor false _ (OpAllocateFast 1) _ 0
           Hwf eq_refl Hmid).
Defined.


Example constructor_failure_run :
  allocate_fast ThrowingType_ctor 666
    (mkWorld (mkPool [free_seg; free_seg] 0) [true; true; true] []) =
  (Thrown constructor_failure,
   mkWorld (mkPool [free_seg; free_seg] 0) []
     [EvLoadHint memory_order_relaxed 0;
      EvCas 0 memory_order_acq_rel memory_order_relaxed false true;
      EvCas 0 memory_order_acq_rel memory_order_relaxed false true;
      EvCas 0 memory_order_acq_rel memory_order_relaxed false true;
      EvCas 1 memory_order_acq_rel memory_order_relaxed true true;
      EvConstruct 1 false;
      EvStoreFlag 1 memory_order_release true]) /\
  fst (allocate_fast ThrowingType_ctor 1
         (snd (allocate_fast ThrowingType_ctor 666
                 (mkWorld (mkPool [free_seg; free_seg] 0) [true; true; true] [])))) =
  Returned (slot_ptr 0).
Proof. split; reflexivity. Qed.


(** Four slots, two of them occupied. *)
Lemma get_pool_stats_impl_correct_witness :
  size (pool (mkWorld (mkPool [used_seg 7; free_seg; free_seg; used_seg 9] 1) [] []))
    <= vector_max_size /\
  (let w := mkWorld (mkPool [used_seg 7; free_seg; free_seg; used_seg 9] 1) [] [] in
   exists s w',
     get_pool_stats_impl w = (Returned s, w') /\
     pool w' = pool w /\
     total_objects s = capacity w /\
     free_objects s = Z.of_nat (free_slots (pool w)) /\
     used_objects s = total_objects s - free_objects s /\
     free_objects s + used_objects s = total_objects s /\
     0 <= used_objects s /\
     utilization_percent s =
       (if total_objects s =? 0 then double_0
        else double_mul (double_div (double_of_size_t (used_objects s))
                                    (double_of_size_t (total_objects s)))
                        double_100)).
Proof.
  assert (Hmax : size (pool (mkWorld (mkPool [used_seg 7; free_seg; free_seg; used_seg 9] 1)
                                     [] [])) <= vector_max_size)
    by (unfold size, vector_max_size; simpl; lia).
  split; [exact Hmax|].
  exact (get_pool_stats_impl_correct Z _ Hmax).
Defined.

(** Scenario S3: five of ten slots in use, a utilisation of [50.0]. *)
Example scenario_S3 :
  fst (get_pool_stats_impl
         (mkWorld (mkPool (replicate 5 (used_seg 1) ++ replicate 5 free_seg) 5) [] [])) =
  Returned (mkPoolStats 10 5 5 (S754_finite false 7036874417766400 (-47))).
Proof. reflexivity. Qed.

(** The second probe of an allocation on three slots, the first occupied,
    with three spurious failures scheduled: one attempt on slot 0, three on
    slot 1, and slot 2 is claimed. *)
Lemma spurious_retry_cap_witness :
  pool_wf (pool (mkWorld (mkPool [used_seg 7; free_seg; free_seg] 0)
                         [true; true; true] [])) /\
  0 <= 1 < capacity (mkWorld (mkPool [used_seg 7; free_seg; free_seg] 0)
                             [true; true; true] []) /\
  probe_step ThrowingType_ctor 42 3 0 1
    (mkWorld (mkPool [used_seg 7; free_seg; free_seg] 0) [true; true; true] []) =
  (Returned Next,
   mkWorld (mkPool [used_seg 7; free_seg; free_seg] 0) []
     [claim_cas 1 false true; claim_cas 1 false true; claim_cas 1 false true]) /\
  (let w := mkWorld (mkPool [used_seg 7; free_seg; free_seg] 0) [true; true; true] [] in
   let p := pool w in
   let n := size p in
   let idx := probe (search_start p) n 1 in
   exists evs res o',
     claim_scan p (search_start p) 0 (spurious w) evs res o' /\
     allocate_fast ThrowingType_ctor 42 w =
     allocation_outcome Z Z ThrowingType_ctor 42 w
       (EvLoadHint memory_order_relaxed (search_start p) :: evs) res o' /\
     ((exists j, 0 <= j < 1 /\ res = Some (probe (search_start p) n j)) \/
      (exists pre ok evk,
         evs = pre ++ evk /\
         (forall e, e ∈ pre ->
            exists j swapped observed,
              0 <= j < 1 /\
              e = claim_cas (probe (search_start p) n j) swapped observed) /\
         claim_scan p (search_start p) 1 ok evk res o' /\
         (occupied_at p idx ->
          exists rest,
            evk = claim_cas idx false false :: rest /\
            claim_scan p (search_start p) (1 + 1) ok rest res o') /\
         (free_at p idx ->
          forall o2, ok = [true; true; true] ++ o2 ->
          exists rest,
            evk = [claim_cas idx false true; claim_cas idx false true;
                   claim_cas idx false true] ++ rest /\
            claim_scan p (search_start p) (1 + 1) o2 rest res o') /\
         (free_at p idx ->
          forall m o2,
          (m < 3)%nat ->
          ok = replicate m true ++ o2 ->
          head o2 <> Some true ->
          evk = replicate m (claim_cas idx false true) ++ [claim_cas idx true true] /\
          res = Some idx /\
          o' = tail o2)))).
Proof.
  assert (Hwf : pool_wf (pool (mkWorld (mkPool [used_seg 7; free_seg; free_seg] 0)
                                       [true; true; true] [])))
    by (unfold pool_wf, size, vector_max_size; simpl; lia).
  assert (Hk : 0 <= 1 < capacity (mkWorld (mkPool [used_seg 7; free_seg; free_seg] 0)
                                          [true; true; true] []))
    by (unfold capacity, size; simpl; lia).
  split; [exact Hwf|]. split; [exact Hk|].
  pose proof (spurious_retry_cap Z Z ThrowingType_ctor 42 _ 1 Hwf Hk)
    as [_ [_ [_ [Hgiven [_ [Hcall _]]]]]].
  split; [exact (Hgiven eq_refl [] eq_refl) | exact Hcall].
Defined.

Example spurious_retry_cap_run :
  allocate_fast ThrowingType_ctor 42
    (mkWorld (mkPool [used_seg 7; free_seg; free_seg] 0) [true; true; true] []) =
  (Returned (slot_ptr 2),
   mkWorld (mkPool [used_seg 7; free_seg; used_seg 42] 0) []
     [EvLoadHint memory_order_relaxed 0;
      claim_cas 0 false false;
      claim_cas 1 false true; claim_cas 1 false true; claim_cas 1 false true;
      claim_cas 2 true true;
      EvConstruct 2 true;
      EvStoreHint memory_order_relaxed 0]).
Proof. reflexivity. Qed.

(** The release path on a slot that holds no object (slot 1, free already),
    and on a pointer five segments after the start of an array of two. *)
Example release_unchecked_run :
  deallocate_impl_safe (slot_ptr 1) (mkWorld (mkPool [used_seg 7; free_seg] 0) [] []) =
  (Returned true,
   mkWorld (mkPool [used_seg 7; free_seg] 0) []
     [EvStoreFlag 1 memory_order_release true]) /\
  deallocate_impl_safe (slot_ptr 5) (mkWorld (mkPool [used_seg 7; free_seg] 0) [] []) =
  (Fault,
   mkWorld (mkPool [used_seg 7; free_seg] 0) []
     [EvStoreFlag 5 memory_order_release true]) /\
  deallocate_fast false (slot_ptr 0) (mkWorld (mkPool [used_seg 7; free_seg] 0) [] []) =
  (Returned tt,
   mkWorld (mkPool [free_seg; free_seg] 0) []
     [EvDestroy 0; EvStoreFlag 0 memory_order_release true]).
Proof. repeat split. Qed.

Arguments mkSystem {T Args} world threads.
Arguments world {T Args} s.
Arguments threads {T Args} s.
Arguments sys_steps {T Args} T_ctor NDEBUG _ _.
Arguments sys_step {T Args} T_ctor NDEBUG s _.
Arguments PcIdle {Args}.
Arguments PcStart {Args} args.
Arguments PcDone {Args} r.

(** Two threads allocate at once on a fresh pool of two slots.  Both load
    the hint 0; the first claims slot 0, the second finds it occupied and
    claims slot 1; the second publishes its hint before the first. *)
Example interleaved_run :
  exists w',
    sys_steps ThrowingType_ctor false
      (mkSystem (mkWorld (mkPool [free_seg; free_seg] 0) [] []) [PcIdle; PcIdle])
      (mkSystem w' [PcDone (Returned (slot_ptr 0)); PcDone (Returned (slot_ptr 1))]) /\
    pool w' = mkPool [used_seg 1; used_seg 2] 1.
Proof.
  eexists. split.
  - eapply sys_steps_first;
      [eapply (sys_allocate _ _ _ _ _ 0 _ 1); reflexivity | cbn].
    eapply sys_steps_first;
      [eapply (sys_allocate _ _ _ _ _ 1 _ 2); reflexivity | cbn].
    do 2 (eapply sys_steps_first;
            [eapply (sys_run _ _ _ _ _ 0); [reflexivity | reflexivity | lazy; reflexivity]
            | cbn];
          eapply sys_steps_first;
            [eapply (sys_run _ _ _ _ _ 1); [reflexivity | reflexivity | lazy; reflexivity]
            | cbn]).
    do 2 (eapply sys_steps_first;
            [eapply (sys_run _ _ _ _ _ 1); [reflexivity | reflexivity | lazy; reflexivity]
            | cbn]).
    eapply sys_steps_first;
      [eapply (sys_run _ _ _ _ _ 0); [reflexivity | reflexivity | lazy; reflexivity]
      | cbn].
    eapply sys_steps_first;
      [eapply (sys_run _ _ _ _ _ 1); [reflexivity | reflexivity | lazy; reflexivity]
      | cbn].
    eapply sys_steps_first;
      [eapply (sys_run _ _ _ _ _ 0); [reflexivity | reflexivity | lazy; reflexivity]
      | cbn].
    apply sys_steps_refl.
  - reflexivity.
Qed.

(** * The further properties at work *)

Arguments held_by {T Args} T_ctor NDEBUG held ops w.
Arguments aims_at_segment {Args} o.
Arguments thread_run {T Args} T_ctor NDEBUG worlds pc.
Arguments releases_held {T Args} T_ctor NDEBUG held ops w.
Arguments outcome_of_op {T Args} T_ctor o r.
Arguments own_steps {T Args} T_ctor NDEBUG n _ _ _.
Arguments holds {Args} pc.
Arguments initial {T Args} s.
Arguments thread_step {T Args} T_ctor NDEBUG pc _.
Arguments unique_ptr_dtor {T} NDEBUG h _.
Arguments flag_matches_object {T} seg.
Arguments PcProbe {Args} args start_idx attempts retry.
Arguments PcDestroy {Args} off.

Local Abbreviation one_used := (mkWorld (mkPool [used_seg 7; free_seg] 0) [] []).
Local Abbreviation full_pool := (mkWorld (mkPool [used_seg 7; used_seg 8] 0) [] []).
Local Abbreviation new_pool := (mkWorld (mkPool [free_seg; free_seg] 0) [] []).
Local Abbreviation two_idle :=
  (mkSystem (mkWorld (mkPool [free_seg; free_seg] 0) [] [])
            [PcIdle (Args:=Z); PcIdle]).

(** Segments of 8 bytes and an allocator with 64 bytes to give: three
    slots are constructed, all free. *)
Lemma constructor_all_free_witness :
  0 <= 3 /\
  exists p : LockFreeMemoryPool Z,
    LockFreeMemoryPool_ctor 8 (fun bytes => bytes <=? 64) 3 = Returned p /\
    size p = 3 /\
    search_start p = 0 /\
    (forall i, 0 <= i < 3 -> slot p i = Some free_seg) /\
    free_slots p = 3%nat.
Proof.
  assert (H : 0 <= 3) by lia.
  split; [exact H|].
  destruct (constructor_all_free Z 8%positive (fun bytes => bytes <=? 64) 3 H)
    as [_ [_ [Hret Hfacts]]].
  destruct (Hret ltac:(apply Z.leb_le; reflexivity) (or_intror eq_refl)) as [p Hp].
  destruct (Hfacts p Hp) as [_ [Hs [Hh [_ [Hslots [Hf _]]]]]].
  exists p. repeat split; assumption.
Defined.

(** The same allocator, asked for sixteen slots, and a size no vector of
    segments can have. *)
Example constructor_throws :
  LockFreeMemoryPool_ctor (T:=Z) 8 (fun bytes => bytes <=? 64) 16 = Thrown bad_alloc /\
  LockFreeMemoryPool_ctor (T:=Z) 8 (fun bytes => bytes <=? 64) (2 ^ 62) =
  Thrown length_error.
Proof. split; reflexivity. Qed.

Lemma allocate_safe_noexcept_witness :
  pool_wf (pool one_used) /\
  exists h,
    allocate_safe ThrowingType_ctor 666 one_used =
      (Returned h, snd (allocate_fast ThrowingType_ctor 666 one_used)) /\
    h = unique_ptr_null.
Proof.
  assert (Hwf : pool_wf (pool one_used))
    by (unfold pool_wf, size, vector_max_size; simpl; lia).
  split; [exact Hwf|].
  destruct (allocate_safe_noexcept Z Z ThrowingType_ctor 666 one_used Hwf)
    as [h [H1 H2]].
  exists h. split; [exact H1 | exact H2].
Defined.

(** Slot 0 holds the object 7. *)
Lemma deallocate_fast_effect_witness :
  pool_wf (pool one_used) /\
  0 <= 0 < capacity one_used /\
  slot (pool one_used) 0 = Some (used_seg 7) /\
  fst (deallocate_fast false (slot_ptr 0) one_used) = Returned tt /\
  slot (pool (snd (deallocate_fast false (slot_ptr 0) one_used))) 0 = Some free_seg /\
  trace (snd (deallocate_fast false (slot_ptr 0) one_used)) =
  trace one_used ++ [EvDestroy 0; EvStoreFlag 0 memory_order_release true].
Proof.
  assert (Hwf : pool_wf (pool one_used))
    by (unfold pool_wf, size, vector_max_size; simpl; lia).
  assert (Hi : 0 <= 0 < capacity one_used) by (unfold capacity, size; simpl; lia).
  split; [exact Hwf|]. split; [exact Hi|]. split; [reflexivity|].
  pose proof (deallocate_fast_effect Z false 0 7 one_used Hwf Hi eq_refl) as H.
  cbv zeta in H. destruct H as [H1 [H2 [_ [_ [_ [_ H7]]]]]].
  split; [exact H1 | split; [exact H2 | exact H7]].
Defined.

Lemma allocate_deallocate_round_trip_witness :
  pool_wf (pool one_used) /\
  allocate_fast ThrowingType_ctor 42 one_used =
    (Returned (slot_ptr 1), snd (allocate_fast ThrowingType_ctor 42 one_used)) /\
  flags (pool (snd (deallocate_fast false (slot_ptr 1)
                      (snd (allocate_fast ThrowingType_ctor 42 one_used))))) =
  flags (pool one_used).
Proof.
  assert (Hwf : pool_wf (pool one_used))
    by (unfold pool_wf, size, vector_max_size; simpl; lia).
  assert (Ha : allocate_fast ThrowingType_ctor 42 one_used =
               (Returned (slot_ptr 1), snd (allocate_fast ThrowingType_ctor 42 one_used)))
    by reflexivity.
  split; [exact Hwf|]. split; [exact Ha|].
  pose proof (allocate_deallocate_round_trip Z Z ThrowingType_ctor false 42
                one_used _ 1 Hwf Ha) as H.
  cbv zeta in H. destruct H as [_ [H2 _]]. exact H2.
Defined.

Lemma scoped_handle_round_trip_witness :
  pool_wf (pool one_used) /\
  allocate_safe ThrowingType_ctor 42 one_used =
    (Returned (mk_unique_ptr (slot_ptr 1) (mkPoolDeleter true)),
     snd (allocate_safe ThrowingType_ctor 42 one_used)) /\
  flags (pool (snd (unique_ptr_dtor false
                      (mk_unique_ptr (slot_ptr 1) (mkPoolDeleter true))
                      (snd (allocate_safe ThrowingType_ctor 42 one_used))))) =
  flags (pool one_used).
Proof.
  assert (Hwf : pool_wf (pool one_used))
    by (unfold pool_wf, size, vector_max_size; simpl; lia).
  assert (Ha : allocate_safe ThrowingType_ctor 42 one_used =
               (Returned (mk_unique_ptr (slot_ptr 1) (mkPoolDeleter true)),
                snd (allocate_safe ThrowingType_ctor 42 one_used)))
    by reflexivity.
  split; [exact Hwf|]. split; [exact Ha|].
  exact (proj1 (proj2 (scoped_handle_round_trip Z Z ThrowingType_ctor false 42
                         one_used _ _ Hwf Ha))).
Defined.

Lemma live_object_intact_witness :
  pool_wf (pool one_used) /\
  0 <= 0 /\
  slot (pool one_used) 0 = Some (used_seg 7) /\
  available (used_seg 7) = false /\
  Forall (fun o : Op Z => slot_released o <> Some 0)
    [OpAllocateFast 1; OpDeallocateFast (slot_ptr 1); OpStats] /\
  slot (pool (snd (run ThrowingType_ctor false
                     [OpAllocateFast 1; OpDeallocateFast (slot_ptr 1); OpStats]
                     one_used))) 0 = Some (used_seg 7).
Proof.
  assert (Hwf : pool_wf (pool one_used))
    by (unfold pool_wf, size, vector_max_size; simpl; lia).
  assert (Hops : Forall (fun o : Op Z => slot_released o <> Some 0)
                   [OpAllocateFast 1; OpDeallocateFast (slot_ptr 1); OpStats])
    by (repeat constructor; discriminate).
  split; [exact Hwf|]. split; [lia|]. split; [reflexivity|]. split; [reflexivity|].
  split; [exact Hops|].
  exact (live_object_intact Z Z ThrowingType_ctor false one_used _ 0 (used_seg 7)
           Hwf ltac:(lia) eq_refl eq_refl Hops).
Defined.

Lemma exhaustion_iff_full_witness :
  pool_wf (pool full_pool) /\
  cas_reliable (spurious full_pool) = true /\
  (fst (allocate_fast ThrowingType_ctor 1 full_pool) = Returned nullptr <->
   free_slots (pool full_pool) = 0%nat).
Proof.
  assert (Hwf : pool_wf (pool full_pool))
    by (unfold pool_wf, size, vector_max_size; simpl; lia).
  split; [exact Hwf|]. split; [reflexivity|].
  exact (exhaustion_iff_full Z Z ThrowingType_ctor 1 full_pool Hwf eq_refl).
Defined.

Lemma released_slot_reused_witness :
  pool_wf (pool full_pool) /\
  0 <= 1 < capacity full_pool /\
  free_slots (pool full_pool) = 0%nat /\
  ThrowingType_ctor 5 = Some 5 /\
  cas_reliable (spurious full_pool) = true /\
  fst (allocate_fast ThrowingType_ctor 5 full_pool) = Returned nullptr /\
  fst (allocate_fast ThrowingType_ctor 5
         (snd (deallocate_fast false (slot_ptr 1) full_pool))) =
  Returned (slot_ptr 1).
Proof.
  assert (Hwf : pool_wf (pool full_pool))
    by (unfold pool_wf, size, vector_max_size; simpl; lia).
  assert (Hi : 0 <= 1 < capacity full_pool) by (unfold capacity, size; simpl; lia).
  split; [exact Hwf|]. split; [exact Hi|]. split; [reflexivity|].
  split; [reflexivity|]. split; [reflexivity|].
  exact (released_slot_reused Z Z ThrowingType_ctor false 5 5 full_pool 1
           Hwf Hi eq_refl eq_refl eq_refl).
Defined.

Lemma fresh_pool_fills_in_order_witness :
  0 <= 2 /\
  fresh_world 8 (fun _ => true) 2 [] = Returned new_pool /\
  cas_reliable [] = true /\
  Forall (constructs ThrowingType_ctor) [OpAllocateFast 1; OpAllocateSafe 2] /\
  Z.of_nat (length [OpAllocateFast 1; OpAllocateSafe 2]) <= 2 /\
  slot_handed <$> fst (run ThrowingType_ctor false
                         [OpAllocateFast 1; OpAllocateSafe 2] new_pool) =
  Some <$> seqZ 0 (Z.of_nat (length [OpAllocateFast 1; OpAllocateSafe 2])).
Proof.
  assert (Hops : Forall (constructs ThrowingType_ctor)
                   [OpAllocateFast 1; OpAllocateSafe 2])
    by (repeat constructor; discriminate).
  assert (Hlen : Z.of_nat (length [OpAllocateFast 1; OpAllocateSafe 2]) <= 2)
    by (simpl; lia).
  split; [lia|]. split; [reflexivity|]. split; [reflexivity|].
  split; [exact Hops|]. split; [exact Hlen|].
  exact (fresh_pool_fills_in_order Z Z ThrowingType_ctor false 8%positive
           (fun _ => true) 2 [] new_pool _ ltac:(lia) eq_refl eq_refl Hops Hlen).
Defined.

(** A client of a new pool of two slots: a constructor that throws, an
    allocation and its release, a handle and its end, a null release. *)
Lemma operations_never_fault_witness :
  0 <= 2 /\
  fresh_world 8 (fun _ => true) 2 [] = Returned new_pool /\
  releases_held ThrowingType_ctor false []
    [OpAllocateFast 666; OpAllocateFast 1; OpStats; OpDeallocateFast (slot_ptr 0);
     OpAllocateSafe 2; OpDropHandle (mk_unique_ptr (slot_ptr 1) (mkPoolDeleter true));
     OpDeallocateFast nullptr] new_pool = true /\
  forallb aims_at_segment
    [OpAllocateFast 666; OpAllocateFast 1; OpStats; OpDeallocateFast (slot_ptr 0);
     OpAllocateSafe 2; OpDropHandle (mk_unique_ptr (slot_ptr 1) (mkPoolDeleter true));
     OpDeallocateFast nullptr] = true /\
  Forall2 (outcome_of_op ThrowingType_ctor)
    [OpAllocateFast 666; OpAllocateFast 1; OpStats; OpDeallocateFast (slot_ptr 0);
     OpAllocateSafe 2; OpDropHandle (mk_unique_ptr (slot_ptr 1) (mkPoolDeleter true));
     OpDeallocateFast nullptr]
    (fst (run ThrowingType_ctor false
            [OpAllocateFast 666; OpAllocateFast 1; OpStats;
             OpDeallocateFast (slot_ptr 0); OpAllocateSafe 2;
             OpDropHandle (mk_unique_ptr (slot_ptr 1) (mkPoolDeleter true));
             OpDeallocateFast nullptr] new_pool)).
Proof.
  split; [lia|]. split; [reflexivity|]. split; [reflexivity|]. split; [reflexivity|].
  exact (proj1 (operations_never_fault Z Z ThrowingType_ctor false 8%positive
                  (fun _ => true) 2 [] new_pool
                  [OpAllocateFast 666; OpAllocateFast 1; OpStats;
                   OpDeallocateFast (slot_ptr 0); OpAllocateSafe 2;
                   OpDropHandle (mk_unique_ptr (slot_ptr 1) (mkPoolDeleter true));
                   OpDeallocateFast nullptr]
                  ltac:(lia) eq_refl eq_refl eq_refl)).
Defined.

Lemma operation_accounting_witness :
  pool_wf (pool one_used) /\
  (forall i,
     slot_released (OpDeallocateFast (Args:=Z) (slot_ptr 0)) = Some i ->
     occupied_at (pool one_used) i ->
     S (occupied_slots
          (pool (snd (perform ThrowingType_ctor false
                        (OpDeallocateFast (slot_ptr 0)) one_used)))) =
     occupied_slots (pool one_used) /\
     free_slots
       (pool (snd (perform ThrowingType_ctor false
                     (OpDeallocateFast (slot_ptr 0)) one_used))) =
     S (free_slots (pool one_used))).
Proof.
  assert (Hwf : pool_wf (pool one_used))
    by (unfold pool_wf, size, vector_max_size; simpl; lia).
  split; [exact Hwf|].
  exact (proj1 (proj2 (operation_accounting Z Z ThrowingType_ctor false
                         (OpDeallocateFast (slot_ptr 0)) one_used Hwf))).
Defined.

Lemma client_accounting_witness :
  0 <= 2 /\
  fresh_world 8 (fun _ => true) 2 [] = Returned new_pool /\
  releases_held ThrowingType_ctor false []
    [OpAllocateFast 1; OpAllocateSafe 2; OpDeallocateFast (slot_ptr 0)] new_pool = true /\
  occupied_slots
    (pool (snd (run ThrowingType_ctor false
                  [OpAllocateFast 1; OpAllocateSafe 2; OpDeallocateFast (slot_ptr 0)]
                  new_pool))) =
  length (held_by ThrowingType_ctor false []
            [OpAllocateFast 1; OpAllocateSafe 2; OpDeallocateFast (slot_ptr 0)]
            new_pool).
Proof.
  split; [lia|]. split; [reflexivity|]. split; [reflexivity|].
  pose proof (client_accounting Z Z ThrowingType_ctor false 8%positive
                (fun _ => true) 2 [] new_pool
                [OpAllocateFast 1; OpAllocateSafe 2; OpDeallocateFast (slot_ptr 0)]
                ltac:(lia) eq_refl eq_refl) as H.
  cbv zeta in H. destruct H as [_ [_ [H _]]]. exact H.
Defined.

Lemma allocate_fast_bounded_witness :
  pool_wf (pool one_used) /\
  exists new,
    trace (snd (allocate_fast ThrowingType_ctor 42 one_used)) = trace one_used ++ new /\
    Z.of_nat (length (List.filter is_cas new)) <= max_spurious_retries * capacity one_used /\
    Z.of_nat (length new) <= max_spurious_retries * capacity one_used + 3.
Proof.
  assert (Hwf : pool_wf (pool one_used))
    by (unfold pool_wf, size, vector_max_size; simpl; lia).
  split; [exact Hwf|].
  exact (allocate_fast_bounded Z Z ThrowingType_ctor 42 one_used Hwf).
Defined.

Lemma threads_never_fault_witness :
  initial two_idle /\
  sys_steps ThrowingType_ctor false two_idle
    (mkSystem (world two_idle) [PcStart 1; PcIdle]) /\
  [PcStart 1; PcIdle] !! 0%nat = Some (PcStart 1) /\
  exists pc' w',
    thread_step ThrowingType_ctor false (PcStart 1) (world two_idle) =
      (Returned pc', w') /\
    capacity w' = capacity (world two_idle).
Proof.
  assert (Hinit : initial two_idle).
  { split; [unfold pool_wf, size, vector_max_size; simpl; lia|].
    repeat constructor. }
  assert (Hsteps : sys_steps ThrowingType_ctor false two_idle
                     (mkSystem (world two_idle) [PcStart 1; PcIdle])).
  { eapply sys_steps_step; [apply sys_steps_refl|].
    exact (sys_allocate Z Z ThrowingType_ctor false two_idle 0 PcIdle 1
             eq_refl eq_refl eq_refl). }
  split; [exact Hinit|]. split; [exact Hsteps|]. split; [reflexivity|].
  exact (threads_never_fault Z Z ThrowingType_ctor false two_idle _ 0 (PcStart 1)
           Hinit Hsteps eq_refl).
Defined.

(** Two slots, the first occupied: eighteen steps end an allocation and
    two end a release, whatever the other threads leave between the steps
    (here, nothing changes). *)
Lemma calls_wait_free_witness :
  0 <= 2 /\
  Forall (fun w : World Z => pool_wf (pool w) /\ size (pool w) = 2)
    (replicate 18 one_used) /\
  (exists r, thread_run ThrowingType_ctor false (replicate 18 one_used) (PcStart 1) =
             Returned (PcDone r)) /\
  thread_run ThrowingType_ctor false (replicate 18 one_used) (PcDestroy 0) =
  Returned PcIdle.
Proof.
  assert (Hn : 0 <= 2) by lia.
  assert (Hall : Forall (fun w : World Z => pool_wf (pool w) /\ size (pool w) = 2)
                   (replicate 18 one_used)).
  { apply Forall_replicate. split; [|reflexivity].
    unfold pool_wf, size, vector_max_size; simpl; lia. }
  split; [exact Hn|]. split; [exact Hall|].
  pose proof (calls_wait_free Z Z ThrowingType_ctor false 2 (replicate 18 one_used)
                Hn Hall) as [Halloc [Hfree _]].
  split.
  - apply (Halloc 1). simpl. lia.
  - apply (Hfree 0); simpl; lia.
Defined.

Example calls_wait_free_run :
  thread_run ThrowingType_ctor false (replicate 18 one_used) (PcStart 1) =
  Returned (PcDone (Returned (slot_ptr 1))).
Proof. reflexivity. Qed.

Lemma capacity_bound_interleaved_witness :
  initial two_idle /\
  exists w',
    sys_steps ThrowingType_ctor false two_idle
      (mkSystem w' [PcDone (Returned (slot_ptr 0)); PcDone (Returned (slot_ptr 1))]) /\
    Z.of_nat (length (omap holds
                        [PcDone (Args:=Z) (Returned (slot_ptr 0));
                         PcDone (Returned (slot_ptr 1))])) <= capacity w'.
Proof.
  assert (Hinit : initial two_idle).
  { split; [unfold pool_wf, size, vector_max_size; simpl; lia|].
    repeat constructor. }
  split; [exact Hinit|].
  destruct interleaved_run as [w' [Hsteps _]].
  exists w'. split; [exact Hsteps|].
  exact (proj2 (capacity_bound_interleaved Z Z ThrowingType_ctor false two_idle _
                  Hinit Hsteps)).
Defined.

(** An allocation, a constructor that throws, a second allocation, and the
    release of both slots. *)
Lemma flags_match_objects_witness :
  0 <= 2 /\
  fresh_world 8 (fun _ => true) 2 [] = Returned new_pool /\
  releases_held ThrowingType_ctor false []
    [OpAllocateFast 1; OpAllocateFast 666; OpAllocateFast 2;
     OpDeallocateFast (slot_ptr 1); OpDeallocateFast (slot_ptr 0)] new_pool = true /\
  forallb aims_at_segment
    [OpAllocateFast 1; OpAllocateFast 666; OpAllocateFast 2;
     OpDeallocateFast (slot_ptr 1); OpDeallocateFast (slot_ptr 0)] = true /\
  Forall flag_matches_object
    (segments (pool (snd (run ThrowingType_ctor false
                            [OpAllocateFast 1; OpAllocateFast 666; OpAllocateFast 2;
                             OpDeallocateFast (slot_ptr 1); OpDeallocateFast (slot_ptr 0)]
                            new_pool)))).
Proof.
  split; [lia|]. split; [reflexivity|]. split; [reflexivity|]. split; [reflexivity|].
  exact (flags_match_objects Z Z ThrowingType_ctor false 8%positive (fun _ => true)
           2 [] new_pool
           [OpAllocateFast 1; OpAllocateFast 666; OpAllocateFast 2;
            OpDeallocateFast (slot_ptr 1); OpDeallocateFast (slot_ptr 0)]
           ltac:(lia) eq_refl eq_refl eq_refl).
Defined.

Lemma no_aliasing_interleaved_witness :
  initial two_idle /\
  exists w',
    sys_steps ThrowingType_ctor false two_idle
      (mkSystem w' [PcDone (Returned (slot_ptr 0)); PcDone (Returned (slot_ptr 1))]) /\
    0%nat <> 1%nat /\
    0 <> 1 /\ occupied_at (pool w') 0 /\ occupied_at (pool w') 1.
Proof.
  assert (Hinit : initial two_idle).
  { split; [unfold pool_wf, size, vector_max_size; simpl; lia|].
    repeat constructor. }
  split; [exact Hinit|].
  destruct interleaved_run as [w' [Hsteps _]].
  exists w'. split; [exact Hsteps|]. split; [lia|].
  exact (no_aliasing_interleaved Z Z ThrowingType_ctor false two_idle _ 0 1 0 1
           Hinit Hsteps ltac:(lia) eq_refl eq_refl).
Defined.

Arguments solo_steps {T Args} T_ctor NDEBUG _ _ _ _.

Lemma solo_allocate_witness :
  pool_wf (pool one_used) /\
  solo_steps ThrowingType_ctor false (PcStart 42) one_used
    (PcDone (fst (allocate_fast ThrowingType_ctor 42 one_used)))
    (snd (allocate_fast ThrowingType_ctor 42 one_used)).
Proof.
  assert (Hwf : pool_wf (pool one_used))
    by (unfold pool_wf, size, vector_max_size; simpl; lia).
  split; [exact Hwf|].
  exact (solo_allocate Z Z ThrowingType_ctor false 42 one_used Hwf).
Defined.

Lemma no_slot_lost_witness :
  initial two_idle /\
  (forall i, 0 <= i < capacity (world two_idle) ->
             free_at (pool (world two_idle)) i) /\
  exists w',
    sys_steps ThrowingType_ctor false two_idle
      (mkSystem w' [PcDone (Returned (slot_ptr 0)); PcDone (Returned (slot_ptr 1))]) /\
    forall i, 0 <= i < capacity w' -> occupied_at (pool w') i ->
      exists t pc,
        [PcDone (Args:=Z) (Returned (slot_ptr 0)); PcDone (Returned (slot_ptr 1))] !! t
          = Some pc /\
        holds pc = Some i.
Proof.
  assert (Hinit : initial two_idle).
  { split; [unfold pool_wf, size, vector_max_size; simpl; lia|].
    repeat constructor. }
  assert (Hfree : forall i, 0 <= i < capacity (world two_idle) ->
                            free_at (pool (world two_idle)) i).
  { intros i Hi. unfold capacity, size in Hi. simpl in Hi.
    assert (Hc : i = 0 \/ i = 1) by lia.
    destruct Hc as [->| ->]; reflexivity. }
  split; [exact Hinit|]. split; [exact Hfree|].
  destruct interleaved_run as [w' [Hsteps _]].
  exists w'. split; [exact Hsteps|].
  exact (proj1 (no_slot_lost Z Z ThrowingType_ctor false two_idle _
                  Hinit Hfree Hsteps)).
Defined.

(** * The memory-ordering contract at work *)

Arguments phases_agree {Args} ths t.
Arguments allocation_tail {T Args} T_ctor args p res.
Arguments flag_loads {T} i segs.
Arguments PcPublish {Args} idx.

(** One slot and two threads.  The first thread allocates the slot and
    calls [deallocate_fast] on it; between its destructor call and its
    release store the second thread finds the slot occupied; after the
    release store the second thread allocates again, claims the slot and
    constructs in it. *)
Example recycling_run :
  exists w',
    sys_steps ThrowingType_ctor false
      (mkSystem (mkWorld (mkPool [free_seg] 0) [] []) [PcIdle; PcIdle])
      (mkSystem w' [PcIdle; PcPublish 0]) /\
    trace w' =
    [EvLoadHint memory_order_relaxed 0;
     EvCas 0 memory_order_acq_rel memory_order_relaxed true true;
     EvConstruct 0 true;
     EvStoreHint memory_order_relaxed 0;
     EvDestroy 0;
     EvLoadHint memory_order_relaxed 0;
     EvCas 0 memory_order_acq_rel memory_order_relaxed false false;
     EvStoreFlag 0 memory_order_release true;
     EvLoadHint memory_order_relaxed 0;
     EvCas 0 memory_order_acq_rel memory_order_relaxed true true;
     EvConstruct 0 true].
Proof.
  eexists. split.
  - eapply sys_steps_first;
      [eapply (sys_allocate _ _ _ _ _ 0 _ 1); reflexivity | cbn].
    do 4 (eapply sys_steps_first;
            [eapply (sys_run _ _ _ _ _ 0); [reflexivity | reflexivity | lazy; reflexivity]
            | cbn]).
    eapply sys_steps_first;
      [eapply (sys_deallocate _ _ _ _ _ 0 0); reflexivity | cbn].
    eapply sys_steps_first;
      [eapply (sys_run _ _ _ _ _ 0); [reflexivity | reflexivity | lazy; reflexivity]
      | cbn].
    eapply sys_steps_first;
      [eapply (sys_allocate _ _ _ _ _ 1 _ 2); reflexivity | cbn].
    do 2 (eapply sys_steps_first;
            [eapply (sys_run _ _ _ _ _ 1); [reflexivity | reflexivity | lazy; reflexivity]
            | cbn]).
    eapply sys_steps_first;
      [eapply (sys_run _ _ _ _ _ 0); [reflexivity | reflexivity | lazy; reflexivity]
      | cbn].
    eapply sys_steps_first;
      [eapply (sys_run _ _ _ _ _ 1); [reflexivity | reflexivity | lazy; reflexivity]
      | cbn].
    eapply sys_steps_first;
      [eapply (sys_allocate _ _ _ _ _ 1 _ 3); reflexivity | cbn].
    do 3 (eapply sys_steps_first;
            [eapply (sys_run _ _ _ _ _ 1); [reflexivity | reflexivity | lazy; reflexivity]
            | cbn]).
    apply sys_steps_refl.
  - reflexivity.
Qed.

Lemma memory_order_contract_witness :
  pool_wf (pool one_used) /\
  initial (mkSystem (mkWorld (mkPool [free_seg] 0) [] []) [PcIdle (Args:=Z); PcIdle]) /\
  exists w',
    sys_steps ThrowingType_ctor false
      (mkSystem (mkWorld (mkPool [free_seg] 0) [] []) [PcIdle; PcIdle])
      (mkSystem w' [PcIdle; PcPublish 0]) /\
    (let o := OpDeallocateFast (Args:=Z) (slot_ptr 0) in
     let w := one_used in
     exists new,
       trace (snd (perform ThrowingType_ctor false o w)) = trace w ++ new /\
       forallb order_ok new = true /\
       (forall args,
          o = OpAllocateFast args \/ o = OpAllocateSafe args ->
          exists evs res o',
            claim_scan (pool w) (search_start (pool w)) 0 (spurious w) evs res o' /\
            (forall i, res = Some i -> exists pre, evs = pre ++ [claim_cas i true true]) /\
            new = EvLoadHint memory_order_relaxed (search_start (pool w)) ::
                  evs ++ allocation_tail ThrowingType_ctor args (pool w) res) /\
       (forall idx v,
          slot_released o = Some idx ->
          slot (pool w) idx = Some (used_seg v) ->
          new = [EvDestroy idx; EvStoreFlag idx memory_order_release true]) /\
       (o = OpStats -> new = flag_loads 0 (segments (pool w)))) /\
    (exists new,
       trace w' = [] ++ new /\
       forallb order_ok new = true /\
       phases_agree [PcIdle (Args:=Z); PcPublish 0] new /\
       (forall i, phase i new <> PhBroken) /\
       (forall i a b c ok,
          new = a ++ EvDestroy i :: b ++ EvConstruct i ok :: c ->
          exists b1 b2 b3,
            b = b1 ++ EvStoreFlag i memory_order_release true ::
                b2 ++ EvCas i memory_order_acq_rel memory_order_relaxed true true :: b3 /\
            existsb (writes_slot i) b1 = false /\
            existsb (writes_slot i) b2 = false) /\
       (forall i a b c ok,
          new = a ++ EvConstruct i false :: b ++ EvConstruct i ok :: c ->
          exists b1 b2 b3,
            b = b1 ++ EvStoreFlag i memory_order_release true ::
                b2 ++ EvCas i memory_order_acq_rel memory_order_relaxed true true :: b3 /\
            existsb (writes_slot i) b1 = false /\
            existsb (writes_slot i) b2 = false)).
Proof.
  assert (Hwf : pool_wf (pool one_used))
    by (unfold pool_wf, size, vector_max_size; simpl; lia).
  assert (Hinit : initial (mkSystem (mkWorld (mkPool [free_seg] 0) [] [])
                             [PcIdle (Args:=Z); PcIdle])).
  { split; [unfold pool_wf, size, vector_max_size; simpl; lia|].
    repeat constructor. }
  split; [exact Hwf|]. split; [exact Hinit|].
  destruct recycling_run as [w' [Hsteps _]].
  exists w'. split; [exact Hsteps|].
  exact (memory_order_contract Z Z ThrowingType_ctor false
           (OpDeallocateFast (slot_ptr 0)) one_used _ _ Hwf Hinit Hsteps).
Defined.

(** A release of slot 1, which holds no object, and one five segments
    after the start of an array of two slots. *)
Lemma release_unchecked_witness :
  0 <= index_of 1 < capacity one_used /\
  capacity one_used <= index_of 5 /\
  deallocate_impl_safe (slot_ptr 1) one_used =
  (Returned true,
   mkWorld (mkPool [used_seg 7; free_seg] 0) []
     [EvStoreFlag 1 memory_order_release true]) /\
  deallocate_impl_safe (slot_ptr 5) one_used =
  (Fault,
   mkWorld (mkPool [used_seg 7; free_seg] 0) []
     [EvStoreFlag 5 memory_order_release true]) /\
  (forall elem,
     fst (deallocate_fast false elem one_used) = Returned tt \/
     fst (deallocate_fast false elem one_used) = Fault).
Proof.
  assert (Hin : 0 <= index_of 1 < capacity one_used)
    by (vm_compute; split; [discriminate | reflexivity]).
  assert (Hout : capacity one_used <= index_of 5) by (vm_compute; discriminate).
  split; [exact Hin|]. split; [exact Hout|].
  pose proof (release_unchecked Z false one_used) as [H1 [H2 [_ [_ [H5 _]]]]].
  split; [exact (H1 1 Hin) | split; [exact (H2 5 Hout) | exact H5]].
Defined.
